(** * Prompt composer: segments, block tokens and context flattening

    A shallow embedding of the prompt composer of the web application
    (the [App] component and its helper functions), of the
    [blocksCtx] computation of the generation endpoint and of the
    keyframe normalisation of the animation fallback.

    JavaScript strings are sequences of UTF-16 code units; they are
    modelled as lists of integers.  An object used as a dictionary
    ([Record<string, any>]) is the finite map of its own properties.  A
    property that it does not own is read from [Object.prototype], and
    an assignment to [__proto__] goes to the setter found there, which
    makes no own property; what an object would inherit from a
    prototype that such an assignment has put in the place of
    [Object.prototype] is not modelled.  Calls of [uid()] are modelled
    by passing the identifiers they return as arguments.  A built-in or
    a function that can throw returns an option, [None] standing for
    the exception. *)

From Stdlib Require Import ZArith List Lia Zify ZifyNat Bool Ascii String.
From Stdlib Require Import Decimal DecimalZ DecimalN DecimalPos DecimalFacts.
From stdpp Require Import base option list gmap.

Local Open Scope Z_scope.

(* ===================================================================== *)
(** * Part I: definitions                                                 *)
(* ===================================================================== *)

(** ** Strings *)

(** A JavaScript string: its UTF-16 code units. *)
Abbreviation jstring := (list Z).

(** An ASCII literal as a JavaScript string. *)
Definition str (s : string) : jstring :=
  map (fun a => Z.of_N (N_of_ascii a)) (list_ascii_of_string s).

(** Strict equality [===] of two strings. *)
Definition str_eqb (a b : jstring) : bool := bool_decide (a = b).

(** ** Values *)

(** The values a block parameter can hold: the JSON scalars, and
    [undefined] for an absent property.  [JNum n] is the number [n], a
    safe integer (a number holds such an integer exactly and writes it
    in plain digits; the two zeros are not told apart).  [JOther text]
    is a value the model does not look into: the number, array or
    object that [JSON.parse] reads from [text].  (One number has
    several such names, [1e3] and [1000.0] among them, besides
    [JNum 1000]; nothing below relies on two names being different
    values.)  [JInherited name] is the value of the property [name]
    that an object inherits from [Object.prototype]: a function, and
    for [__proto__] the object [Object.prototype] itself. *)
Inductive jvalue :=
| JUndefined
| JNull
| JBool (b : bool)
| JNum (n : Z)
| JStr (s : jstring)
| JOther (text : jstring)
| JInherited (name : jstring).

#[global] Instance jvalue_eq_dec : EqDecision jvalue.
Proof. solve_decision. Defined.

(** [a ?? b] *)
Definition nullish (a b : jvalue) : jvalue :=
  match a with
  | JUndefined | JNull => b
  | _ => a
  end.

(** The names of the properties of [Object.prototype]. *)
Definition object_prototype_names : list jstring :=
  [str "constructor"; str "hasOwnProperty"; str "isPrototypeOf";
   str "propertyIsEnumerable"; str "toLocaleString"; str "toString";
   str "valueOf"; str "__proto__"; str "__defineGetter__";
   str "__defineSetter__"; str "__lookupGetter__"; str "__lookupSetter__"].

(** [obj[k]] on a dictionary with the own properties [obj] and the
    prototype [Object.prototype]: the own property, else the inherited
    one, else [undefined]. *)
Definition get (obj : gmap jstring jvalue) (k : jstring) : jvalue :=
  match obj !! k with
  | Some v => v
  | None => if bool_decide (k ∈ object_prototype_names) then JInherited k
            else JUndefined
  end.

(** ** Character classes and string operations *)

Definition in_range (lo hi c : Z) : bool := (lo <=? c) && (c <=? hi).

Definition is_digit (c : Z) : bool := in_range 48 57 c.

(** [\w] *)
Definition is_word (c : Z) : bool :=
  in_range 65 90 c || in_range 97 122 c || is_digit c || (c =? 95).

(** [[\w-]] *)
Definition is_id_char (c : Z) : bool := is_word c || (c =? 45).

(** [\s], which is also what [trim] removes: the white space and line
    terminator code units. *)
Definition is_space (c : Z) : bool :=
  in_range 9 13 c || (c =? 32) || (c =? 160) || (c =? 5760)
  || in_range 8192 8202 c || (c =? 8232) || (c =? 8233) || (c =? 8239)
  || (c =? 8287) || (c =? 12288) || (c =? 65279).

Definition is_high_surrogate (c : Z) : bool := in_range 0xD800 0xDBFF c.
Definition is_low_surrogate (c : Z) : bool := in_range 0xDC00 0xDFFF c.

(** The rest of [s] after the prefix [p], when [s] starts with [p]. *)
Fixpoint after_prefix (p s : jstring) : option jstring :=
  match p with
  | [] => Some s
  | a :: p' =>
      match s with
      | [] => None
      | b :: s' => if a =? b then after_prefix p' s' else None
      end
  end.

(** The longest prefix of [s] whose code units satisfy [p], and the rest. *)
Fixpoint span (p : Z -> bool) (s : jstring) : jstring * jstring :=
  match s with
  | [] => ([], [])
  | c :: t => if p c then let '(a, b) := span p t in (c :: a, b) else ([], s)
  end.

Fixpoint trim_start (s : jstring) : jstring :=
  match s with
  | [] => []
  | c :: t => if is_space c then trim_start t else s
  end.

(** [s.trim()] *)
Definition trim (s : jstring) : jstring := rev (trim_start (rev (trim_start s))).

(** [s.split(/\s+/)], with [cur] the piece being read and [in_sep] set
    while a run of white space is being skipped. *)
Fixpoint split_loop (cur : jstring) (in_sep : bool) (s : jstring) : list jstring :=
  match s with
  | [] => [cur]
  | c :: t =>
      if is_space c
      then (if in_sep then split_loop cur true t else cur :: split_loop [] true t)
      else split_loop (cur ++ [c]) false t
  end.

Definition split_spaces (s : jstring) : list jstring := split_loop [] false s.

(** [l.filter(Boolean)] on strings: the empty ones are dropped. *)
Definition filter_nonempty (l : list jstring) : list jstring :=
  filter (fun x => negb (bool_decide (x = []))) l.

(** [l.join(sep)] *)
Fixpoint join (sep : jstring) (l : list jstring) : jstring :=
  match l with
  | [] => []
  | [x] => x
  | x :: t => x ++ sep ++ join sep t
  end.

Fixpoint indexOf_from (c : Z) (s : jstring) (i : Z) : Z :=
  match s with
  | [] => -1
  | x :: t => if x =? c then i else indexOf_from c t (i + 1)
  end.

(** [s.indexOf(c)] for a one-character string [c]. *)
Definition indexOf (c : Z) (s : jstring) : Z := indexOf_from c s 0.

(** [s.slice(a, b)] and [s.slice(a)] for positions [0 <= a <= b]. *)
Definition slice (s : jstring) (a b : Z) : jstring :=
  take (Z.to_nat (b - a)) (drop (Z.to_nat a) s).

Definition slice_from (s : jstring) (a : Z) : jstring := drop (Z.to_nat a) s.

(** ** JSON *)

(** The digit [d < 16] in lower-case and in upper-case hexadecimal. *)
Definition hex_lower (d : Z) : Z := if d <? 10 then 48 + d else 87 + d.
Definition hex_upper (d : Z) : Z := if d <? 10 then 48 + d else 55 + d.

Definition hex_val (c : Z) : option Z :=
  if is_digit c then Some (c - 48)
  else if in_range 97 102 c then Some (c - 87)
  else if in_range 65 70 c then Some (c - 55)
  else None.

(** [\uXXXX] *)
Definition unicode_escape (c : Z) : jstring :=
  [92; 117; hex_lower (c / 4096); hex_lower (c / 256 mod 16);
   hex_lower (c / 16 mod 16); hex_lower (c mod 16)].

(** The JSON text of one code unit that is not half of a surrogate pair. *)
Definition quote_char (c : Z) : jstring :=
  if c =? 8 then [92; 98]
  else if c =? 9 then [92; 116]
  else if c =? 10 then [92; 110]
  else if c =? 12 then [92; 102]
  else if c =? 13 then [92; 114]
  else if c =? 34 then [92; 34]
  else if c =? 92 then [92; 92]
  else if (c <? 32) || is_high_surrogate c || is_low_surrogate c then unicode_escape c
  else [c].

(** The body of [QuoteJSONString]: a surrogate pair is copied, a lone
    surrogate is escaped. *)
Fixpoint quote_chars (s : jstring) : jstring :=
  match s with
  | [] => []
  | c :: t =>
      if is_high_surrogate c then
        match t with
        | d :: t' =>
            if is_low_surrogate d then c :: d :: quote_chars t'
            else unicode_escape c ++ quote_chars t
        | [] => unicode_escape c
        end
      else quote_char c ++ quote_chars t
  end.

Definition quote_string (s : jstring) : jstring := [34] ++ quote_chars s ++ [34].

Fixpoint uint_chars (d : Decimal.uint) : jstring :=
  match d with
  | Nil => []
  | D0 d => 48 :: uint_chars d
  | D1 d => 49 :: uint_chars d
  | D2 d => 50 :: uint_chars d
  | D3 d => 51 :: uint_chars d
  | D4 d => 52 :: uint_chars d
  | D5 d => 53 :: uint_chars d
  | D6 d => 54 :: uint_chars d
  | D7 d => 55 :: uint_chars d
  | D8 d => 56 :: uint_chars d
  | D9 d => 57 :: uint_chars d
  end.

(** [Number.isSafeInteger(n)] *)
Definition is_safe_integer (n : Z) : bool :=
  (- 9007199254740991 <=? n) && (n <=? 9007199254740991).

(** The decimal text of a safe integer. *)
Definition number_to_string (n : Z) : jstring :=
  match Z.to_int n with
  | Pos d => uint_chars d
  | Neg d => 45 :: uint_chars d
  end.

(** The text that [JSON.stringify] writes for the number, array or
    object that [JSON.parse] read from a text: the number in its
    standard form ([1000] for [1e3], [null] for [1e400]), the array or
    object without white space.  The development is parametric in this
    function. *)
Class JsonText := stringify_other : jstring -> jstring.

(** [JSON.stringify(v)]; [None] is the result [undefined]. *)
Definition JSON_stringify `{JT : JsonText} (v : jvalue) : option jstring :=
  match v with
  | JUndefined => None
  | JNull => Some (str "null")
  | JBool true => Some (str "true")
  | JBool false => Some (str "false")
  | JNum n => Some (number_to_string n)
  | JStr s => Some (quote_string s)
  | JOther text => Some (stringify_other text)
  | JInherited name =>
      if bool_decide (name = str "__proto__") then Some (str "{}") else None
  end.

(** The texts that are already in the form [JSON.stringify] writes are
    written as they are. *)
Definition json_plain : JsonText := fun text => text.

(** [String(x)] of a string or [undefined], as in a template literal. *)
Definition to_String (x : option jstring) : jstring := default (str "undefined") x.

(** The white space of JSON texts: tab, line feed, carriage return, space. *)
Definition is_json_ws (c : Z) : bool := (c =? 9) || (c =? 10) || (c =? 13) || (c =? 32).

Fixpoint skip_json_ws (s : jstring) : jstring :=
  match s with
  | [] => []
  | c :: t => if is_json_ws c then skip_json_ws t else s
  end.

Definition simple_escape (e : Z) : option Z :=
  if e =? 34 then Some 34
  else if e =? 92 then Some 92
  else if e =? 47 then Some 47
  else if e =? 98 then Some 8
  else if e =? 102 then Some 12
  else if e =? 110 then Some 10
  else if e =? 114 then Some 13
  else if e =? 116 then Some 9
  else None.

Definition hex4 (a b c d : Z) : option Z :=
  x ← hex_val a; y ← hex_val b; z ← hex_val c; w ← hex_val d;
  Some (x * 4096 + y * 256 + z * 16 + w).

(** A JSON string after its opening quote: the string it denotes and
    the text after the closing quote. *)
Fixpoint parse_string_chars (s : jstring) : option (jstring * jstring) :=
  match s with
  | [] => None
  | c :: t =>
      if c =? 34 then Some ([], t)
      else if c =? 92 then
        match t with
        | [] => None
        | e :: t1 =>
            if e =? 117 then
              match t1 with
              | h1 :: h2 :: h3 :: h4 :: t2 =>
                  u ← hex4 h1 h2 h3 h4;
                  r ← parse_string_chars t2;
                  Some (u :: r.1, r.2)
              | _ => None
              end
            else
              u ← simple_escape e;
              r ← parse_string_chars t1;
              Some (u :: r.1, r.2)
        end
      else if c <? 32 then None
      else r ← parse_string_chars t; Some (c :: r.1, r.2)
  end.

#[global] Instance uint_eq_decision : EqDecision Decimal.uint.
Proof. solve_decision. Defined.

Definition digit_cons (c : Z) (d : Decimal.uint) : Decimal.uint :=
  if c =? 48 then D0 d else if c =? 49 then D1 d else if c =? 50 then D2 d
  else if c =? 51 then D3 d else if c =? 52 then D4 d else if c =? 53 then D5 d
  else if c =? 54 then D6 d else if c =? 55 then D7 d else if c =? 56 then D8 d
  else D9 d.

(** The digits at the start of [s], and the rest. *)
Fixpoint read_digits (s : jstring) : Decimal.uint * jstring :=
  match s with
  | [] => (Nil, [])
  | c :: t =>
      if is_digit c then let '(d, r) := read_digits t in (digit_cons c d, r)
      else (Nil, s)
  end.

(** Only white space is left. *)
Definition at_end (s : jstring) : bool := bool_decide (skip_json_ws s = []).

(** The grammar of JSON texts, as a reader that takes one code unit at
    a time.  Its state says what may come next; the stack holds the
    arrays and objects that are open. *)
Inductive Container := InArray | InObject.

Inductive JsonState :=
| ExpectValue
| ExpectValueOrEnd
| ExpectKeyOrEnd
| ExpectKey
| ExpectColon
| AfterValue
| InString (key : bool)
| InEscape (key : bool)
| InHex (key : bool) (n : nat)
| AfterMinus
| AfterZero
| InInt
| AfterDot
| InFrac
| AfterE
| AfterExpSign
| InExp
| InLiteral (rest : jstring).

Definition is_some {A} (o : option A) : bool :=
  match o with Some _ => true | None => false end.

Definition is_e (c : Z) : bool := (c =? 101) || (c =? 69).

(** The first code unit of a value. *)
Definition start_value (stack : list Container) (c : Z)
  : option (JsonState * list Container) :=
  if c =? 34 then Some (InString false, stack)
  else if c =? 45 then Some (AfterMinus, stack)
  else if c =? 48 then Some (AfterZero, stack)
  else if in_range 49 57 c then Some (InInt, stack)
  else if c =? 91 then Some (ExpectValueOrEnd, InArray :: stack)
  else if c =? 123 then Some (ExpectKeyOrEnd, InObject :: stack)
  else if c =? 116 then Some (InLiteral (str "rue"), stack)
  else if c =? 102 then Some (InLiteral (str "alse"), stack)
  else if c =? 110 then Some (InLiteral (str "ull"), stack)
  else None.

(** A code unit after a complete value: white space, a comma or the
    bracket that closes the innermost open array or object. *)
Definition after_value (stack : list Container) (c : Z)
  : option (JsonState * list Container) :=
  if is_json_ws c then Some (AfterValue, stack)
  else
    match stack with
    | [] => None
    | InArray :: outer =>
        if c =? 44 then Some (ExpectValue, stack)
        else if c =? 93 then Some (AfterValue, outer)
        else None
    | InObject :: outer =>
        if c =? 44 then Some (ExpectKey, stack)
        else if c =? 125 then Some (AfterValue, outer)
        else None
    end.

Definition json_step (st : JsonState) (stack : list Container) (c : Z)
  : option (JsonState * list Container) :=
  match st with
  | ExpectValue =>
      if is_json_ws c then Some (st, stack) else start_value stack c
  | ExpectValueOrEnd =>
      if is_json_ws c then Some (st, stack)
      else if c =? 93 then Some (AfterValue, tail stack)
      else start_value stack c
  | ExpectKeyOrEnd =>
      if is_json_ws c then Some (st, stack)
      else if c =? 34 then Some (InString true, stack)
      else if c =? 125 then Some (AfterValue, tail stack)
      else None
  | ExpectKey =>
      if is_json_ws c then Some (st, stack)
      else if c =? 34 then Some (InString true, stack)
      else None
  | ExpectColon =>
      if is_json_ws c then Some (st, stack)
      else if c =? 58 then Some (ExpectValue, stack)
      else None
  | AfterValue => after_value stack c
  | InString key =>
      if c =? 34 then Some (if key then ExpectColon else AfterValue, stack)
      else if c =? 92 then Some (InEscape key, stack)
      else if c <? 32 then None
      else Some (st, stack)
  | InEscape key =>
      if c =? 117 then Some (InHex key 4, stack)
      else if is_some (simple_escape c) then Some (InString key, stack)
      else None
  | InHex key n =>
      if is_some (hex_val c)
      then Some (match n with
                 | S (S m) => InHex key (S m)
                 | _ => InString key
                 end, stack)
      else None
  | AfterMinus =>
      if c =? 48 then Some (AfterZero, stack)
      else if in_range 49 57 c then Some (InInt, stack)
      else None
  | AfterZero =>
      if c =? 46 then Some (AfterDot, stack)
      else if is_e c then Some (AfterE, stack)
      else after_value stack c
  | InInt =>
      if is_digit c then Some (st, stack)
      else if c =? 46 then Some (AfterDot, stack)
      else if is_e c then Some (AfterE, stack)
      else after_value stack c
  | AfterDot => if is_digit c then Some (InFrac, stack) else None
  | InFrac =>
      if is_digit c then Some (st, stack)
      else if is_e c then Some (AfterE, stack)
      else after_value stack c
  | AfterE =>
      if (c =? 43) || (c =? 45) then Some (AfterExpSign, stack)
      else if is_digit c then Some (InExp, stack)
      else None
  | AfterExpSign => if is_digit c then Some (InExp, stack) else None
  | InExp => if is_digit c then Some (st, stack) else after_value stack c
  | InLiteral rest =>
      match rest with
      | x :: rest' =>
          if c =? x
          then Some (match rest' with [] => AfterValue | _ => InLiteral rest' end, stack)
          else None
      | [] => None
      end
  end.

(** The text is accepted when it ends after a complete value with
    nothing left open. *)
Fixpoint json_run (st : JsonState) (stack : list Container) (s : jstring) : bool :=
  match s with
  | [] =>
      match st, stack with
      | (AfterValue | AfterZero | InInt | InFrac | InExp), [] => true
      | _, _ => false
      end
  | c :: t =>
      match json_step st stack c with
      | Some (st', stack') => json_run st' stack' t
      | None => false
      end
  end.

(** [text] is a JSON text: [JSON.parse(text)] does not throw. *)
Definition json_valid (text : jstring) : bool := json_run ExpectValue [] text.

(** A JSON number at the start of [s] ([text] is the whole input):
    an integer written without fraction and exponent is read as such
    when it is safe, any other number is left to [JOther]. *)
Definition parse_number (text s : jstring) : option jvalue :=
  let '(neg, s1) := match s with
                    | c :: t => if c =? 45 then (true, t) else (false, s)
                    | [] => (false, s)
                    end in
  let '(d, r) := read_digits s1 in
  if bool_decide (d = Nil) then None
  else if negb (bool_decide (unorm d = d)) then None
  else if at_end r then
    let n := Z.of_int (if neg : bool then Neg d else Pos d) in
    Some (if is_safe_integer n then JNum n else JOther text)
  else if json_valid text then Some (JOther text)
  else None.

Definition parse_literal (name : jstring) (v : jvalue) (s : jstring) : option jvalue :=
  r ← after_prefix name s; if at_end r then Some v else None.

(** [JSON.parse(text)]; [None] is a [SyntaxError]. *)
Definition JSON_parse (text : jstring) : option jvalue :=
  let s := skip_json_ws text in
  match s with
  | [] => None
  | c :: t =>
      if c =? 34 then
        r ← parse_string_chars t; if at_end r.2 then Some (JStr r.1) else None
      else if c =? 110 then parse_literal (str "null") JNull s
      else if c =? 116 then parse_literal (str "true") (JBool true) s
      else if c =? 102 then parse_literal (str "false") (JBool false) s
      else if (c =? 45) || is_digit c then parse_number text s
      else if (c =? 91) || (c =? 123)
      then (if json_valid text then Some (JOther text) else None)
      else None
  end.

(** The strings whose elements are code units. *)
Definition valid_string (s : jstring) : Prop := Forall (fun c => 0 <= c < 65536) s.

(** The scalars that [JSON.stringify] and [JSON.parse] carry unchanged. *)
Definition representable (v : jvalue) : Prop :=
  match v with
  | JNull | JBool _ => True
  | JNum n => is_safe_integer n = true
  | JStr s => valid_string s
  | JUndefined | JOther _ | JInherited _ => False
  end.

(** ** Assignment to a property *)

(** [key] is the name of a member of the object that a JSON text
    denotes: the reader of the grammar is run over the text, and the
    strings that it meets where a key of the outermost object is
    expected are compared with [key]. *)
Fixpoint object_has_key (key : jstring) (st : JsonState) (stack : list Container)
    (s : jstring) : bool :=
  match s with
  | [] => false
  | c :: t =>
      match json_step st stack c with
      | None => false
      | Some (st', stack') =>
          (match st, stack with
           | (ExpectKeyOrEnd | ExpectKey), [InObject] =>
               (c =? 34)
               && match parse_string_chars t with
                  | Some (k, _) => bool_decide (k = key)
                  | None => false
                  end
           | _, _ => false
           end)
          || object_has_key key st' stack' t
      end
  end.

Definition json_has_key (key text : jstring) : bool :=
  object_has_key key ExpectValue [] text.

(** What the setter of [__proto__] makes of a value: it ignores a
    value that is neither an object nor [null]. *)
Inductive ProtoValue :=
| ProtoNull
| ProtoObject (own_proto : bool)
| ProtoIgnored.

(** [own_proto] says whether the object has an own property
    [__proto__] (an object read by [JSON.parse] has one when its text
    has a member of that name). *)
Definition proto_value (v : jvalue) : ProtoValue :=
  match v with
  | JNull => ProtoNull
  | JOther text =>
      match skip_json_ws text with
      | c :: _ =>
          if c =? 123 then ProtoObject (json_has_key (str "__proto__") text)
          else if c =? 91 then ProtoObject false
          else ProtoIgnored
      | [] => ProtoIgnored
      end
  | JInherited _ => ProtoObject false
  | JUndefined | JBool _ | JNum _ | JStr _ => ProtoIgnored
  end.

(** An object made by [{}] and filled by assignments: its own
    properties, and whether an assignment to [__proto__] still reaches
    the setter of [Object.prototype] through its prototype chain. *)
Module Obj.
Record t := mk {
  own : gmap jstring jvalue;
  setter : bool
}.
End Obj.

(** [{}] *)
Definition empty_object : Obj.t := Obj.mk ∅ true.

(** [obj[k] = v].  A name other than [__proto__] becomes an own
    property (no object of the prototype chain has a setter for it or
    holds it read-only).  For [__proto__], as long as the setter of
    [Object.prototype] is reached, no own property is made: the setter
    replaces the prototype when [v] is an object or [null], and does
    nothing otherwise; after the prototype has become [null] or an
    object with an own property [__proto__], the setter is out of reach
    and [__proto__] is a name like any other. *)
Definition set_prop (obj : Obj.t) (k : jstring) (v : jvalue) : Obj.t :=
  if bool_decide (k = str "__proto__") && Obj.setter obj then
    match proto_value v with
    | ProtoNull => Obj.mk (Obj.own obj) false
    | ProtoObject own_proto => Obj.mk (Obj.own obj) (negb own_proto)
    | ProtoIgnored => obj
    end
  else Obj.mk (<[ k := v ]> (Obj.own obj)) (Obj.setter obj).

(** ** URI escapes, base64 and the attribute encoding *)

Definition is_alpha (c : Z) : bool := in_range 65 90 c || in_range 97 122 c.

(** The characters [encodeURIComponent] copies: letters, digits and
    the marks [- _ . ! ~ * ' ( )]. *)
Definition uri_unescaped (c : Z) : bool :=
  is_alpha c || is_digit c || (c =? 45) || (c =? 95) || (c =? 46) || (c =? 33)
  || (c =? 126) || (c =? 42) || (c =? 39) || (c =? 40) || (c =? 41).

(** [%XX] *)
Definition pct (b : Z) : jstring := [37; hex_upper (b / 16); hex_upper (b mod 16)].

(** The UTF-8 octets of a code point. *)
Definition utf8_encode (cp : Z) : list Z :=
  if cp <? 0x80 then [cp]
  else if cp <? 0x800 then [0xC0 + cp / 64; 0x80 + cp mod 64]
  else if cp <? 0x10000 then
    [0xE0 + cp / 4096; 0x80 + (cp / 64) mod 64; 0x80 + cp mod 64]
  else [0xF0 + cp / 262144; 0x80 + (cp / 4096) mod 64;
        0x80 + (cp / 64) mod 64; 0x80 + cp mod 64].

(** The code point of a surrogate pair. *)
Definition pair_code_point (hi lo : Z) : Z := (hi - 0xD800) * 0x400 + (lo - 0xDC00) + 0x10000.

(** [encodeURIComponent(s)]; [None] is the [URIError] thrown on an
    unpaired surrogate. *)
Fixpoint encodeURIComponent (s : jstring) : option jstring :=
  match s with
  | [] => Some []
  | c :: t =>
      if uri_unescaped c then r ← encodeURIComponent t; Some (c :: r)
      else if is_low_surrogate c then None
      else if is_high_surrogate c then
        match t with
        | d :: t' =>
            if is_low_surrogate d then
              r ← encodeURIComponent t';
              Some (flat_map pct (utf8_encode (pair_code_point c d)) ++ r)
            else None
        | [] => None
        end
      else r ← encodeURIComponent t; Some (flat_map pct (utf8_encode c) ++ r)
  end.

Definition hex2 (a b : Z) : option Z :=
  x ← hex_val a; y ← hex_val b; Some (x * 16 + y).

(** [unescape(s)]: [%uXXXX] and [%XX] are replaced by the code unit
    they name, everything else is copied. *)
Fixpoint unescape (s : jstring) : jstring :=
  match s with
  | [] => []
  | c :: t =>
      if c =? 37 then
        match t with
        | [] => c :: unescape t
        | a :: t1 =>
            if (a =? 117) && (4 <=? length t1)%nat then
              match t1 with
              | h1 :: h2 :: h3 :: h4 :: t' =>
                  match hex4 h1 h2 h3 h4 with
                  | Some x => x :: unescape t'
                  | None => c :: unescape t
                  end
              | _ => c :: unescape t
              end
            else
              match t1 with
              | b :: t2 =>
                  match hex2 a b with
                  | Some x => x :: unescape t2
                  | None => c :: unescape t
                  end
              | [] => c :: unescape t
              end
        end
      else c :: unescape t
  end.

(** The base64 alphabet. *)
Definition b64_char (i : Z) : Z :=
  if i <? 26 then 65 + i
  else if i <? 52 then 71 + i
  else if i <? 62 then i - 4
  else if i =? 62 then 43
  else 47.

Definition b64_val (c : Z) : option Z :=
  if in_range 65 90 c then Some (c - 65)
  else if in_range 97 122 c then Some (c - 71)
  else if is_digit c then Some (c + 4)
  else if c =? 43 then Some 62
  else if c =? 47 then Some 63
  else None.

(** The six-bit groups of a sequence of octets; an incomplete last
    group is filled with zero bits. *)
Fixpoint sextets (l : list Z) : list Z :=
  match l with
  | [] => []
  | a :: t1 =>
      match t1 with
      | [] => [a / 4; (a mod 4) * 16]
      | b :: t2 =>
          match t2 with
          | [] => [a / 4; (a mod 4) * 16 + b / 16; (b mod 16) * 4]
          | c :: t =>
              a / 4 :: (a mod 4) * 16 + b / 16 :: (b mod 16) * 4 + c / 64
              :: c mod 64 :: sextets t
          end
      end
  end.

Definition padding (n : nat) : jstring :=
  match (n mod 3)%nat with
  | 1%nat => [61; 61]
  | 2%nat => [61]
  | _ => []
  end.

(** [btoa(s)]; [None] is the [InvalidCharacterError] thrown on a code
    unit above 255. *)
Definition btoa (s : jstring) : option jstring :=
  if forallb (fun c => in_range 0 255 c) s
  then Some (map b64_char (sextets s) ++ padding (length s))
  else None.

(** The octets of a sequence of six-bit groups; the bits left over in
    an incomplete last group are dropped. *)
Fixpoint octets (l : list Z) : list Z :=
  match l with
  | a :: b :: c :: d :: t =>
      a * 4 + b / 16 :: (b mod 16) * 16 + c / 4 :: (c mod 4) * 64 + d :: octets t
  | [a; b; c] => [a * 4 + b / 16; (b mod 16) * 16 + c / 4]
  | [a; b] => [a * 4 + b / 16]
  | _ => []
  end.

Definition is_ascii_ws (c : Z) : bool :=
  (c =? 9) || (c =? 10) || (c =? 12) || (c =? 13) || (c =? 32).

(** One or two [=] at the end of a text whose length is a multiple of
    four are removed. *)
Definition strip_padding (s : jstring) : jstring :=
  if (length s mod 4 =? 0)%nat then
    match rev s with
    | a :: r =>
        if a =? 61 then
          match r with
          | b :: r' => if b =? 61 then rev r' else rev r
          | [] => rev r
          end
        else s
    | [] => s
    end
  else s.

(** [atob(s)]; [None] is the [InvalidCharacterError] thrown on a text
    that is not base64. *)
Definition atob (s : jstring) : option jstring :=
  let data := strip_padding (List.filter (fun c => negb (is_ascii_ws c)) s) in
  if (length data mod 4 =? 1)%nat then None
  else l ← mapM b64_val data; Some (octets l).

(** The characters [escape] copies: letters, digits and [@ * _ + - . /]. *)
Definition escape_unescaped (c : Z) : bool :=
  is_alpha c || is_digit c || (c =? 64) || (c =? 42) || (c =? 95) || (c =? 43)
  || (c =? 45) || (c =? 46) || (c =? 47).

Definition escape_char (c : Z) : jstring :=
  if escape_unescaped c then [c]
  else if c <? 256 then pct c
  else [37; 117; hex_upper (c / 4096); hex_upper ((c / 256) mod 16);
        hex_upper ((c / 16) mod 16); hex_upper (c mod 16)].

(** [escape(s)] *)
Definition escape (s : jstring) : jstring := flat_map escape_char s.

(** The code units of a code point. *)
Definition utf16_encode (cp : Z) : jstring :=
  if cp <? 0x10000 then [cp]
  else [0xD800 + (cp - 0x10000) / 1024; 0xDC00 + (cp - 0x10000) mod 1024].

Definition is_continuation (b : Z) : bool := in_range 0x80 0xBF b.

(** The code point of a UTF-8 sequence of two, three and four octets;
    [None] when the sequence is not well-formed UTF-8. *)
Definition utf8_decode2 (b1 b2 : Z) : option Z :=
  let cp := (b1 - 0xC0) * 64 + (b2 - 0x80) in
  if is_continuation b2 && (0x80 <=? cp) then Some cp else None.

Definition utf8_decode3 (b1 b2 b3 : Z) : option Z :=
  let cp := (b1 - 0xE0) * 4096 + (b2 - 0x80) * 64 + (b3 - 0x80) in
  if is_continuation b2 && is_continuation b3 && (0x800 <=? cp)
     && negb (in_range 0xD800 0xDFFF cp)
  then Some cp else None.

Definition utf8_decode4 (b1 b2 b3 b4 : Z) : option Z :=
  let cp := (b1 - 0xF0) * 262144 + (b2 - 0x80) * 4096 + (b3 - 0x80) * 64 + (b4 - 0x80) in
  if is_continuation b2 && is_continuation b3 && is_continuation b4
     && (0x10000 <=? cp) && (cp <=? 0x10FFFF)
  then Some cp else None.

(** The octet of the escape [%XX] that [p; a; b] spells. *)
Definition pct_octet (p a b : Z) : option Z :=
  if p =? 37 then hex2 a b else None.

(** [decodeURIComponent(s)]; [None] is a [URIError]. *)
Fixpoint decodeURIComponent (s : jstring) : option jstring :=
  match s with
  | [] => Some []
  | c :: t =>
      if negb (c =? 37) then r ← decodeURIComponent t; Some (c :: r)
      else
        match t with
        | h1 :: h2 :: t1 =>
            b1 ← hex2 h1 h2;
            if b1 <? 0x80 then r ← decodeURIComponent t1; Some (b1 :: r)
            else if b1 <? 0xC0 then None
            else if b1 <? 0xE0 then
              match t1 with
              | p2 :: x2 :: y2 :: t2 =>
                  b2 ← pct_octet p2 x2 y2;
                  cp ← utf8_decode2 b1 b2;
                  r ← decodeURIComponent t2; Some (utf16_encode cp ++ r)
              | _ => None
              end
            else if b1 <? 0xF0 then
              match t1 with
              | p2 :: x2 :: y2 :: p3 :: x3 :: y3 :: t2 =>
                  b2 ← pct_octet p2 x2 y2;
                  b3 ← pct_octet p3 x3 y3;
                  cp ← utf8_decode3 b1 b2 b3;
                  r ← decodeURIComponent t2; Some (utf16_encode cp ++ r)
              | _ => None
              end
            else if b1 <? 0xF8 then
              match t1 with
              | p2 :: x2 :: y2 :: p3 :: x3 :: y3 :: p4 :: x4 :: y4 :: t2 =>
                  b2 ← pct_octet p2 x2 y2;
                  b3 ← pct_octet p3 x3 y3;
                  b4 ← pct_octet p4 x4 y4;
                  cp ← utf8_decode4 b1 b2 b3 b4;
                  r ← decodeURIComponent t2; Some (utf16_encode cp ++ r)
              | _ => None
              end
            else None
        | _ => None
        end
  end.

(** [encodeAttr(s)]; [None] when a built-in throws. *)
Definition encodeAttr (s : jstring) : option jstring :=
  e ← encodeURIComponent s; btoa (unescape e).

(** [decodeAttr(s)]: the decoding, or [s] itself when a built-in throws. *)
Definition decodeAttr (s : jstring) : jstring :=
  default s (b ← atob s; decodeURIComponent (escape b)).

Definition is_byte (b : Z) : Prop := 0 <= b < 256.

(** No unpaired surrogate. *)
Fixpoint well_formed (s : jstring) : bool :=
  match s with
  | [] => true
  | c :: t =>
      if is_high_surrogate c then
        match t with
        | d :: t' => is_low_surrogate d && well_formed t'
        | [] => false
        end
      else negb (is_low_surrogate c) && well_formed t
  end.

(** ** Block definitions *)

Inductive ParamType := color | text | number | select.

Module ParamDef.
Record t := mk {
  key : jstring;
  label : jstring;
  type : ParamType;
  default : jvalue;
  explain : option jstring
}.
End ParamDef.

Module BlockDef.
Record t := mk {
  id : jstring;
  name : jstring;
  params : list ParamDef.t;
  hue : option Z
}.
End BlockDef.

Module Project.
Record t := mk {
  files : list (jstring * jstring);
  compositionId : jstring;
  width : Z;
  height : Z;
  fps : Z;
  durationInFrames : Z
}.
End Project.

Module Block.
Record t := mk {
  def : BlockDef.t;
  project : Project.t
}.
End Block.

(** [blocks.find(b => b.def.id === id)] *)
Definition find_block (blocks : list Block.t) (id : jstring) : option Block.t :=
  List.find (fun b => str_eqb (BlockDef.id (Block.def b)) id) blocks.

(** ** Segments *)

Inductive PromptSeg :=
| TextSeg (id : jstring) (value : jstring)
| BlockSeg (id : jstring) (blockId : jstring) (values : gmap jstring jvalue)
           (contextUrl contextData : option jstring).

Definition seg_id (s : PromptSeg) : jstring :=
  match s with
  | TextSeg id _ => id
  | BlockSeg id _ _ _ _ => id
  end.

(** [s.type === 'text'] and [s.type === 'block'] *)
Definition is_text (s : PromptSeg) : bool :=
  match s with TextSeg _ _ => true | BlockSeg _ _ _ _ _ => false end.

Definition is_block (s : PromptSeg) : bool := negb (is_text s).

(** ** Array operations of the language *)

Definition len {A} (l : list A) : Z := Z.of_nat (length l).

(** [l[i]]: [None] stands for [undefined]. *)
Definition js_index {A} (l : list A) (i : Z) : option A :=
  if i <? 0 then None else l !! Z.to_nat i.

Fixpoint findIndex_from {A} (p : A -> bool) (l : list A) (i : Z) : Z :=
  match l with
  | [] => -1
  | x :: t => if p x then i else findIndex_from p t (i + 1)
  end.

(** [l.findIndex(p)]: the first position where [p] holds, or [-1]. *)
Definition findIndex {A} (p : A -> bool) (l : list A) : Z := findIndex_from p l 0.

(** The position at which [splice(start, ...)] operates: a negative
    [start] counts from the end, and the result is clamped to the array. *)
Definition splice_start (n start : Z) : Z :=
  if start <? 0 then Z.max (n + start) 0 else Z.min start n.

(** [l.splice(start, 0, x)] *)
Definition splice_insert {A} (l : list A) (start : Z) (x : A) : list A :=
  let k := Z.to_nat (splice_start (len l) start) in
  take k l ++ x :: drop k l.

(** [l.splice(start, 1)]: the removed elements and the remaining array. *)
Definition splice_delete1 {A} (l : list A) (start : Z) : list A * list A :=
  let k := Z.to_nat (splice_start (len l) start) in
  (take 1 (drop k l), take k l ++ drop (S k) l).

(** ** Segmented composer operations *)

(** One round of the merging loop of [removeSeg]: when the last merged
    segment and [s] are both text, [s]'s text is appended to the last
    one, else [s] is pushed.  (The source appends in place, to a segment
    object that the previous list shares; the lists here are values, and
    what is modelled is the list the update returns.) *)
Definition merge_step (merged : list PromptSeg) (s : PromptSeg) : list PromptSeg :=
  match last merged, s with
  | Some (TextSeg i v), TextSeg _ v' =>
      <[ Nat.pred (length merged) := TextSeg i (v ++ v') ]> merged
  | _, _ => merged ++ [s]
  end.

(** The state update of [removeSeg(id)]; [fresh] is the identifier
    [uid()] returns when the list became empty. *)
Definition removeSeg (id : jstring) (fresh : jstring) (prev : list PromptSeg)
  : list PromptSeg :=
  let next := filter (fun s => negb (str_eqb (seg_id s) id)) prev in
  let merged := fold_left merge_step next [] in
  if len merged =? 0 then merged ++ [TextSeg fresh []] else merged.

(** The state update of [moveSegment(segId, index)]. *)
Definition moveSegment (segId : jstring) (index : Z) (prev : list PromptSeg)
  : list PromptSeg :=
  let from := findIndex (fun s => str_eqb (seg_id s) segId) prev in
  if from =? -1 then prev else
  let '(removed, next) := splice_delete1 prev from in
  match removed with
  | seg :: _ =>
      let to := if from <? index then Z.max 0 (index - 1) else index in
      splice_insert next to seg
  | [] => next (* not reached: [from] is a position of [prev] *)
  end.

(** The default values of a block's parameters:
    [blk.def.params.forEach(p => values[p.key] = p.default)], as the own
    properties of [values]. *)
Definition default_values (params : list ParamDef.t) : gmap jstring jvalue :=
  Obj.own (fold_left (fun values p => set_prop values (ParamDef.key p) (ParamDef.default p))
                     params empty_object).

(** The state update of the block-insertion branch of [handleDrop].
    [uid_block], [uid_before] and [uid_after] are the identifiers of the
    new block segment and of the text segments added around it.  [None]
    stands for a [TypeError] on reading a property of [undefined]. *)
Definition insertBlock (targetIndex : Z) (blockId : jstring)
    (values : gmap jstring jvalue) (uid_block uid_before uid_after : jstring)
    (prev : list PromptSeg) : option (list PromptSeg) :=
  let next := prev in
  let insertAt := Z.max 0 (Z.min targetIndex (len next)) in
  let next := splice_insert next insertAt (BlockSeg uid_block blockId values None None) in
  before ← (if insertAt =? 0 then Some true
            else s ← js_index next (insertAt - 1); Some (negb (is_text s)));
  let next := if before : bool then splice_insert next insertAt (TextSeg uid_before [])
              else next in
  at_ ← js_index next insertAt;
  wanted ← (if is_block at_ then Some (seg_id at_)
            else s ← js_index next (insertAt + 1); Some (seg_id s));
  let blockPos := findIndex (fun s => is_block s && str_eqb (seg_id s) wanted) next in
  let ensureAfter := blockPos + 1 in
  after ← (if len next <=? ensureAfter then Some true
           else s ← js_index next ensureAfter; Some (negb (is_text s)));
  Some (if after : bool then splice_insert next (ensureAfter + 1) (TextSeg uid_after [])
        else next).

(** [handleDrop(e, index)] as a function of the state it reads and of
    the drag payload: the new segment list.  An empty string is a
    missing payload entry. *)
Definition handleDrop (blocks : list Block.t) (hoveredDropIndex : option Z)
    (existingSegId blockId : jstring) (index : Z)
    (uid_block uid_before uid_after : jstring)
    (prev : list PromptSeg) : option (list PromptSeg) :=
  let targetIndex := default index hoveredDropIndex in
  match existingSegId with
  | _ :: _ => Some (moveSegment existingSegId targetIndex prev)
  | [] =>
      match blockId with
      | [] => Some prev
      | _ :: _ =>
          match find_block blocks blockId with
          | None => Some prev
          | Some blk =>
              insertBlock targetIndex blockId
                (default_values (BlockDef.params (Block.def blk)))
                uid_block uid_before uid_after prev
          end
      end
  end.

(** The invariant of the segment list. *)
Fixpoint no_adjacent_text (l : list PromptSeg) : bool :=
  match l with
  | a :: t =>
      match t with
      | b :: _ => negb (is_text a && is_text b) && no_adjacent_text t
      | [] => true
      end
  | [] => true
  end.

Definition seg_inv (l : list PromptSeg) : Prop :=
  1 <= len l /\ no_adjacent_text l = true.

(** ** Block tokens in the prompt *)

(** A match of the token pattern of the source: the text "[[Block:", a
    first group of one or more word characters or dashes, a second group
    of any number of characters other than the closing bracket, and two
    closing brackets.  The record holds the position of the match, the
    matched text [m0] and the two groups. *)
Module RegExpMatch.
Record t := mk {
  index : Z;
  m0 : jstring;
  m1 : jstring;
  m2 : jstring
}.
End RegExpMatch.

Definition not_rbracket (c : Z) : bool := negb (c =? 93).

(** The token pattern matched at the start of [s]: the two groups and
    the text after the match.  Both groups are greedy and the characters
    of the first group are also characters of the second, so giving back
    characters never finds a match that the longest groups miss. *)
Definition match_token (s : jstring) : option (jstring * jstring * jstring) :=
  s1 ← after_prefix (str "[[Block:") s;
  let '(id, s2) := span is_id_char s1 in
  if bool_decide (id = []) then None
  else
    let '(params, s3) := span not_rbracket s2 in
    s4 ← after_prefix (str "]]") s3;
    Some (id, params, s4).

(** What the pattern allows at the start of [s], whatever the order in
    which a matcher tries the alternatives. *)
Definition token_at (s id params rest : jstring) : Prop :=
  s = str "[[Block:" ++ id ++ params ++ str "]]" ++ rest
  /\ id <> []
  /\ Forall (fun c => is_id_char c = true) id
  /\ Forall (fun c => not_rbracket c = true) params.

(** [regex.exec] on the text [s] that starts at position [pos]: the
    leftmost match and the text after it. *)
Fixpoint search (s : jstring) (pos : Z) : option (RegExpMatch.t * jstring) :=
  match match_token s with
  | Some (id, params, rest) =>
      Some (RegExpMatch.mk pos (str "[[Block:" ++ id ++ params ++ str "]]") id params, rest)
  | None =>
      match s with
      | [] => None
      | _ :: t => search t (pos + 1)
      end
  end.

(** The successive results of [regex.exec(text)] with the global flag:
    each search starts where the previous match ended. *)
Fixpoint exec_loop (fuel : nat) (s : jstring) (pos : Z) : list RegExpMatch.t :=
  match fuel with
  | O => []
  | S fuel' =>
      match search s pos with
      | None => []
      | Some (m, rest) =>
          m :: exec_loop fuel' rest (RegExpMatch.index m + len (RegExpMatch.m0 m))
      end
  end.

Definition exec_all (text : jstring) : list RegExpMatch.t :=
  exec_loop (length text) text 0.

(** The handling of one [key=value] piece: nothing is assigned unless
    [=] occurs after the first character; the value is the JSON reading
    of the right-hand side, or the right-hand side itself when
    [JSON.parse] throws. *)
Definition assign_param (params : Obj.t) (kv : jstring) : Obj.t :=
  let eq := indexOf 61 kv in
  if 0 <? eq then
    let k := slice kv 0 eq in
    let v := slice_from kv (eq + 1) in
    set_prop params k (default (JStr v) (JSON_parse v))
  else params.

(** The pieces [(m[2] || '').trim().split(/\s+/).filter(Boolean)]. *)
Definition param_pieces (raw : jstring) : list jstring :=
  filter_nonempty (split_spaces (trim raw)).

(** The parameter decoding shared by [findTokenAt], [findTokenByIndex],
    [extractBlocksFromPrompt] and [parseToken]: the own properties of
    the object [params] it fills. *)
Definition parse_params (raw : jstring) : gmap jstring jvalue :=
  Obj.own (fold_left assign_param (param_pieces raw) empty_object).

Module TokenInfo.
Record t := mk {
  start : Z;
  end_ : Z;
  blockId : jstring;
  params : gmap jstring jvalue
}.
End TokenInfo.

Definition token_info (m : RegExpMatch.t) : TokenInfo.t :=
  let start := RegExpMatch.index m in
  TokenInfo.mk start (start + len (RegExpMatch.m0 m)) (RegExpMatch.m1 m)
               (parse_params (RegExpMatch.m2 m)).

Fixpoint findTokenAt_loop (ms : list RegExpMatch.t) (pos : Z) : option TokenInfo.t :=
  match ms with
  | [] => None
  | m :: ms' =>
      let start := RegExpMatch.index m in
      let end_ := start + len (RegExpMatch.m0 m) in
      if (start <=? pos) && (pos <=? end_) then Some (token_info m)
      else findTokenAt_loop ms' pos
  end.

(** [findTokenAt(text, pos)]; [None] is [null]. *)
Definition findTokenAt (text : jstring) (pos : Z) : option TokenInfo.t :=
  findTokenAt_loop (exec_all text) pos.

Fixpoint findTokenByIndex_loop (ms : list RegExpMatch.t) (i index : Z)
  : option TokenInfo.t :=
  match ms with
  | [] => None
  | m :: ms' =>
      if i =? index then Some (token_info m)
      else findTokenByIndex_loop ms' (i + 1) index
  end.

(** [findTokenByIndex(text, index)]; [None] is [null]. *)
Definition findTokenByIndex (text : jstring) (index : Z) : option TokenInfo.t :=
  if index <? 0 then None else findTokenByIndex_loop (exec_all text) 0 index.

(** The token text [saveEditingToken] writes for the block [def] and
    the edited [values]. *)
Definition paramStr `{JT : JsonText} (def : BlockDef.t) (values : gmap jstring jvalue)
  : jstring :=
  join (str " ")
    (map (fun p => ParamDef.key p ++ str "="
                   ++ to_String (JSON_stringify
                                   (nullish (get values (ParamDef.key p))
                                            (ParamDef.default p))))
         (BlockDef.params def)).

Definition tokenText `{JT : JsonText} (def : BlockDef.t) (values : gmap jstring jvalue)
  : jstring :=
  str "[[Block:" ++ BlockDef.id def ++ str " " ++ paramStr def values ++ str "]]".

Module EditingToken.
Record t := mk {
  start : Z;
  end_ : Z;
  blockId : jstring;
  values : gmap jstring jvalue
}.
End EditingToken.

(** [saveEditingToken()]: the prompt it publishes. *)
Definition saveEditingToken `{JT : JsonText} (blocks : list Block.t) (prompt : jstring)
    (editingToken : option EditingToken.t) : jstring :=
  match editingToken with
  | None => prompt
  | Some et =>
      match find_block blocks (EditingToken.blockId et) with
      | None => prompt
      | Some blk =>
          slice prompt 0 (EditingToken.start et)
          ++ tokenText (Block.def blk) (EditingToken.values et)
          ++ slice_from prompt (EditingToken.end_ et)
      end
  end.

(** The key a [key=value] piece assigns, if it assigns one, and the
    value it assigns. *)
Definition piece_key (kv : jstring) : option jstring :=
  let eq := indexOf 61 kv in
  if 0 <? eq then Some (slice kv 0 eq) else None.

Definition piece_value (kv : jstring) : jvalue :=
  let v := slice_from kv (indexOf 61 kv + 1) in
  default (JStr v) (JSON_parse v).

(** The code units that can stand inside a [key=value] piece of a
    token: no white space and no closing bracket. *)
Definition token_char (c : Z) : bool := negb (is_space c) && negb (c =? 93).

(** The value [v] survives in a token that writes [w] for it: the
    JSON text of [w] holds no white space and no closing bracket, and
    [JSON.parse] reads it as [v]. *)
Definition token_safe `{JT : JsonText} (w v : jvalue) : Prop :=
  exists text,
    JSON_stringify w = Some text
    /\ JSON_parse text = Some v
    /\ Forall (fun c => token_char c = true) text.

(** The keys that survive in a token: not empty, without white space,
    closing bracket and [=], and not [__proto__]. *)
Definition key_ok (k : jstring) : Prop :=
  k <> [] /\ Forall (fun c => token_char c = true) k /\ (61 ∉ k)
  /\ k <> str "__proto__".

Definition id_ok (id : jstring) : Prop :=
  id <> [] /\ Forall (fun c => is_id_char c = true) id.

(** ** The rich prompt editor: rendering *)

Definition escape_html_char (c : Z) : jstring :=
  if c =? 38 then str "&amp;"
  else if c =? 60 then str "&lt;"
  else if c =? 62 then str "&gt;"
  else [c].

(** [escapeHTML(s)] *)
Definition escapeHTML (s : jstring) : jstring := flat_map escape_html_char s.

Module Color.
Record t := mk {
  bg : jstring;
  bd : jstring;
  fg : jstring
}.
End Color.

(** The hue hashed from an identifier. *)
Definition hash_hue (id : jstring) : Z :=
  fold_left (fun h c => (h * 31 + c) mod 360) id 0.

Definition tokenColor (id : jstring) (hue : option Z) : Color.t :=
  let h := match hue with Some h => h | None => hash_hue id end in
  Color.mk (str "hsla(" ++ number_to_string h ++ str ", 70%, 28%, 0.40)")
           (str "hsla(" ++ number_to_string h ++ str ", 85%, 62%, 0.60)")
           (str "#e9eef5").

(** ['Block ' + id.slice(-4)] *)
Definition blockLabelFor (id : jstring) : jstring :=
  str "Block " ++ drop (length id - 4) id.

(** An attribute as the token template writes it: a space, the name,
    and the value between double quotes. *)
Definition html_attr (name : string) (value : jstring) : jstring :=
  str " " ++ str name ++ str "=" ++ [34] ++ value ++ [34].

(** The markup of a token widget. *)
Definition token_span (i : Z) (token blockId : jstring) (color : Color.t)
    (label : jstring) : jstring :=
  str "<span"
  ++ html_attr "class" (str "block-token")
  ++ html_attr "role" (str "button")
  ++ html_attr "tabindex" (str "0")
  ++ html_attr "data-token-index" (number_to_string i)
  ++ html_attr "data-token" token
  ++ html_attr "data-block-id" blockId
  ++ html_attr "contenteditable" (str "false")
  ++ html_attr "style"
       (str "cursor:pointer;display:inline-flex;align-items:center;gap:8px;padding:4px 10px;border-radius:999px;background:"
        ++ Color.bg color ++ str ";color:" ++ Color.fg color
        ++ str ";border:1px solid " ++ Color.bd color ++ str ";")
  ++ str ">"
  ++ str "<span" ++ html_attr "style" (str "font-weight:700;") ++ str ">"
  ++ escapeHTML label ++ str "</span>"
  ++ str "</span>".

(** The label of a token: the name of its block, or the fallback one. *)
Definition token_label (blocks : list Block.t) (id : jstring) : jstring :=
  match find_block blocks id with
  | Some blk =>
      match BlockDef.name (Block.def blk) with
      | [] => blockLabelFor id
      | name => name
      end
  | None => blockLabelFor id
  end.

(** The part pushed for the [i]-th token; [None] when [encodeAttr] throws. *)
Definition token_part (blocks : list Block.t) (i : Z) (m : RegExpMatch.t)
  : option jstring :=
  let id := RegExpMatch.m1 m in
  let color := tokenColor id (find_block blocks id ≫= fun blk => BlockDef.hue (Block.def blk)) in
  token ← encodeAttr (RegExpMatch.m0 m);
  blockId ← encodeAttr id;
  Some (token_span i token blockId color (token_label blocks id)).

(** The loop of [renderPromptHTML] over the matches, with its variables
    [last], [i] and [parts]. *)
Fixpoint render_loop (blocks : list Block.t) (text : jstring) (ms : list RegExpMatch.t)
    (last i : Z) (parts : list jstring) : option (list jstring) :=
  match ms with
  | [] =>
      Some (if last <? len text then parts ++ [escapeHTML (slice_from text last)]
            else parts)
  | m :: ms' =>
      let start := RegExpMatch.index m in
      let end_ := start + len (RegExpMatch.m0 m) in
      let parts := if last <? start then parts ++ [escapeHTML (slice text last start)]
                   else parts in
      token ← token_part blocks i m;
      render_loop blocks text ms' end_ (i + 1) (parts ++ [token])
  end.

(** [renderPromptHTML(text)]; [None] when [encodeAttr] throws. *)
Definition renderPromptHTML (blocks : list Block.t) (text : jstring) : option jstring :=
  parts ← render_loop blocks text (exec_all text) 0 0 [];
  Some (join [] parts).

(** ** The rich prompt editor: the tree behind the markup *)

#[local] Unset Elimination Schemes.
Inductive Node :=
| TextNode (data : jstring)
| Element (tag : jstring) (attrs : list (jstring * jstring)) (children : list Node).
#[local] Set Elimination Schemes.

(** The text of a run of character data: the references [&amp;],
    [&lt;] and [&gt;] are decoded, a carriage return (with the line feed
    after it, if any) becomes a line feed, and a NUL character is
    dropped, as the HTML parser does.  Other uses of the ampersand are
    outside the model ([None]). *)
Fixpoint decode_text (s : jstring) : option jstring :=
  match s with
  | [] => Some []
  | c :: t =>
      if c =? 38 then
        match t with
        | c1 :: c2 :: c3 :: t3 =>
            if bool_decide ([c1; c2; c3] = str "lt;") then r ← decode_text t3; Some (60 :: r)
            else if bool_decide ([c1; c2; c3] = str "gt;") then r ← decode_text t3; Some (62 :: r)
            else
              match t3 with
              | c4 :: t4 =>
                  if bool_decide ([c1; c2; c3; c4] = str "amp;")
                  then r ← decode_text t4; Some (38 :: r)
                  else None
              | [] => None
              end
        | _ => None
        end
      else if c =? 0 then decode_text t
      else if c =? 13 then
        match t with
        | d :: t' => if d =? 10 then r ← decode_text t'; Some (10 :: r)
                     else r ← decode_text t; Some (10 :: r)
        | [] => Some [10]
        end
      else r ← decode_text t; Some (c :: r)
  end.

Definition is_tag_char (c : Z) : bool := is_alpha c || is_digit c.
Definition is_attr_name_char (c : Z) : bool := is_alpha c || is_digit c || (c =? 45).
Definition not_quote (c : Z) : bool := negb (c =? 34).
Definition not_lt (c : Z) : bool := negb (c =? 60).

(** The attribute values the model reads: no character reference, no
    NUL and no carriage return. *)
Definition attr_value_ok (v : jstring) : bool :=
  forallb (fun c => negb ((c =? 38) || (c =? 0) || (c =? 13))) v.

Fixpoint skip_ascii_ws (s : jstring) : jstring :=
  match s with
  | [] => []
  | c :: t => if is_ascii_ws c then skip_ascii_ws t else s
  end.

(** The attributes of a start tag, up to its closing [>]: each one is a
    name, [=] and a value between double quotes. *)
Fixpoint parse_attrs (fuel : nat) (s : jstring)
  : option (list (jstring * jstring) * jstring) :=
  match fuel with
  | O => None
  | S fuel' =>
      match skip_ascii_ws s with
      | [] => None
      | c :: t =>
          if c =? 62 then Some ([], t)
          else
            let '(name, r) := span is_attr_name_char (c :: t) in
            if bool_decide (name = []) then None
            else
              r1 ← after_prefix [61; 34] r;
              let '(value, r2) := span not_quote r1 in
              r3 ← after_prefix [34] r2;
              if attr_value_ok value then
                rest ← parse_attrs fuel' r3;
                Some ((name, value) :: rest.1, rest.2)
              else None
      end
  end.

(** The nodes a piece of markup spells, up to the end of the markup or
    to an end tag, and the markup left.  The model reads text, start
    tags with double-quoted attributes and matching end tags; any other
    markup is outside the model ([None]). *)
Fixpoint parse_nodes (fuel : nat) (s : jstring) : option (list Node * jstring) :=
  match fuel with
  | O => None
  | S fuel' =>
      match s with
      | [] => Some ([], [])
      | c :: t =>
          if c =? 60 then
            match t with
            | [] => None
            | d :: _ =>
                if d =? 47 then Some ([], s)
                else if is_alpha d then
                  let '(tag, r) := span is_tag_char t in
                  a ← parse_attrs fuel' r;
                  inner ← parse_nodes fuel' a.2;
                  r3 ← after_prefix (str "</" ++ tag ++ str ">") inner.2;
                  rest ← parse_nodes fuel' r3;
                  Some (Element tag a.1 inner.1 :: rest.1, rest.2)
                else None
            end
          else
            let '(raw, r) := span not_lt s in
            data ← decode_text raw;
            rest ← parse_nodes fuel' r;
            Some (match data with
                  | [] => rest.1
                  | _ => TextNode data :: rest.1
                  end, rest.2)
      end
  end.

(** The child nodes of the editor after [el.innerHTML = html]. *)
Definition innerHTML (html : jstring) : option (list Node) :=
  r ← parse_nodes (S (length html)) html;
  if bool_decide (r.2 = []) then Some r.1 else None.

(** ** The rich prompt editor: reading the text back *)

(** [getAttribute(name)]; [None] is [null]. *)
Definition getAttribute (attrs : list (jstring * jstring)) (name : jstring)
  : option jstring :=
  snd <$> List.find (fun a => str_eqb a.1 name) attrs.

(** The pieces of [s] between runs of ASCII white space. *)
Fixpoint class_loop (cur : jstring) (s : jstring) : list jstring :=
  match s with
  | [] => [cur]
  | c :: t => if is_ascii_ws c then cur :: class_loop [] t else class_loop (cur ++ [c]) t
  end.

(** [classList.contains(name)] *)
Definition classList_contains (attrs : list (jstring * jstring)) (name : jstring) : bool :=
  match getAttribute attrs (str "class") with
  | Some v => bool_decide (name ∈ filter_nonempty (class_loop [] v))
  | None => false
  end.

(** The function [visit] of [textFromEditor]: what a node adds to [out]. *)
Fixpoint visit (n : Node) : jstring :=
  match n with
  | TextNode data => data
  | Element _ attrs children =>
      if classList_contains attrs (str "block-token") then
        decodeAttr (default [] (getAttribute attrs (str "data-token")))
      else
        (fix visit_all (l : list Node) : jstring :=
           match l with
           | [] => []
           | child :: l' => visit child ++ visit_all l'
           end) children
  end.

(** [textFromEditor()] on the child nodes of the editor. *)
Definition textFromEditor (childNodes : list Node) : jstring :=
  flat_map visit childNodes.

(** The round trip through the editor: render, let the browser build
    the tree, read the text back. *)
Definition editor_roundtrip (blocks : list Block.t) (text : jstring) : option jstring :=
  html ← renderPromptHTML blocks text;
  nodes ← innerHTML html;
  Some (textFromEditor nodes).

(** The attributes and the content of a token widget, as read from
    the markup [token_span] writes. *)
Definition token_style (color : Color.t) : jstring :=
  str "cursor:pointer;display:inline-flex;align-items:center;gap:8px;padding:4px 10px;border-radius:999px;background:"
  ++ Color.bg color ++ str ";color:" ++ Color.fg color
  ++ str ";border:1px solid " ++ Color.bd color ++ str ";".

Definition token_attrs (i : Z) (token blockId : jstring) (color : Color.t)
  : list (jstring * jstring) :=
  [(str "class", str "block-token"); (str "role", str "button");
   (str "tabindex", str "0"); (str "data-token-index", number_to_string i);
   (str "data-token", token); (str "data-block-id", blockId);
   (str "contenteditable", str "false"); (str "style", token_style color)].

Definition token_element (i : Z) (token blockId : jstring) (color : Color.t)
    (label_nodes : list Node) : Node :=
  Element (str "span") (token_attrs i token blockId color)
          [Element (str "span") [(str "style", str "font-weight:700;")] label_nodes].

(** The part pushed for the text between two tokens: none when the
    text is empty. *)
Definition text_parts (t : jstring) : list jstring :=
  match t with
  | [] => []
  | _ => [escapeHTML t]
  end.

(** The strings the editor shows unchanged: no NUL and no carriage
    return. *)
Definition plain_text (s : jstring) : Prop := Forall (fun c => c <> 0 /\ c <> 13) s.

(** The code units that can stand in an attribute value as they are. *)
Definition attr_safe (c : Z) : bool :=
  negb ((c =? 34) || (c =? 38) || (c =? 0) || (c =? 13)).

(** ** Context flattening *)

Module UsageParam.
Record t := mk {
  key : jstring;
  default : jvalue;
  value : jvalue
}.
End UsageParam.

Module Usage.
Record t := mk {
  id : jstring;
  name : jstring;
  def : list ParamDef.t;
  params : list UsageParam.t;
  project : Project.t;
  context : option (jstring * jstring)
}.
End Usage.

(** The record pushed for the block [blk] used with [values]. *)
Definition usage (blk : Block.t) (values : gmap jstring jvalue)
    (context : option (jstring * jstring)) : Usage.t :=
  let def := Block.def blk in
  Usage.mk (BlockDef.id def) (BlockDef.name def)
    (map (fun p => ParamDef.mk (ParamDef.key p) (ParamDef.label p) (ParamDef.type p)
                               (ParamDef.default p) (ParamDef.explain p))
         (BlockDef.params def))
    (map (fun p => UsageParam.mk (ParamDef.key p) (ParamDef.default p)
                                 (get values (ParamDef.key p)))
         (BlockDef.params def))
    (Block.project blk)
    context.

(** One round of the loop of [extractBlocksFromSegments]. *)
Definition extract_seg (blocks : list Block.t) (used : list Usage.t) (seg : PromptSeg)
  : list Usage.t :=
  match seg with
  | TextSeg _ _ => used
  | BlockSeg _ blockId values contextUrl contextData =>
      match find_block blocks blockId with
      | None => used
      | Some blk =>
          used ++ [usage blk values (Some (default [] contextUrl, default [] contextData))]
      end
  end.

Definition extractBlocksFromSegments (segments : list PromptSeg) (blocks : list Block.t)
  : list Usage.t :=
  fold_left (extract_seg blocks) segments [].

(** One round of the loop of [extractBlocksFromPrompt]. *)
Definition extract_match (blocks : list Block.t) (used : list Usage.t) (m : RegExpMatch.t)
  : list Usage.t :=
  match find_block blocks (RegExpMatch.m1 m) with
  | None => used
  | Some blk => used ++ [usage blk (parse_params (RegExpMatch.m2 m)) None]
  end.

Definition extractBlocksFromPrompt (text : jstring) (blocks : list Block.t)
  : list Usage.t :=
  fold_left (extract_match blocks) (exec_all text) [].

(** What one segment and one token contribute to the flattened list:
    the usage of the block they refer to, when the lookup has it. *)
Definition seg_usage (blocks : list Block.t) (seg : PromptSeg) : option Usage.t :=
  match seg with
  | TextSeg _ _ => None
  | BlockSeg _ blockId values contextUrl contextData =>
      blk ← find_block blocks blockId;
      Some (usage blk values (Some (default [] contextUrl, default [] contextData)))
  end.



(** ** Explain templates (the generation endpoint) *)

(** The position of the first occurrence of [pat] in [s]. *)
Fixpoint find_sub (pat s : jstring) : option nat :=
  match after_prefix pat s with
  | Some _ => Some O
  | None =>
      match s with
      | [] => None
      | _ :: t => S <$> find_sub pat t
      end
  end.

(** [GetSubstitution] for a string pattern (no captures): in the
    replacement text [$$] stands for [$], [$&] for the matched text,
    [$`] for the text before the match and [$'] for the text after it. *)
Fixpoint get_substitution (matched before after tpl : jstring) : jstring :=
  match tpl with
  | [] => []
  | c :: t =>
      if c =? 36 then
        match t with
        | [] => [36]
        | d :: t' =>
            if d =? 36 then 36 :: get_substitution matched before after t'
            else if d =? 38 then matched ++ get_substitution matched before after t'
            else if d =? 96 then before ++ get_substitution matched before after t'
            else if d =? 39 then after ++ get_substitution matched before after t'
            else 36 :: get_substitution matched before after t
        end
      else c :: get_substitution matched before after t
  end.

(** [s.replace(pat, repl)] for strings [pat] and [repl]: the first
    occurrence only. *)
Definition replace (s pat repl : jstring) : jstring :=
  match find_sub pat s with
  | None => s
  | Some i =>
      let before := take i s in
      let after := drop (i + length pat) s in
      before ++ get_substitution pat before after repl ++ after
  end.

(** [x != null] *)
Definition not_nullish (v : jvalue) : bool :=
  match v with
  | JUndefined | JNull => false
  | _ => true
  end.

(** The value the sentence of [defParam] is rendered with:
    [(val && (val.value != null ? val.value : val.default)) ?? defParam.default]. *)
Definition explain_value (b : Usage.t) (defParam : ParamDef.t) : jvalue :=
  let val := List.find (fun pp => str_eqb (UsageParam.key pp) (ParamDef.key defParam))
                       (Usage.params b) in
  nullish
    (match val with
     | None => JUndefined
     | Some pp => if not_nullish (UsageParam.value pp) then UsageParam.value pp
                  else UsageParam.default pp
     end)
    (ParamDef.default defParam).

(** [defParam.explain || 'set ' + defParam.key + ' to {value}'] *)
Definition explain_template (defParam : ParamDef.t) : jstring :=
  match ParamDef.explain defParam with
  | Some (c :: t) => c :: t
  | _ => str "set " ++ ParamDef.key defParam ++ str " to {value}"
  end.

(** The sentence rendered for one parameter of the usage [b]. *)
Definition explain_sentence `{JT : JsonText} (b : Usage.t) (defParam : ParamDef.t)
  : jstring :=
  replace (explain_template defParam) (str "{value}")
          (to_String (JSON_stringify (explain_value b defParam))).

(** The [explains] text of a usage: one sentence per declared parameter. *)
Definition explains `{JT : JsonText} (b : Usage.t) : jstring :=
  join [10] (map (explain_sentence b) (Usage.def b)).

(** The sentence the specification describes: the first occurrence of
    the placeholder [pat] replaced by the text [repl] itself. *)
Definition substitute (tpl pat repl : jstring) : jstring :=
  match find_sub pat tpl with
  | None => tpl
  | Some i => take i tpl ++ repl ++ drop (i + length pat) tpl
  end.

(** The list the block insertion builds, written by cases on the
    neighbours of the insertion point [k]: [pre] is the part of the list
    before it and [post] the part after it. *)
Definition insertBlock_result (k : nat) (blockId : jstring)
    (values : gmap jstring jvalue) (uid_block uid_before uid_after : jstring)
    (prev : list PromptSeg) : list PromptSeg :=
  let pre := take k prev in
  let post := drop k prev in
  let blk := BlockSeg uid_block blockId values None None in
  let mid := match last pre with
             | Some (TextSeg _ _) => [blk]
             | _ => [TextSeg uid_before []; blk]
             end in
  let tail := match post with
              | [] => [TextSeg uid_after []]
              | TextSeg _ _ :: _ => post
              | b :: post' => b :: TextSeg uid_after [] :: post'
              end in
  pre ++ mid ++ tail.

(** The two operations of the segmented composer that add and remove
    segments, with the identifiers [uid()] hands them. *)
Inductive SegOp :=
| OpInsert (targetIndex : Z) (blockId : jstring) (values : gmap jstring jvalue)
           (uid_block uid_before uid_after : jstring)
| OpRemove (id fresh : jstring).

Definition apply_op (op : SegOp) (l : list PromptSeg) : option (list PromptSeg) :=
  match op with
  | OpInsert targetIndex blockId values u1 u2 u3 =>
      insertBlock targetIndex blockId values u1 u2 u3 l
  | OpRemove id fresh => Some (removeSeg id fresh l)
  end.

Fixpoint apply_ops (ops : list SegOp) (l : list PromptSeg) : option (list PromptSeg) :=
  match ops with
  | [] => Some l
  | op :: ops' => l' ← apply_op op l; apply_ops ops' l'
  end.

(** ** Further operations of the segmented composer *)

(** The state update of [updateTextSeg(id, value)].  (On a block
    segment with this identifier the source adds a property [value],
    which nothing reads from a block segment; the model leaves the
    segment as it is.) *)
Definition updateTextSeg (id value : jstring) (prev : list PromptSeg)
  : list PromptSeg :=
  map (fun s => if str_eqb (seg_id s) id
                then match s with
                     | TextSeg i _ => TextSeg i value
                     | BlockSeg _ _ _ _ _ => s
                     end
                else s) prev.

Module EditingBlock.
Record t := mk {
  segmentId : jstring;
  blockId : jstring;
  values : gmap jstring jvalue;
  contextUrl : option jstring;
  contextData : option jstring
}.
End EditingBlock.

(** The state the Edit button of a block segment opens the editor
    with; [None] for a text segment, which has no such button. *)
Definition edit_segment (s : PromptSeg) : option EditingBlock.t :=
  match s with
  | TextSeg _ _ => None
  | BlockSeg id blockId values contextUrl contextData =>
      Some (EditingBlock.mk id blockId values contextUrl contextData)
  end.

(** The state update of [saveEditingBlock()].  (On a text segment with
    the edited identifier the source adds the properties of a block,
    which nothing reads from a text segment; the model leaves the
    segment as it is.) *)
Definition saveEditingBlock (editingBlock : option EditingBlock.t)
    (prev : list PromptSeg) : list PromptSeg :=
  match editingBlock with
  | None => prev
  | Some eb =>
      map (fun s => if str_eqb (seg_id s) (EditingBlock.segmentId eb)
                    then match s with
                         | TextSeg _ _ => s
                         | BlockSeg id blockId _ _ _ =>
                             BlockSeg id blockId (EditingBlock.values eb)
                                      (EditingBlock.contextUrl eb)
                                      (EditingBlock.contextData eb)
                         end
                    else s) prev
  end.

(** The text of the segments, block segments left out: what the text
    segments hold, in order. *)
Definition seg_text (s : PromptSeg) : jstring :=
  match s with
  | TextSeg _ value => value
  | BlockSeg _ _ _ _ _ => []
  end.

Definition segments_text (l : list PromptSeg) : jstring := flat_map seg_text l.

(** The block segments of a list, in order. *)
Definition block_segments (l : list PromptSeg) : list PromptSeg :=
  List.filter is_block l.

(** ** Tokens in a text: vocabulary of the properties *)

(** The text of a token with the identifier [id] and the raw
    parameters [params]. *)
Definition token_text (id params : jstring) : jstring :=
  str "[[Block:" ++ id ++ params ++ str "]]".

(** A match reported [d] positions further. *)
Definition shift_match (d : Z) (m : RegExpMatch.t) : RegExpMatch.t :=
  RegExpMatch.mk (RegExpMatch.index m + d) (RegExpMatch.m0 m)
                 (RegExpMatch.m1 m) (RegExpMatch.m2 m).

Definition shift_info (d : Z) (t : TokenInfo.t) : TokenInfo.t :=
  TokenInfo.mk (TokenInfo.start t + d) (TokenInfo.end_ t + d)
               (TokenInfo.blockId t) (TokenInfo.params t).

(** The position after a match. *)
Definition match_end (m : RegExpMatch.t) : Z :=
  RegExpMatch.index m + len (RegExpMatch.m0 m).

(** [pos] lies in the match, its two ends included. *)
Definition match_covers (pos : Z) (m : RegExpMatch.t) : bool :=
  (RegExpMatch.index m <=? pos) && (pos <=? match_end m).

(** The groups that are read back as they are from the text of a
    token: a non-empty identifier of word characters and dashes, and raw
    parameters without closing bracket that do not start with such a
    character. *)
Definition token_groups (id params : jstring) : Prop :=
  id <> []
  /\ Forall (fun c => is_id_char c = true) id
  /\ Forall (fun c => not_rbracket c = true) params
  /\ match params with c :: _ => is_id_char c = false | [] => True end.

(** [openTokenEditorFromEl]: the editor state opened for the token with
    the index [i], when the text has such a token and its block is in
    the library. *)
Definition openTokenEditor (blocks : list Block.t) (prompt : jstring) (i : Z)
  : option EditingToken.t :=
  info ← findTokenByIndex prompt i;
  _ ← find_block blocks (TokenInfo.blockId info);
  Some (EditingToken.mk (TokenInfo.start info) (TokenInfo.end_ info)
                        (TokenInfo.blockId info) (TokenInfo.params info)).


(** ** The animation fallback ([window.motion]) *)

(** The value of a keyframe property: a scalar or an array of values. *)
#[local] Unset Elimination Schemes.
Inductive kvalue :=
| KScalar (v : jvalue)
| KArray (l : list kvalue).
#[local] Set Elimination Schemes.

Definition kundefined : kvalue := KScalar JUndefined.

(** [v !== undefined] *)
Definition is_defined (v : kvalue) : bool :=
  match v with
  | KScalar JUndefined => false
  | _ => true
  end.

(** [a[i]] on an array: [undefined] outside of it. *)
Definition array_get (a : list kvalue) (i : Z) : kvalue :=
  if i <? 0 then kundefined else default kundefined (a !! Z.to_nat i).

(** [obj[key]] on a frame: [undefined] when the property is absent. *)
Definition get_prop (obj : gmap jstring kvalue) (key : jstring) : kvalue :=
  default kundefined (obj !! key).


(** [Array.isArray(v) ? v[v.length - 1] : v] *)
Definition last_or_self (v : kvalue) : kvalue :=
  match v with
  | KArray a => array_get a (len a - 1)
  | _ => v
  end.




Section motion.
(** The text of [Number(v)] in a template literal. *)
Variable number_text : kvalue -> jstring.

(** [mapTransformProps(frame)] *)
Definition mapTransformProps (frame : gmap jstring kvalue) : gmap jstring kvalue :=
  let out := frame in
  let transforms : list jstring := [] in
  let '(transforms, out) :=
    if is_defined (get_prop out (str "rotate")) then
      let val := last_or_self (get_prop out (str "rotate")) in
      (transforms ++ [str "rotate(" ++ number_text val ++ str "deg)"],
       delete (str "rotate") out)
    else (transforms, out) in
  let '(transforms, out) :=
    if is_defined (get_prop out (str "scale")) then
      let val := last_or_self (get_prop out (str "scale")) in
      (transforms ++ [str "scale(" ++ number_text val ++ str ")"],
       delete (str "scale") out)
    else (transforms, out) in
  if 0 <? len transforms
  then <[ str "transform" := KScalar (JStr (join (str " ") transforms)) ]> out
  else out.


End motion.

(* ===================================================================== *)
(** * Part II: properties                                                 *)
(* ===================================================================== *)

(** ** Arrays *)

Lemma findIndex_from_none {A} (p : A -> bool) l i :
  (forall x, x ∈ l -> p x = false) -> findIndex_from p l i = -1.
Proof.
  revert i. induction l as [|x t IH]; intros i H; simpl; [reflexivity|].
  rewrite (H x) by constructor. apply IH. intros y Hy. apply H. by constructor.
Qed.

Lemma findIndex_from_first {A} (p : A -> bool) l (j : nat) x i :
  l !! j = Some x -> p x = true ->
  (forall k y, (k < j)%nat -> l !! k = Some y -> p y = false) ->
  findIndex_from p l i = i + Z.of_nat j.
Proof.
  revert j i. induction l as [|a t IH]; intros j i Hj Hp Hfirst; [done|].
  destruct j as [|j]; simpl in *.
  - inversion Hj; subst. rewrite Hp. lia.
  - rewrite (Hfirst 0%nat a); [|lia|done].
    rewrite (IH j (i + 1)); [lia|done..|].
    intros k y Hk Hy. apply (Hfirst (S k) y); [lia|done].
Qed.

Lemma splice_start_in_range n k : 0 <= k <= n -> splice_start n k = k.
Proof. unfold splice_start. intros H. destruct (Z.ltb_spec k 0); lia. Qed.

Lemma splice_delete1_at {A} (l : list A) (j : nat) x :
  l !! j = Some x ->
  splice_delete1 l (Z.of_nat j) = ([x], delete j l).
Proof.
  intros Hj. unfold splice_delete1.
  assert (j < length l)%nat by (eapply lookup_lt_Some; eauto).
  rewrite splice_start_in_range by (unfold len; lia).
  rewrite Nat2Z.id. f_equal.
  - rewrite (drop_S l x j Hj). reflexivity.
  - symmetry. apply delete_take_drop.
Qed.

(** ** Moving a segment *)

(** C10: moving a segment whose identifier matches no segment of the
    list returns the list unchanged. *)
Theorem moveSegment_unknown_id (segId : jstring) (index : Z) (prev : list PromptSeg) :
  (forall s, s ∈ prev -> seg_id s <> segId) ->
  moveSegment segId index prev = prev.
Proof.
  intros H. unfold moveSegment, findIndex.
  rewrite findIndex_from_none; [reflexivity|].
  intros s Hs. unfold str_eqb. apply bool_decide_eq_false. by apply H.
Qed.

Lemma moveSegment_unknown_id_witness :
  moveSegment (str "id_9") 1
    [TextSeg (str "id_0") (str "a"); BlockSeg (str "id_1") (str "b") ∅ None None]
  = [TextSeg (str "id_0") (str "a"); BlockSeg (str "id_1") (str "b") ∅ None None].
Proof.
  apply moveSegment_unknown_id.
  intros s Hs. repeat (apply elem_of_cons in Hs as [->|Hs]); try by vm_compute.
  by apply elem_of_nil in Hs.
Defined.

(** The segment the search finds, taken out and spliced back. *)
Lemma moveSegment_found (segId : jstring) (index : Z) (prev : list PromptSeg)
    (from : nat) (seg : PromptSeg) :
  prev !! from = Some seg ->
  seg_id seg = segId ->
  (forall k s, (k < from)%nat -> prev !! k = Some s -> seg_id s <> segId) ->
  moveSegment segId index prev
  = splice_insert (delete from prev)
      (if Z.of_nat from <? index then index - 1 else index) seg.
Proof.
  intros Hfrom Hid Hfirst. unfold moveSegment, findIndex.
  rewrite (findIndex_from_first _ prev from seg 0 Hfrom).
  - rewrite Z.add_0_l.
    destruct (Z.eqb_spec (Z.of_nat from) (-1)); [lia|].
    rewrite (splice_delete1_at prev from seg Hfrom).
    destruct (Z.ltb_spec (Z.of_nat from) index); [|reflexivity].
    rewrite Z.max_r by lia. reflexivity.
  - unfold str_eqb. by apply bool_decide_eq_true.
  - intros k s Hk Hs. unfold str_eqb. apply bool_decide_eq_false. eauto.
Qed.

(** C6: a segment found at position [from] is removed and spliced back
    at [index - 1] when [from < index], and at [index] otherwise.  When
    that position lies in the list, the segment ends up there and the
    other segments keep their order. *)
Theorem moveSegment_reorder (segId : jstring) (index : Z) (prev : list PromptSeg)
    (from : nat) (seg : PromptSeg) :
  prev !! from = Some seg ->
  seg_id seg = segId ->
  (forall k s, (k < from)%nat -> prev !! k = Some s -> seg_id s <> segId) ->
  let to := if Z.of_nat from <? index then index - 1 else index in
  moveSegment segId index prev = splice_insert (delete from prev) to seg
  /\ (0 <= to <= len prev - 1 ->
      moveSegment segId index prev !! Z.to_nat to = Some seg
      /\ delete (Z.to_nat to) (moveSegment segId index prev) = delete from prev).
Proof.
  intros Hfrom Hid Hfirst to.
  pose proof (moveSegment_found segId index prev from seg Hfrom Hid Hfirst) as Hmove.
  fold to in Hmove.
  split; [exact Hmove|].
  intros Hto. rewrite Hmove. unfold splice_insert.
  assert (Hlen : len (delete from prev) = len prev - 1).
  { unfold len. rewrite length_delete by eauto. 
    assert (from < length prev)%nat by (eapply lookup_lt_Some; eauto). lia. }
  rewrite splice_start_in_range by lia.
  assert (Hk : length (take (Z.to_nat to) (delete from prev)) = Z.to_nat to).
  { rewrite length_take. unfold len in *. lia. }
  split.
  - rewrite lookup_app_r by lia. rewrite Hk, Nat.sub_diag. reflexivity.
  - rewrite <- Hk at 1. rewrite delete_middle. apply take_drop.
Qed.

Lemma moveSegment_reorder_witness :
  let e i := BlockSeg (str "id_" ++ [48 + i]) (str "b") ∅ None None in
  moveSegment (str "id_3") 1 [e 0; e 1; e 2; e 3; e 4] = [e 0; e 3; e 1; e 2; e 4].
Proof.
  intros e.
  destruct (moveSegment_reorder (str "id_3") 1 [e 0; e 1; e 2; e 3; e 4] 3 (e 3))
    as [H _].
  - reflexivity.
  - reflexivity.
  - intros k s Hk Hs.
    destruct k as [|[|[|k]]]; try lia; inversion Hs; subst; by vm_compute.
  - rewrite H. reflexivity.
Defined.

(** The reorder example: in a list of five segments the one at position
    3, moved to target 1, lands immediately before the segment that was
    at position 1. *)
Lemma moveSegment_example (e0 e1 e2 e3 e4 : PromptSeg) :
  seg_id e0 <> seg_id e3 -> seg_id e1 <> seg_id e3 -> seg_id e2 <> seg_id e3 ->
  moveSegment (seg_id e3) 1 [e0; e1; e2; e3; e4] = [e0; e3; e1; e2; e4].
Proof.
  intros H0 H1 H2.
  rewrite (moveSegment_found (seg_id e3) 1 [e0; e1; e2; e3; e4] 3 e3);
    try reflexivity.
  intros k s Hk Hs.
  destruct k as [|[|[|k]]]; try lia; inversion Hs; subst; done.
Qed.

(** ** Inserting a block *)

Lemma len_app {A} (l1 l2 : list A) : len (l1 ++ l2) = len l1 + len l2.
Proof. unfold len. rewrite length_app. lia. Qed.

Lemma len_nonneg {A} (l : list A) : 0 <= len l.
Proof. unfold len. lia. Qed.

Lemma splice_insert_app {A} (l1 l2 : list A) x :
  splice_insert (l1 ++ l2) (len l1) x = l1 ++ x :: l2.
Proof.
  unfold splice_insert.
  rewrite splice_start_in_range by (rewrite len_app; pose proof (len_nonneg l2);
                                    pose proof (len_nonneg l1); lia).
  unfold len. rewrite Nat2Z.id.
  rewrite take_app_length, drop_app_length. reflexivity.
Qed.

Lemma splice_insert_end {A} (l : list A) k x :
  len l <= k -> splice_insert l k x = l ++ [x].
Proof.
  intros H. unfold splice_insert, splice_start.
  pose proof (len_nonneg l).
  destruct (Z.ltb_spec k 0); [lia|].
  rewrite Z.min_r by lia. unfold len. rewrite Nat2Z.id.
  rewrite firstn_all, drop_all. reflexivity.
Qed.

Lemma js_index_app_r {A} (l1 l2 : list A) i :
  0 <= i -> js_index (l1 ++ l2) (len l1 + i) = js_index l2 i.
Proof.
  intros Hi. unfold js_index. pose proof (len_nonneg l1).
  destruct (Z.ltb_spec (len l1 + i) 0); [lia|].
  destruct (Z.ltb_spec i 0); [lia|].
  rewrite lookup_app_r by (unfold len; lia).
  f_equal. unfold len. lia.
Qed.

Lemma js_index_snoc {A} (l1 l2 : list A) x :
  js_index ((l1 ++ [x]) ++ l2) (len (l1 ++ [x]) - 1) = Some x.
Proof.
  rewrite <- app_assoc. rewrite len_app. 
  replace (len l1 + len [x] - 1) with (len l1 + 0) by (unfold len; simpl; lia).
  rewrite js_index_app_r by lia. reflexivity.
Qed.

Lemma findIndex_from_app {A} (p : A -> bool) l1 x l2 i :
  (forall y, y ∈ l1 -> p y = false) -> p x = true ->
  findIndex_from p (l1 ++ x :: l2) i = i + len l1.
Proof.
  intros H1 Hx.
  rewrite (findIndex_from_first p (l1 ++ x :: l2) (length l1) x i); [reflexivity| |done|].
  - by rewrite list_lookup_middle.
  - intros k y Hk Hy. rewrite lookup_app_l in Hy by done.
    apply H1. eapply list_elem_of_lookup_2; eauto.
Qed.

(** The block insertion at a position given as the length of the part
    [pre] of the list before it. *)
Lemma insertBlock_at (targetIndex : Z) blockId values u1 u2 u3 (pre post : list PromptSeg) :
  Z.max 0 (Z.min targetIndex (len (pre ++ post))) = len pre ->
  (forall s, s ∈ pre -> is_block s = true -> seg_id s <> u1) ->
  insertBlock targetIndex blockId values u1 u2 u3 (pre ++ post)
  = Some (insertBlock_result (length pre) blockId values u1 u2 u3 (pre ++ post)).
Proof.
  intros Hk Hfresh. unfold insertBlock, insertBlock_result. rewrite Hk.
  rewrite take_app_length, drop_app_length.
  rewrite splice_insert_app.
  set (blk := BlockSeg u1 blockId values None None).
  assert (Hfind : forall mid l2,
             (forall y, y ∈ mid -> is_block y = false) ->
             findIndex (fun s => is_block s && str_eqb (seg_id s) u1)
                       ((pre ++ mid) ++ blk :: l2) = len (pre ++ mid)).
  { intros mid l2 Hmid. unfold findIndex. rewrite findIndex_from_app; [lia| |].
    - intros y Hy. apply elem_of_app in Hy as [Hy|Hy].
      + destruct (is_block y) eqn:Hb; [|done]. simpl.
        unfold str_eqb. apply bool_decide_eq_false. by apply Hfresh.
      + by rewrite (Hmid y Hy).
    - simpl. unfold str_eqb. by apply bool_decide_eq_true. }
  assert (Hafter : forall l1,
     (after ← (if len (l1 ++ blk :: post) <=? len l1 + 1 then Some true
               else s ← js_index (l1 ++ blk :: post) (len l1 + 1); Some (negb (is_text s)));
      Some (if after : bool
            then splice_insert (l1 ++ blk :: post) (len l1 + 1 + 1) (TextSeg u3 [])
            else l1 ++ blk :: post))
     = Some (l1 ++ [blk] ++ match post with
                            | [] => [TextSeg u3 []]
                            | TextSeg _ _ :: _ => post
                            | b :: post' => b :: TextSeg u3 [] :: post'
                            end)).
  { intros l1. rewrite len_app.
    destruct post as [|b post'].
    - replace (len [blk]) with 1 by reflexivity.
      rewrite Z.leb_refl. simpl.
      rewrite splice_insert_end by (rewrite len_app; unfold len; simpl; lia).
      by rewrite <- app_assoc.
    - destruct (Z.leb_spec (len l1 + len (blk :: b :: post')) (len l1 + 1)) as [Hle|_].
      { unfold len in Hle. simpl in Hle. lia. }
      replace (l1 ++ blk :: b :: post') with ((l1 ++ [blk]) ++ b :: post')
        by (by rewrite <- app_assoc).
      replace (len l1 + 1) with (len (l1 ++ [blk]) + 0)
        by (rewrite len_app; unfold len; simpl; lia).
      rewrite js_index_app_r by lia. simpl.
      destruct b as [i v|i bid vs cu cd]; simpl.
      + by rewrite <- !app_assoc.
      + replace (len (l1 ++ [blk]) + 0 + 1)
          with (len ((l1 ++ [blk]) ++ [BlockSeg i bid vs cu cd]))
          by (rewrite !len_app; unfold len; simpl; lia).
        replace ((l1 ++ [blk]) ++ BlockSeg i bid vs cu cd :: post')
          with (((l1 ++ [blk]) ++ [BlockSeg i bid vs cu cd]) ++ post')
          by (by rewrite <- !app_assoc).
        rewrite splice_insert_app. by rewrite <- !app_assoc. }
  assert (Hmid0 : forall l1 l2, js_index (l1 ++ blk :: l2) (len l1) = Some blk).
  { intros l1 l2. replace (len l1) with (len l1 + 0) by lia.
    by rewrite js_index_app_r by lia. }
  assert (Hmid1 : forall l1 y l2, js_index (l1 ++ y :: blk :: l2) (len l1 + 1) = Some blk).
  { intros l1 y l2. by rewrite js_index_app_r by lia. }
  assert (Hmid2 : forall l1 (y : PromptSeg) l2, js_index (l1 ++ y :: l2) (len l1) = Some y).
  { intros l1 y l2. replace (len l1) with (len l1 + 0) by lia.
    by rewrite js_index_app_r by lia. }
  destruct (last pre) as [x|] eqn:Hlast.
  - apply last_Some in Hlast as [pre' ->].
    destruct (Z.eqb_spec (len (pre' ++ [x])) 0) as [H0|_].
    { rewrite len_app in H0. pose proof (len_nonneg pre'). unfold len in *. simpl in *. lia. }
    rewrite js_index_snoc. simpl.
    generalize dependent (pre' ++ [x]). intros L _ Hfresh Hfind.
    destruct x as [i v|i bid vs cu cd]; simpl.
    + (* the segment before is text *)
      rewrite Hmid0. simpl.
      specialize (Hfind [] post). rewrite app_nil_r in Hfind.
      rewrite Hfind by (intros y Hy; by apply elem_of_nil in Hy).
      apply Hafter.
    + (* the segment before is a block *)
      rewrite splice_insert_app.
      rewrite Hmid2. simpl. rewrite Hmid1. simpl.
      specialize (Hfind [TextSeg u2 []] post).
      replace (L ++ TextSeg u2 [] :: blk :: post)
        with ((L ++ [TextSeg u2 []]) ++ blk :: post)
        by (by rewrite <- !app_assoc).
      rewrite Hfind by (intros y Hy; apply list_elem_of_singleton in Hy; by subst).
      rewrite Hafter. by rewrite <- !app_assoc.
  - apply last_None in Hlast. subst pre. simpl.
    specialize (Hfind [TextSeg u2 []] post). simpl in Hfind.
    change (splice_insert (blk :: post) (len []) (TextSeg u2 []))
      with (TextSeg u2 [] :: blk :: post).
    change (js_index (TextSeg u2 [] :: blk :: post) (len [])) with (Some (TextSeg u2 [])).
    simpl mbind at 1. simpl is_block. cbv iota.
    change (js_index (TextSeg u2 [] :: blk :: post) (len [] + 1)) with (Some blk).
    simpl.
    rewrite Hfind by (intros y Hy; apply list_elem_of_singleton in Hy; by subst).
    apply (Hafter [TextSeg u2 []]).
Qed.

(** With a fresh identifier for the new block, the block insertion
    never fails and builds [insertBlock_result] at the clamped target. *)
Lemma insertBlock_spec (targetIndex : Z) blockId values u1 u2 u3 (prev : list PromptSeg) :
  (forall s, s ∈ prev -> is_block s = true -> seg_id s <> u1) ->
  insertBlock targetIndex blockId values u1 u2 u3 prev
  = Some (insertBlock_result (Z.to_nat (Z.max 0 (Z.min targetIndex (len prev))))
            blockId values u1 u2 u3 prev).
Proof.
  intros Hfresh.
  set (k := Z.to_nat (Z.max 0 (Z.min targetIndex (len prev)))).
  assert (Hk : (k <= length prev)%nat) by (unfold k, len; lia).
  rewrite <- (take_drop k prev) at 1.
  rewrite insertBlock_at.
  - rewrite length_take, Nat.min_l by done. by rewrite take_drop.
  - rewrite take_drop. unfold len. rewrite length_take, Nat.min_l by done.
    unfold k, len. lia.
  - intros s Hs. apply Hfresh. rewrite <- (take_drop k prev).
    apply elem_of_app. by left.
Qed.

(** A text segment always precedes the block the insertion adds. *)
Lemma insertBlock_text_before (targetIndex : Z) blockId values u1 u2 u3
    (prev : list PromptSeg) :
  (forall s, s ∈ prev -> is_block s = true -> seg_id s <> u1) ->
  exists l1 t l2,
    insertBlock targetIndex blockId values u1 u2 u3 prev
    = Some (l1 ++ t :: BlockSeg u1 blockId values None None :: l2)
    /\ is_text t = true.
Proof.
  intros Hfresh. rewrite insertBlock_spec by done. unfold insertBlock_result.
  set (pre := take _ prev). set (post := drop _ prev).
  destruct (last pre) as [x|] eqn:Hlast.
  - apply last_Some in Hlast as [pre' ->].
    destruct x as [i v|i bid vs cu cd].
    + exists pre', (TextSeg i v). eexists. split; [|done].
      rewrite <- app_assoc. reflexivity.
    + exists (pre' ++ [BlockSeg i bid vs cu cd]), (TextSeg u2 []). eexists.
      split; [|done]. reflexivity.
  - exists pre, (TextSeg u2 []). eexists. split; [|done]. reflexivity.
Qed.

(** The insertion example of the specification: a block dropped at
    index 0 on [[Text "hello"]]. *)
Example insert_example :
  insertBlock 0 (str "blk_b") ∅ (str "id_1") (str "id_2") (str "id_3")
     [TextSeg (str "id_0") (str "hello")]
  = Some [TextSeg (str "id_2") []; BlockSeg (str "id_1") (str "blk_b") ∅ None None;
          TextSeg (str "id_0") (str "hello")].
Proof. vm_compute. reflexivity. Qed.

(** C3: a block dropped between a text segment and a block segment is
    not followed by a text segment: the empty text meant to follow it is
    spliced one position too far, after the next block. *)
Theorem handleDrop_block_before_block :
  let blk_b := Block.mk (BlockDef.mk (str "blk_b") (str "B") [] None)
                        (Project.mk [] (str "MyComp") 1920 1080 30 180) in
  let old := BlockSeg (str "id_1") (str "blk_a") ∅ None None in
  let new := BlockSeg (str "id_2") (str "blk_b") ∅ None None in
  let res := [TextSeg (str "id_0") (str "hello"); new; old; TextSeg (str "id_4") []] in
  handleDrop [blk_b] (Some 1) [] (str "blk_b") 1 (str "id_2") (str "id_3") (str "id_4")
    [TextSeg (str "id_0") (str "hello"); old] = Some res
  /\ res !! 1%nat = Some new
  /\ (is_text <$> res !! 2%nat) = Some false.
Proof. vm_compute. repeat split; reflexivity. Qed.

(** ** The invariant of the segment list *)

Lemma no_adjacent_text_snoc (l : list PromptSeg) x :
  no_adjacent_text (l ++ [x])
  = no_adjacent_text l
    && match last l with
       | Some y => negb (is_text y && is_text x)
       | None => true
       end.
Proof.
  induction l as [|a t IH]; [reflexivity|].
  destruct t as [|b t].
  - simpl. by rewrite andb_true_r.
  - change (no_adjacent_text ((a :: b :: t) ++ [x]))
      with (negb (is_text a && is_text b) && no_adjacent_text ((b :: t) ++ [x])).
    rewrite IH. change (last (a :: b :: t)) with (last (b :: t)).
    change (no_adjacent_text (a :: b :: t))
      with (negb (is_text a && is_text b) && no_adjacent_text (b :: t)).
    by rewrite andb_assoc.
Qed.

Lemma merge_step_no_adjacent (merged : list PromptSeg) s :
  no_adjacent_text merged = true -> no_adjacent_text (merge_step merged s) = true.
Proof.
  intros H. unfold merge_step.
  destruct (last merged) as [y|] eqn:Hlast.
  - pose proof Hlast as Hl. apply last_Some in Hl as [l' ->].
    rewrite no_adjacent_text_snoc in H. apply andb_true_iff in H as [H1 H2].
    destruct y as [i v|i bid vs cu cd], s as [i' v'|i' bid' vs' cu' cd'];
      try (rewrite no_adjacent_text_snoc, Hlast, no_adjacent_text_snoc, H1; simpl;
           by rewrite ?andb_true_r, ?andb_false_r in * ).
    rewrite length_app. simpl. rewrite Nat.add_1_r. simpl.
    replace (length l') with (length l' + 0)%nat by lia.
    rewrite insert_app_r. simpl.
    rewrite no_adjacent_text_snoc, H1. exact H2.
  - apply last_None in Hlast. subst. by destruct s.
Qed.

Lemma merge_step_nonempty (merged : list PromptSeg) s : merge_step merged s <> [].
Proof.
  unfold merge_step. intros H.
  assert (Hl : length (merge_step merged s) = 0%nat) by (unfold merge_step; by rewrite H).
  unfold merge_step in Hl.
  destruct (last merged) as [[i v|i bid vs cu cd]|] eqn:Hlast, s;
    rewrite ?length_insert, ?length_app in Hl; simpl in Hl; try lia.
  apply last_Some in Hlast as [l' ->]. rewrite length_app in Hl. simpl in Hl. lia.
Qed.

Lemma merge_loop_no_adjacent (next merged : list PromptSeg) :
  no_adjacent_text merged = true ->
  no_adjacent_text (fold_left merge_step next merged) = true.
Proof.
  revert merged. induction next as [|s t IH]; intros merged H; [done|].
  simpl. apply IH. by apply merge_step_no_adjacent.
Qed.

(** Whatever the list was, after [removeSeg] it satisfies the invariant. *)
Lemma removeSeg_inv (id fresh : jstring) (prev : list PromptSeg) :
  seg_inv (removeSeg id fresh prev).
Proof.
  unfold removeSeg.
  set (merged := fold_left merge_step _ []).
  assert (Hm : no_adjacent_text merged = true) by (by apply merge_loop_no_adjacent).
  destruct (Z.eqb_spec (len merged) 0) as [H0|Hn].
  - assert (merged = []) as -> by (apply length_zero_iff_nil; unfold len in H0; lia).
    split; [unfold len; simpl; lia|reflexivity].
  - split; [|done]. pose proof (len_nonneg merged). lia.
Qed.

(** The block insertion never shortens the list. *)
Lemma insertBlock_nonempty (targetIndex : Z) blockId values u1 u2 u3
    (prev l : list PromptSeg) :
  (forall s, s ∈ prev -> is_block s = true -> seg_id s <> u1) ->
  insertBlock targetIndex blockId values u1 u2 u3 prev = Some l -> 1 <= len l.
Proof.
  intros Hfresh. destruct (insertBlock_text_before targetIndex blockId values u1 u2 u3 prev Hfresh)
    as (l1 & t & l2 & -> & _).
  intros [= <-]. rewrite len_app. pose proof (len_nonneg l1). unfold len. simpl. lia.
Qed.

(** C2: two blocks dropped one after the other on the zone after the
    first text segment leave two adjacent text segments: the second
    insertion puts its empty text after the block that follows the new
    one, next to the text that was already there. *)
Theorem insertBlock_breaks_alternation :
  let start := [TextSeg (str "id_0") (str "hello")] in
  let ops := [OpInsert 1 (str "blk_a") ∅ (str "id_1") (str "id_2") (str "id_3");
              OpInsert 1 (str "blk_b") ∅ (str "id_4") (str "id_5") (str "id_6")] in
  seg_inv start
  /\ apply_ops ops start
     = Some [TextSeg (str "id_0") (str "hello");
             BlockSeg (str "id_4") (str "blk_b") ∅ None None;
             BlockSeg (str "id_1") (str "blk_a") ∅ None None;
             TextSeg (str "id_6") [];
             TextSeg (str "id_3") []]
  /\ forall l, apply_ops ops start = Some l -> ~ seg_inv l.
Proof.
  intros start ops.
  assert (H : apply_ops ops start
     = Some [TextSeg (str "id_0") (str "hello");
             BlockSeg (str "id_4") (str "blk_b") ∅ None None;
             BlockSeg (str "id_1") (str "blk_a") ∅ None None;
             TextSeg (str "id_6") [];
             TextSeg (str "id_3") []]) by (vm_compute; reflexivity).
  split; [split; [unfold len; simpl; lia|reflexivity]|].
  split; [exact H|].
  intros l Hl. rewrite H in Hl. injection Hl as <-.
  intros [_ Hadj]. vm_compute in Hadj. discriminate.
Qed.

Example json_roundtrip_examples `{JT : JsonText} :
  JSON_parse (to_String (JSON_stringify (JStr (str "a\b c")))) = Some (JStr (str "a\b c"))
  /\ JSON_parse (to_String (JSON_stringify (JNum (-120)))) = Some (JNum (-120))
  /\ JSON_parse (to_String (JSON_stringify (JNum 0))) = Some (JNum 0)
  /\ JSON_stringify (JStr [10; 0xD800; 34]) = Some ([34] ++ str "\n\ud800\" ++ [34; 34])
  /\ JSON_parse (str "01") = None
  /\ JSON_parse (str " true ") = Some (JBool true)
  /\ JSON_parse (str "1.5") = Some (JOther (str "1.5"))
  /\ JSON_parse (str "Hello") = None
  /\ split_spaces (str " a  b ") = [[]; str "a"; str "b"; []]
  /\ split_spaces [] = [[]]
  /\ trim (str "  a b  ") = str "a b".
Proof. vm_compute. repeat split; reflexivity. Qed.

Example token_examples :
  let text := str "Intro [[Block:blk_a color=" ++ [34] ++ str "#fff" ++ [34]
              ++ str " n=3 t=Hello World]] outro" in
  (TokenInfo.start <$> findTokenByIndex text 0) = Some 6
  /\ (TokenInfo.blockId <$> findTokenByIndex text 0) = Some (str "blk_a")
  /\ (TokenInfo.params <$> findTokenByIndex text 0)
     = Some (<[str "color" := JStr (str "#fff")]>
             (<[str "n" := JNum 3]> (<[str "t" := JStr (str "Hello")]> ∅)))
  /\ findTokenByIndex text 1 = None
  /\ replace (str "set the animation speed to {value}") (str "{value}") (str "2")
     = str "set the animation speed to 2".
Proof. vm_compute. repeat split; reflexivity. Qed.

(** ** Context flattening *)

Lemma push_loop {A B} (step : list B -> A -> list B) (f : A -> option B) :
  (forall used x, step used x = used ++ match f x with Some u => [u] | None => [] end) ->
  forall l used, fold_left step l used = used ++ omap f l.
Proof.
  intros Hstep l. induction l as [|x t IH]; intros used; simpl.
  - by rewrite app_nil_r.
  - rewrite IH, Hstep. destruct (f x); simpl; by rewrite <- ?app_assoc, ?app_nil_r.
Qed.

Lemma find_block_id (blocks : list Block.t) id blk :
  find_block blocks id = Some blk -> BlockDef.id (Block.def blk) = id.
Proof.
  unfold find_block. intros H. apply find_some in H as [_ H].
  unfold str_eqb in H. by apply bool_decide_eq_true in H.
Qed.


(** ** Parameter decoding *)



Lemma set_prop_own (obj : Obj.t) (k : jstring) (v : jvalue) :
  k <> str "__proto__" -> Obj.own (set_prop obj k v) = <[ k := v ]> (Obj.own obj).
Proof.
  intros H. unfold set_prop. by rewrite bool_decide_eq_false_2.
Qed.

Lemma set_prop_source (obj : Obj.t) (k k' : jstring) (v v' : jvalue) :
  Obj.own (set_prop obj k v) !! k' = Some v' ->
  (k' = k /\ v' = v) \/ Obj.own obj !! k' = Some v'.
Proof.
  unfold set_prop. destruct (_ && _).
  - destruct (proto_value v); cbn [Obj.own]; auto.
  - cbn [Obj.own]. intros H. apply lookup_insert_Some in H as [[-> ->]|[_ H]]; auto.
Qed.


Lemma assign_param_pieces (params : Obj.t) (kv k : jstring) :
  piece_key kv = Some k -> k <> str "__proto__" ->
  Obj.own (assign_param params kv) = <[ k := piece_value kv ]> (Obj.own params).
Proof.
  unfold assign_param, piece_key, piece_value.
  destruct (0 <? indexOf 61 kv); [|done]. intros [= <-] Hk. by apply set_prop_own.
Qed.

Lemma assign_param_source (params : Obj.t) (kv k : jstring) (v : jvalue) :
  Obj.own (assign_param params kv) !! k = Some v ->
  (piece_key kv = Some k /\ v = piece_value kv) \/ Obj.own params !! k = Some v.
Proof.
  unfold assign_param, piece_key, piece_value.
  destruct (0 <? indexOf 61 kv); [|by right].
  intros H. apply set_prop_source in H as [[-> ->]|H]; [by left|by right].
Qed.


Lemma indexOf_from_app (k v : jstring) i :
  61 ∉ k -> indexOf_from 61 (k ++ 61 :: v) i = i + len k.
Proof.
  revert i. induction k as [|c k IH]; intros i Hk; simpl.
  - unfold len. simpl. lia.
  - apply not_elem_of_cons in Hk as [Hc Hk].
    destruct (Z.eqb_spec c 61); [congruence|].
    rewrite IH by done. unfold len. simpl. lia.
Qed.

Lemma piece_key_value (k v : jstring) :
  k <> [] -> 61 ∉ k ->
  piece_key (k ++ [61] ++ v) = Some k
  /\ piece_value (k ++ [61] ++ v) = default (JStr v) (JSON_parse v).
Proof.
  intros Hne Hk. unfold piece_key, piece_value, indexOf. simpl.
  rewrite indexOf_from_app by done. rewrite Z.add_0_l.
  assert (0 < len k) by (destruct k; [done|unfold len; simpl; lia]).
  destruct (Z.ltb_spec 0 (len k)); [|lia].
  unfold slice, slice_from, len.
  replace (Z.to_nat (Z.of_nat (length k) - 0)) with (length k) by lia.
  replace (Z.to_nat (Z.of_nat (length k) + 1)) with (length (k ++ [61])) 
    by (rewrite length_app; simpl; lia).
  change (Z.to_nat 0) with 0%nat. rewrite drop_0, take_app_length.
  replace (k ++ 61 :: v) with ((k ++ [61]) ++ v) by (by rewrite <- app_assoc).
  rewrite drop_app_length. done.
Qed.


(** ** JSON texts of scalars are read back *)

(** Linear arithmetic with divisions and remainders by constants. *)
Ltac divlia := Z.to_euclidean_division_equations; lia.

Lemma forall_below (P : Z -> bool) (n : nat) :
  forallb P (map Z.of_nat (seq 0 n)) = true ->
  forall d, 0 <= d < Z.of_nat n -> P d = true.
Proof.
  intros H d Hd. rewrite forallb_forall in H. apply H.
  apply in_map_iff. exists (Z.to_nat d). split; [lia|].
  apply in_seq. lia.
Qed.

Lemma hex_val_lower d : 0 <= d < 16 -> hex_val (hex_lower d) = Some d.
Proof.
  intros H.
  apply (forall_below (fun d => bool_decide (hex_val (hex_lower d) = Some d)) 16) in H;
    [by apply bool_decide_eq_true in H|reflexivity].
Qed.

Lemma hex4_unicode_escape c rest :
  0 <= c < 65536 ->
  exists h1 h2 h3 h4,
    unicode_escape c ++ rest = 92 :: 117 :: h1 :: h2 :: h3 :: h4 :: rest
    /\ hex4 h1 h2 h3 h4 = Some c.
Proof.
  intros Hc. do 4 eexists. split; [reflexivity|].
  unfold hex4.
  rewrite !hex_val_lower by divlia.
  simpl. f_equal. divlia.
Qed.

Lemma parse_string_chars_escape c rest :
  0 <= c < 65536 ->
  parse_string_chars (unicode_escape c ++ rest)
  = r ← parse_string_chars rest; Some (c :: r.1, r.2).
Proof.
  intros Hc. destruct (hex4_unicode_escape c rest Hc) as (h1 & h2 & h3 & h4 & -> & Hh).
  simpl. by rewrite Hh.
Qed.

Lemma parse_string_chars_plain c rest :
  32 <= c -> c <> 34 -> c <> 92 ->
  parse_string_chars (c :: rest) = r ← parse_string_chars rest; Some (c :: r.1, r.2).
Proof.
  intros H1 H2 H3. simpl.
  destruct (Z.eqb_spec c 34); [done|]. destruct (Z.eqb_spec c 92); [done|].
  destruct (Z.ltb_spec c 32); [lia|]. done.
Qed.

Lemma parse_string_chars_quote_char c rest :
  0 <= c < 65536 ->
  parse_string_chars (quote_char c ++ rest)
  = r ← parse_string_chars rest; Some (c :: r.1, r.2).
Proof.
  intros Hc. unfold quote_char.
  repeat match goal with
         | |- context [if ?x =? ?y then _ else _] =>
             destruct (Z.eqb_spec x y); [subst; reflexivity|]
         end.
  destruct ((c <? 32) || is_high_surrogate c || is_low_surrogate c) eqn:He.
  - by apply parse_string_chars_escape.
  - apply orb_false_iff in He as [He _]. apply orb_false_iff in He as [He _].
    apply Z.ltb_ge in He. by apply parse_string_chars_plain.
Qed.

Lemma surrogate_plain c : is_high_surrogate c || is_low_surrogate c = true ->
  32 <= c /\ c <> 34 /\ c <> 92.
Proof.
  unfold is_high_surrogate, is_low_surrogate, in_range. lia.
Qed.

Lemma quote_chars_cons c t :
  quote_chars (c :: t)
  = if is_high_surrogate c then
      match t with
      | d :: t' =>
          if is_low_surrogate d then c :: d :: quote_chars t'
          else unicode_escape c ++ quote_chars t
      | [] => unicode_escape c
      end
    else quote_char c ++ quote_chars t.
Proof. reflexivity. Qed.

Lemma parse_string_chars_quote (s rest : jstring) :
  valid_string s ->
  parse_string_chars (quote_chars s ++ 34 :: rest) = Some (s, rest).
Proof.
  remember (length s) as n eqn:Hn. revert s Hn.
  induction n as [n IH] using lt_wf_ind. intros s Hn Hv.
  destruct s as [|c t]; [reflexivity|].
  apply Forall_cons in Hv as [Hc Ht]. simpl in Hn. rewrite quote_chars_cons.
  destruct (is_high_surrogate c) eqn:Hhi.
  - destruct t as [|d t'].
    + rewrite parse_string_chars_escape by done. reflexivity.
    + destruct (is_low_surrogate d) eqn:Hlo.
      * apply Forall_cons in Ht as [Hd Ht']. simpl in Hn.
        destruct (surrogate_plain c) as (? & ? & ?); [by rewrite Hhi|].
        destruct (surrogate_plain d) as (? & ? & ?); [by rewrite Hlo, orb_true_r|].
        rewrite <- !app_comm_cons. rewrite parse_string_chars_plain by done.
        rewrite parse_string_chars_plain by done.
        rewrite (IH (length t') ltac:(lia) t' eq_refl Ht'). reflexivity.
      * rewrite <- app_assoc. rewrite parse_string_chars_escape by done.
        rewrite (IH (length (d :: t')) ltac:(lia) (d :: t') eq_refl Ht). reflexivity.
  - rewrite <- app_assoc. rewrite parse_string_chars_quote_char by done.
    rewrite (IH (length t) ltac:(lia) t eq_refl Ht). reflexivity.
Qed.

Lemma JSON_parse_string (s : jstring) :
  valid_string s -> JSON_parse (quote_string s) = Some (JStr s).
Proof.
  intros Hv. unfold JSON_parse, quote_string. simpl.
  rewrite (parse_string_chars_quote s [] Hv). reflexivity.
Qed.

Lemma read_digits_uint_chars (d : Decimal.uint) (rest : jstring) :
  match rest with c :: _ => is_digit c = false | [] => True end ->
  read_digits (uint_chars d ++ rest) = (d, rest).
Proof.
  intros Hrest. induction d; simpl; try (rewrite IHd; reflexivity).
  destruct rest as [|c r]; [reflexivity|]. simpl. by rewrite Hrest.
Qed.

Lemma uint_chars_head (d : Decimal.uint) :
  d <> Nil -> exists c t, uint_chars d = c :: t /\ is_digit c = true.
Proof. destruct d; [done|..]; intros _; do 2 eexists; split; reflexivity. Qed.

Lemma to_uint_unorm (p : positive) : unorm (Pos.to_uint p) = Pos.to_uint p.
Proof.
  rewrite <- (DecimalPos.Unsigned.to_of (Pos.to_uint p)).
  rewrite DecimalPos.Unsigned.of_to. reflexivity.
Qed.

Lemma JSON_parse_digits (neg : bool) (d : Decimal.uint) :
  d <> Nil -> unorm d = d ->
  is_safe_integer (Z.of_int (if neg then Neg d else Pos d)) = true ->
  JSON_parse ((if neg then [45] else []) ++ uint_chars d)
  = Some (JNum (Z.of_int (if neg then Neg d else Pos d))).
Proof.
  intros Hnil Hnorm Hsafe.
  destruct (uint_chars_head d Hnil) as (c & t & Hd & Hc).
  assert (Hnot : forall x, is_digit x = true ->
             x <> 34 /\ x <> 110 /\ x <> 116 /\ x <> 102 /\ x <> 45 /\ is_json_ws x = false).
  { intros x. unfold is_digit, in_range, is_json_ws. lia. }
  destruct (Hnot c Hc) as (? & ? & ? & ? & ? & Hws).
  unfold JSON_parse.
  destruct neg; simpl app.
  - simpl. unfold parse_number.
    change (45 =? 45) with true. cbv iota.
    rewrite <- (app_nil_r (uint_chars d)), read_digits_uint_chars by done.
    rewrite bool_decide_eq_false_2 by done.
    rewrite bool_decide_eq_true_2 by done.
    cbn [negb]. change (at_end []) with true. cbv iota.
    by rewrite Hsafe.
  - rewrite Hd. simpl. rewrite Hws.
    repeat match goal with
           | |- context [if c =? ?y then _ else _] =>
               destruct (Z.eqb_spec c y); [done|]
           end.
    rewrite Hc. simpl. unfold parse_number.
    destruct (Z.eqb_spec c 45); [done|].
    rewrite <- Hd. rewrite <- (app_nil_r (uint_chars d)), read_digits_uint_chars by done.
    rewrite bool_decide_eq_false_2 by done.
    rewrite bool_decide_eq_true_2 by done.
    cbn [negb]. change (at_end []) with true. cbv iota.
    by rewrite Hsafe.
Qed.

Lemma JSON_parse_number (n : Z) :
  is_safe_integer n = true -> JSON_parse (number_to_string n) = Some (JNum n).
Proof.
  intros Hsafe. unfold number_to_string.
  rewrite <- (DecimalZ.of_to n) at 2. rewrite <- (DecimalZ.of_to n) in Hsafe.
  destruct n as [|p|p]; simpl Z.to_int in *.
  - reflexivity.
  - apply (JSON_parse_digits false);
      [apply DecimalPos.Unsigned.to_uint_nonnil|apply to_uint_unorm|exact Hsafe].
  - apply (JSON_parse_digits true);
      [apply DecimalPos.Unsigned.to_uint_nonnil|apply to_uint_unorm|exact Hsafe].
Qed.

Lemma JSON_roundtrip `{JT : JsonText} (v : jvalue) :
  representable v ->
  exists text, JSON_stringify v = Some text /\ JSON_parse text = Some v.
Proof.
  destruct v as [| |[|]|n|s|t|f]; simpl; intros H; try done;
    eexists; (split; [reflexivity|]); try reflexivity.
  - by apply JSON_parse_number.
  - by apply JSON_parse_string.
Qed.

(** ** The texts [JSON.parse] rejects are those outside the grammar *)

Lemma json_run_after_value (r : jstring) : json_run AfterValue [] r = at_end r.
Proof.
  unfold at_end. induction r as [|c t IH]; [done|].
  cbn [json_run json_step skip_json_ws]. unfold after_value.
  destruct (is_json_ws c); [exact IH|]. by rewrite bool_decide_eq_false_2.
Qed.

Lemma json_run_skip_ws (s : jstring) :
  json_run ExpectValue [] s = json_run ExpectValue [] (skip_json_ws s).
Proof.
  induction s as [|c t IH]; [done|].
  cbn [skip_json_ws]. destruct (is_json_ws c) eqn:E; [|done].
  cbn [json_run json_step]. by rewrite E.
Qed.

Lemma json_run_string (s : jstring) :
  json_run (InString false) [] s
  = match parse_string_chars s with
    | Some r => at_end r.2
    | None => false
    end.
Proof.
  remember (length s) as n eqn:Hn. revert s Hn.
  induction n as [n IH] using lt_wf_ind. intros s Hn.
  destruct s as [|c t]; [done|]. simpl in Hn.
  cbn [json_run json_step parse_string_chars].
  destruct (c =? 34); [apply json_run_after_value|].
  destruct (c =? 92).
  - destruct t as [|e t1]; [done|]. simpl in Hn. cbn [json_run json_step].
    destruct (e =? 117).
    + destruct t1 as [|h1 [|h2 [|h3 [|h4 t2]]]]; cbn [json_run json_step];
        unfold hex4;
        repeat match goal with
               | |- context [hex_val ?h] => destruct (hex_val h); cbn
               end; try done.
      rewrite (IH (length t2) ltac:(simpl in Hn; lia) t2 eq_refl).
      by destruct (parse_string_chars t2).
    + destruct (simple_escape e); cbn; [|done].
      rewrite (IH (length t1) ltac:(lia) t1 eq_refl).
      by destruct (parse_string_chars t1).
  - destruct (c <? 32); [done|].
    rewrite (IH (length t) ltac:(lia) t eq_refl).
    by destruct (parse_string_chars t).
Qed.

Lemma json_run_literal (lit s : jstring) :
  lit <> [] ->
  json_run (InLiteral lit) [] s
  = match after_prefix lit s with
    | Some r => at_end r
    | None => false
    end.
Proof.
  revert s. induction lit as [|x lit IH]; [done|]. intros s _.
  destruct s as [|c t]; [done|].
  cbn [json_run json_step after_prefix]. rewrite (Z.eqb_sym c x).
  destruct (x =? c); [|done].
  destruct lit as [|y lit']; [apply json_run_after_value|by apply IH].
Qed.

Lemma read_digits_nil (s : jstring) (r : jstring) :
  read_digits s = (Nil, r) ->
  r = s /\ match s with c :: _ => is_digit c = false | [] => True end.
Proof.
  destruct s as [|c t]; simpl; [by intros [= <-]|].
  destruct (is_digit c) eqn:E.
  - destruct (read_digits t) as [d r']. unfold digit_cons.
    repeat match goal with
           | |- context [if ?b then _ else _] => destruct b
           end; done.
  - by intros [= <-].
Qed.

Lemma json_run_digits (st : JsonState) (s : jstring) :
  st = InInt ->
  json_run st [] s = json_run st [] (read_digits s).2.
Proof.
  intros ->. induction s as [|c t IH]; [done|].
  cbn [json_run json_step read_digits].
  destruct (is_digit c) eqn:E; [|cbn [snd json_run json_step]; by rewrite E].
  rewrite IH. by destruct (read_digits t).
Qed.

Lemma json_run_number_end (st : JsonState) (r : jstring) :
  st = AfterZero \/ st = InInt ->
  at_end r = true -> json_run st [] r = true.
Proof.
  intros Hst Hr. destruct r as [|c t]; [by destruct Hst as [-> | ->]|].
  unfold at_end in Hr. apply bool_decide_eq_true in Hr. cbn [skip_json_ws] in Hr.
  destruct (is_json_ws c) eqn:Hc; [|done].
  assert (Hnot : is_digit c = false /\ (c =? 46) = false /\ is_e c = false).
  { unfold is_json_ws, is_digit, in_range, is_e in *. lia. }
  destruct Hnot as (Hd & Hdot & He).
  assert (Hrun : json_run AfterValue [] t = true).
  { rewrite json_run_after_value. unfold at_end. by apply bool_decide_eq_true. }
  destruct Hst as [-> | ->]; cbn [json_run json_step]; unfold after_value;
    rewrite ?Hd, ?Hdot, ?He, ?Hc; exact Hrun.
Qed.

(** The grammar on the digits of a number, after the sign. *)
Lemma json_run_integer (st : JsonState) (s1 : jstring) (d : Decimal.uint) (r : jstring) :
  st = ExpectValue \/ st = AfterMinus ->
  match s1 with c :: _ => is_digit c = true \/ st = AfterMinus | [] => st = AfterMinus end ->
  read_digits s1 = (d, r) ->
  (d = Nil -> json_run st [] s1 = false)
  /\ (unorm d <> d -> json_run st [] s1 = false)
  /\ (d <> Nil -> unorm d = d -> at_end r = true -> json_run st [] s1 = true).
Proof.
  intros Hst Hhead Hread.
  destruct s1 as [|c t].
  { injection Hread as <- <-. subst st. done. }
  cbn [read_digits] in Hread. destruct (read_digits t) as [d' r'] eqn:Et.
  assert (Hstep : json_run st [] (c :: t)
                  = if c =? 48 then json_run AfterZero [] t
                    else if in_range 49 57 c then json_run InInt [] t
                    else false).
  { destruct (is_digit c) eqn:Hc.
    - assert (Hnot : is_json_ws c = false /\ (c =? 34) = false /\ (c =? 45) = false).
      { unfold is_json_ws, is_digit, in_range in *. lia. }
      destruct Hnot as (Hws & Hq & Hm).
      destruct Hst as [-> | ->]; cbn [json_run json_step]; unfold start_value;
        rewrite ?Hws, ?Hq, ?Hm;
        (destruct (Z.eqb_spec c 48); [done|]);
        (assert (in_range 49 57 c = true) as ->
           by (unfold is_digit, in_range in *; lia)); done.
    - destruct Hhead as [?| ->]; [congruence|].
      cbn [json_run json_step].
      destruct (c =? 48); [done|]. by destruct (in_range 49 57 c). }
  rewrite Hstep. clear Hstep.
  destruct (is_digit c) eqn:Hc.
  - assert (Hd : d = digit_cons c d' /\ r = r') by (split; congruence).
    destruct Hd as [-> ->]. clear Hread.
    destruct (Z.eqb_spec c 48) as [->|Hc0].
    + change (digit_cons 48 d') with (D0 d').
      split; [done|]. split.
      * intros Hnorm. destruct t as [|c2 t']; [by injection Et as <- <-|].
        cbn [read_digits] in Et. destruct (is_digit c2) eqn:Hc2;
          [|by injection Et as <- <-].
        assert (Hnot : (c2 =? 46) = false /\ is_e c2 = false /\ is_json_ws c2 = false).
        { unfold is_json_ws, is_digit, in_range, is_e in *. lia. }
        destruct Hnot as (Hdot & He & Hws).
        cbn [json_run json_step]. unfold after_value. by rewrite Hdot, He, Hws.
      * intros _ Hnorm Hend.
        assert (d' = Nil) as ->.
        { destruct (decide (d' = Nil)) as [|Hne]; [done|].
          rewrite unorm_D0 in Hnorm. pose proof (nb_digits_unorm d' Hne) as Hle.
          rewrite Hnorm in Hle. simpl in Hle. lia. }
        apply read_digits_nil in Et as [-> _].
        apply json_run_number_end; [by left|done].
    + assert (Hpos : in_range 49 57 c = true)
        by (unfold is_digit, in_range in *; lia).
      rewrite Hpos.
      assert (Hnorm : digit_cons c d' <> Nil /\ unorm (digit_cons c d') = digit_cons c d').
      { unfold digit_cons.
        repeat match goal with
               | |- context [if ?x =? ?y then _ else _] =>
                   destruct (Z.eqb_spec x y); [done|]
               end; done. }
      destruct Hnorm as [Hnil Hnorm].
      split; [done|]. split; [done|].
      intros _ _ Hend. rewrite json_run_digits by done. rewrite Et.
      apply json_run_number_end; [by right|done].
  - injection Hread as <- <-.
    assert ((c =? 48) = false /\ in_range 49 57 c = false) as [-> ->]
      by (unfold is_digit, in_range in *; lia).
    split; [done|]. split; [done|]. intros H. by destruct H.
Qed.

(** [JSON.parse(text)] returns a value exactly when [text] is a JSON
    text. *)
Lemma JSON_parse_valid (text : jstring) :
  is_some (JSON_parse text) = json_valid text.
Proof.
  unfold json_valid. rewrite json_run_skip_ws.
  unfold JSON_parse.
  assert (Hws : forall s, match skip_json_ws s with
                          | c :: _ => is_json_ws c = false
                          | [] => True
                          end).
  { induction s as [|c t IH]; [done|]. cbn [skip_json_ws].
    by destruct (is_json_ws c) eqn:E. }
  specialize (Hws text).
  assert (Hvalid : json_valid text = json_run ExpectValue [] (skip_json_ws text))
    by (unfold json_valid; apply json_run_skip_ws).
  destruct (skip_json_ws text) as [|c t] eqn:Es; [done|].
  destruct (Z.eqb_spec c 34) as [->|Hq].
  { change (json_run ExpectValue [] (34 :: t)) with (json_run (InString false) [] t).
    change (34 =? 34) with true. cbv iota.
    rewrite json_run_string.
    destruct (parse_string_chars t) as [r|]; [|done]. simpl.
    by destruct (at_end r.2). }
  destruct (Z.eqb_spec c 110) as [->|Hn].
  { change (json_run ExpectValue [] (110 :: t)) with (json_run (InLiteral (str "ull")) [] t).
    rewrite json_run_literal by done. unfold parse_literal.
    change (after_prefix (str "null") (110 :: t)) with (after_prefix (str "ull") t).
    destruct (after_prefix (str "ull") t) as [r|]; [|done]. simpl.
    by destruct (at_end r). }
  destruct (Z.eqb_spec c 116) as [->|Ht].
  { change (json_run ExpectValue [] (116 :: t)) with (json_run (InLiteral (str "rue")) [] t).
    rewrite json_run_literal by done. unfold parse_literal.
    change (after_prefix (str "true") (116 :: t)) with (after_prefix (str "rue") t).
    destruct (after_prefix (str "rue") t) as [r|]; [|done]. simpl.
    by destruct (at_end r). }
  destruct (Z.eqb_spec c 102) as [->|Hf].
  { change (json_run ExpectValue [] (102 :: t)) with (json_run (InLiteral (str "alse")) [] t).
    rewrite json_run_literal by done. unfold parse_literal.
    change (after_prefix (str "false") (102 :: t)) with (after_prefix (str "alse") t).
    destruct (after_prefix (str "alse") t) as [r|]; [|done]. simpl.
    by destruct (at_end r). }
  destruct ((c =? 45) || is_digit c) eqn:Hnum.
  { rewrite <- Hvalid. unfold parse_number.
    destruct (Z.eqb_spec c 45) as [->|Hm].
    - destruct (read_digits t) as [d r] eqn:Er.
      destruct (json_run_integer AfterMinus t d r) as (H1 & H2 & H3);
        [by right|by destruct t; [|right]|done|].
      assert (Hv : json_valid text = json_run AfterMinus [] t) by (by rewrite Hvalid).
      destruct (bool_decide_reflect (d = Nil)) as [Hd|Hd]; [by rewrite Hv, H1|].
      destruct (bool_decide_reflect (unorm d = d)) as [Hu|Hu]; cbn [negb];
        [|by rewrite Hv, H2].
      destruct (at_end r) eqn:Hend; [by rewrite Hv, H3|].
      by destruct (json_valid text).
    - simpl in Hnum.
      destruct (read_digits (c :: t)) as [d r] eqn:Er.
      destruct (json_run_integer ExpectValue (c :: t) d r) as (H1 & H2 & H3);
        [by left|by left|done|].
      destruct (bool_decide_reflect (d = Nil)) as [Hd|Hd]; [by rewrite Hvalid, H1|].
      destruct (bool_decide_reflect (unorm d = d)) as [Hu|Hu]; cbn [negb];
        [|by rewrite Hvalid, H2].
      destruct (at_end r) eqn:Hend; [by rewrite Hvalid, H3|].
      by destruct (json_valid text). }
  apply orb_false_iff in Hnum as [Hm Hd].
  destruct ((c =? 91) || (c =? 123)) eqn:Hopen.
  { rewrite <- Hvalid. by destruct (json_valid text). }
  apply orb_false_iff in Hopen as [Ha Ho].
  cbn [json_run json_step start_value].
  assert (Hpos : in_range 49 57 c = false /\ (c =? 48) = false)
    by (unfold is_digit, in_range in *; lia).
  destruct Hpos as [Hpos Hz].
  rewrite Hws. unfold start_value. rewrite Hm, Hz, Hpos, Ha, Ho.
  destruct (Z.eqb_spec c 34); [done|]. destruct (Z.eqb_spec c 116); [done|].
  destruct (Z.eqb_spec c 102); [done|]. by destruct (Z.eqb_spec c 110).
Qed.

Lemma JSON_parse_rejects (text : jstring) :
  JSON_parse text = None <-> json_valid text = false.
Proof.
  rewrite <- JSON_parse_valid. by destruct (JSON_parse text).
Qed.

(** ** Tokens: serialize, then parse *)

Lemma after_prefix_app (p s : jstring) : after_prefix p (p ++ s) = Some s.
Proof. induction p as [|a p IH]; [done|]. simpl. by rewrite Z.eqb_refl. Qed.

Lemma span_app (f : Z -> bool) (a rest : jstring) :
  Forall (fun c => f c = true) a ->
  match rest with c :: _ => f c = false | [] => True end ->
  span f (a ++ rest) = (a, rest).
Proof.
  intros Ha Hrest. induction Ha as [|c a Hc Ha IH]; simpl.
  - destruct rest as [|c r]; [done|]. simpl. by rewrite Hrest.
  - by rewrite Hc, IH.
Qed.

Lemma split_loop_run (cur p rest : jstring) (b : bool) :
  Forall (fun c => is_space c = false) p ->
  (p = [] -> b = false) ->
  split_loop cur b (p ++ rest) = split_loop (cur ++ p) false rest.
Proof.
  intros Hp. revert cur b. induction Hp as [|c p Hc Hp IH]; intros cur b Hb.
  - rewrite Hb by done. by rewrite app_nil_r.
  - simpl. rewrite Hc. rewrite IH by done. by rewrite <- app_assoc.
Qed.

Lemma join_cons2 (sep x y : jstring) (t : list jstring) :
  join sep (x :: y :: t) = x ++ sep ++ join sep (y :: t).
Proof. reflexivity. Qed.

Lemma split_loop_sep (cur rest : jstring) :
  split_loop cur false ([32] ++ rest) = cur :: split_loop [] true rest.
Proof. reflexivity. Qed.

Lemma split_loop_join (pieces : list jstring) (b : bool) :
  pieces <> [] ->
  Forall (fun p => p <> [] /\ Forall (fun c => is_space c = false) p) pieces ->
  split_loop [] b (join [32] pieces) = pieces.
Proof.
  intros Hne Hall. revert b. induction Hall as [|x t [Hx Hsp] Hall IH]; [done|].
  intros b. destruct t as [|y t'].
  - simpl. rewrite <- (app_nil_r x) at 1.
    rewrite split_loop_run by done. reflexivity.
  - rewrite join_cons2, split_loop_run by done.
    rewrite app_nil_l, split_loop_sep. by rewrite IH.
Qed.

Lemma trim_start_id (s : jstring) :
  match s with c :: _ => is_space c = false | [] => True end -> trim_start s = s.
Proof. destruct s as [|c t]; [done|]. simpl. by intros ->. Qed.

Lemma join_ends (pieces : list jstring) :
  pieces <> [] ->
  Forall (fun p => p <> [] /\ Forall (fun c => is_space c = false) p) pieces ->
  exists a b mid mid', join [32] pieces = a :: mid /\ join [32] pieces = mid' ++ [b]
                  /\ is_space a = false /\ is_space b = false.
Proof.
  intros Hne Hall. induction Hall as [|x t [Hx Hsp] Hall IH]; [done|].
  destruct x as [|a x']; [done|].
  apply Forall_cons in Hsp as [Ha Hx'].
  destruct t as [|y t'].
  - simpl. destruct (last (a :: x')) as [b|] eqn:Hl; [|by apply last_None in Hl].
    pose proof Hl as Hl'. apply last_Some in Hl' as [mid' Hm].
    exists a, b, x', mid'. repeat split; try done.
    assert (Hin : b ∈ a :: x') by (rewrite Hm; apply elem_of_app; right; by constructor).
    assert (Hall' : Forall (fun c => is_space c = false) (a :: x')) by (by constructor).
    rewrite Forall_forall in Hall'. by apply Hall'.
  - destruct IH as (a' & b & mid & mid' & _ & Hend & _ & Hb); [done|].
    exists a, b, (x' ++ [32] ++ join [32] (y :: t')), ((a :: x') ++ [32] ++ mid').
    rewrite join_cons2. split; [reflexivity|].
    split; [by rewrite Hend, <- !app_assoc|done].
Qed.

Lemma filter_nonempty_all (l : list jstring) :
  Forall (fun p => p <> []) l -> filter_nonempty l = l.
Proof.
  unfold filter_nonempty. induction 1 as [|x t Hx Ht IH]; [done|].
  rewrite filter_cons_True; [by rewrite IH|].
  by rewrite bool_decide_eq_false_2.
Qed.

Lemma param_pieces_join (pieces : list jstring) :
  Forall (fun p => p <> [] /\ Forall (fun c => is_space c = false) p) pieces ->
  param_pieces (32 :: join [32] pieces) = pieces.
Proof.
  intros Hall. unfold param_pieces, trim.
  change (trim_start (32 :: join [32] pieces)) with (trim_start (join [32] pieces)).
  destruct pieces as [|x t]; [reflexivity|].
  destruct (join_ends (x :: t)) as (a & b & mid & mid' & Hstart & Hend & Ha & Hb);
    [done..|].
  rewrite (trim_start_id (join _ _)); [|rewrite Hstart; exact Ha].
  rewrite (trim_start_id (rev _)); [|rewrite Hend, rev_app_distr; exact Hb].
  rewrite rev_involutive. unfold split_spaces. rewrite split_loop_join by done.
  apply filter_nonempty_all.
  eapply Forall_impl; [exact Hall|]. by intros p [Hp _].
Qed.

Lemma token_char_spec c : token_char c = true -> is_space c = false /\ c <> 93.
Proof.
  unfold token_char. intros H. apply andb_true_iff in H as [H1 H2].
  apply negb_true_iff in H1, H2. split; [done|]. by apply Z.eqb_neq.
Qed.

Lemma match_token_intro (id params rest : jstring) :
  id <> [] ->
  Forall (fun c => is_id_char c = true) id ->
  Forall (fun c => not_rbracket c = true) params ->
  match params ++ str "]]" ++ rest with c :: _ => is_id_char c = false | [] => True end ->
  match_token (str "[[Block:" ++ id ++ params ++ str "]]" ++ rest)
  = Some (id, params, rest).
Proof.
  intros Hne Hid Hparams Hnext. unfold match_token.
  rewrite after_prefix_app. cbv beta iota delta [mbind option_bind].
  rewrite span_app by done.
  rewrite bool_decide_eq_false_2 by done.
  rewrite span_app by done.
  by rewrite after_prefix_app.
Qed.

Lemma search_eq (s : jstring) (pos : Z) :
  search s pos
  = match match_token s with
    | Some (id, params, rest) =>
        Some (RegExpMatch.mk pos (str "[[Block:" ++ id ++ params ++ str "]]") id params, rest)
    | None =>
        match s with
        | [] => None
        | _ :: t => search t (pos + 1)
        end
    end.
Proof. by destruct s. Qed.

Lemma search_match (s : jstring) (pos : Z) (id params rest : jstring) :
  match_token s = Some (id, params, rest) ->
  search s pos
  = Some (RegExpMatch.mk pos (str "[[Block:" ++ id ++ params ++ str "]]") id params, rest).
Proof. intros H. rewrite search_eq. by rewrite H. Qed.

Lemma exec_loop_S (n : nat) (s : jstring) (pos : Z) :
  exec_loop (S n) s pos
  = match search s pos with
    | None => []
    | Some (m, rest) =>
        m :: exec_loop n rest (RegExpMatch.index m + len (RegExpMatch.m0 m))
    end.
Proof. reflexivity. Qed.

Lemma exec_loop_nil (n : nat) (pos : Z) : exec_loop n [] pos = [].
Proof. by destruct n. Qed.

Section roundtrip.
Context `{JT : JsonText}.
Variable def : BlockDef.t.
Variable values : gmap jstring jvalue.
Hypothesis Hid : id_ok (BlockDef.id def).
Hypothesis Hkeys : Forall (fun p => key_ok (ParamDef.key p)) (BlockDef.params def).
Hypothesis Hdom : dom values = list_to_set (map ParamDef.key (BlockDef.params def)).
Hypothesis Hsafe :
  forall p v, p ∈ BlockDef.params def -> values !! ParamDef.key p = Some v ->
              token_safe (nullish v (ParamDef.default p)) v.

(** The piece written for one parameter. *)
Let piece (p : ParamDef.t) : jstring :=
  ParamDef.key p ++ str "="
  ++ to_String (JSON_stringify (nullish (get values (ParamDef.key p)) (ParamDef.default p))).

Lemma piece_spec (p : ParamDef.t) :
  p ∈ BlockDef.params def ->
  exists v text,
    values !! ParamDef.key p = Some v
    /\ piece p = ParamDef.key p ++ [61] ++ text
    /\ JSON_parse text = Some v
    /\ Forall (fun c => token_char c = true) (piece p)
    /\ piece p <> [].
Proof using Hkeys Hdom Hsafe.
  intros Hp.
  assert (Hk : key_ok (ParamDef.key p)) by (rewrite Forall_forall in Hkeys; by apply Hkeys).
  destruct Hk as (Hne & Hchars & Heq & _).
  assert (Hin : is_Some (values !! ParamDef.key p)).
  { apply elem_of_dom. rewrite Hdom. apply elem_of_list_to_set.
    apply list_elem_of_fmap. by exists p. }
  destruct Hin as [v Hv].
  destruct (Hsafe p v Hp Hv) as (text & Hs & Hparse & Htext).
  exists v, text. split; [done|].
  assert (Hpiece : piece p = ParamDef.key p ++ [61] ++ text).
  { unfold piece, get. rewrite Hv, Hs. reflexivity. }
  split; [done|]. split; [done|]. rewrite Hpiece. split.
  - apply Forall_app. split; [done|]. apply Forall_cons. split; [reflexivity|done].
  - by destruct (ParamDef.key p).
Qed.

Lemma pieces_lookup (ps : list ParamDef.t) (m : Obj.t) (k : jstring) :
  (forall p, p ∈ ps -> p ∈ BlockDef.params def) ->
  Obj.own (fold_left assign_param (map piece ps) m) !! k
  = if bool_decide (k ∈ map ParamDef.key ps) then values !! k else Obj.own m !! k.
Proof using Hkeys Hdom Hsafe.
  revert m. induction ps as [|p t IH]; intros m Hin.
  - cbn [map fold_left]. rewrite bool_decide_eq_false_2; [done|]. apply not_elem_of_nil.
  - cbn [map fold_left]. rewrite IH by (intros q Hq; apply Hin; by constructor).
    destruct (piece_spec p) as (v & text & Hv & Hpiece & Hparse & _ & _);
      [apply Hin; by constructor|].
    assert (Hk : key_ok (ParamDef.key p)).
    { rewrite Forall_forall in Hkeys. apply Hkeys, Hin. by constructor. }
    destruct Hk as (Hne & _ & Heq & Hproto).
    destruct (piece_key_value (ParamDef.key p) text Hne Heq) as [Hpk Hpv].
    rewrite <- Hpiece in Hpk, Hpv. rewrite Hparse in Hpv. simpl in Hpv.
    rewrite (assign_param_pieces m _ _ Hpk Hproto), Hpv.
    destruct (bool_decide_reflect (k ∈ map ParamDef.key t)) as [Ht|Ht].
    + rewrite bool_decide_eq_true_2; [done|by constructor].
    + destruct (decide (ParamDef.key p = k)) as [<-|E].
      * rewrite lookup_insert_eq, bool_decide_eq_true_2; [done|by constructor].
      * rewrite lookup_insert_ne by done.
        rewrite bool_decide_eq_false_2; [done|].
        intros H. apply elem_of_cons in H as [->|H]; done.
Qed.

Lemma parse_params_paramStr : parse_params (32 :: paramStr def values) = values.
Proof using Hkeys Hdom Hsafe.
  unfold parse_params, paramStr. fold piece.
  change (str " ") with [32].
  rewrite param_pieces_join.
  - apply map_eq. intros k. rewrite pieces_lookup by done.
    change (Obj.own empty_object !! k) with ((∅ : gmap jstring jvalue) !! k).
    rewrite lookup_empty.
    destruct (bool_decide_reflect (k ∈ map ParamDef.key (BlockDef.params def))) as [E|E];
      [done|].
    destruct (values !! k) eqn:Hv; [|done].
    exfalso. apply E. apply (elem_of_list_to_set (C := gset jstring)).
    rewrite <- Hdom. apply elem_of_dom. by eexists.
  - apply Forall_fmap, Forall_forall. intros p Hp. simpl.
    destruct (piece_spec p Hp) as (v & text & _ & _ & _ & Hchars & Hne).
    split; [done|]. eapply Forall_impl; [exact Hchars|].
    intros c Hc. by apply token_char_spec in Hc as [? _].
Qed.

Lemma match_token_tokenText :
  match_token (tokenText def values)
  = Some (BlockDef.id def, 32 :: paramStr def values, []).
Proof using Hid Hkeys Hdom Hsafe.
  destruct Hid as [Hne Hchars].
  unfold tokenText. change (str " " ++ paramStr def values ++ str "]]")
    with ((32 :: paramStr def values) ++ str "]]" ++ []).
  apply match_token_intro; [done..| |done].
  apply Forall_cons. split; [reflexivity|].
  unfold paramStr. fold piece. change (str " ") with [32].
  assert (Hall : Forall (fun p => Forall (fun c => not_rbracket c = true) p)
                        (map piece (BlockDef.params def))).
  { apply Forall_fmap, Forall_forall. intros p Hp. simpl.
    destruct (piece_spec p Hp) as (v & text & _ & _ & _ & Hc & _).
    eapply Forall_impl; [exact Hc|]. intros c Hcc.
    apply token_char_spec in Hcc as [_ Hcc]. unfold not_rbracket.
    apply negb_true_iff. by apply Z.eqb_neq. }
  induction Hall as [|x t Hx Hall IH]; [constructor|].
  destruct t as [|y t']; [done|].
  rewrite join_cons2.
  apply Forall_app. split; [done|]. apply Forall_cons. split; [reflexivity|done].
Qed.

(** C1, amended: for a block whose identifier is made of word
    characters and dashes and whose parameter keys are non-empty, free
    of white space, [=] and closing brackets and other than
    [__proto__], and for values given for exactly the declared keys,
    each written (by [JSON.stringify], after [??] has put the default
    in the place of [null]) as a text without white space and closing
    bracket that [JSON.parse] reads back as the value: parsing the
    serialized token, by its index or at any of its positions, yields
    the block identifier and exactly these values. *)
Theorem token_roundtrip :
  let text := tokenText def values in
  let info := TokenInfo.mk 0 (len text) (BlockDef.id def) values in
  findTokenByIndex text 0 = Some info
  /\ forall pos, 0 <= pos <= len text -> findTokenAt text pos = Some info.
Proof using Hid Hkeys Hdom Hsafe.
  intros text info.
  assert (Hall : exec_all text
                 = [RegExpMatch.mk 0 text (BlockDef.id def) (32 :: paramStr def values)]).
  { unfold exec_all. assert (Hlen : exists n, length text = S n).
    { unfold text, tokenText. simpl. eauto. }
    destruct Hlen as [n ->]. rewrite exec_loop_S.
    unfold text at 1. rewrite (search_match _ _ _ _ _ match_token_tokenText).
    by rewrite exec_loop_nil. }
  assert (Hinfo : token_info (RegExpMatch.mk 0 text (BlockDef.id def)
                                (32 :: paramStr def values)) = info).
  { unfold token_info, info. cbn [RegExpMatch.index RegExpMatch.m0 RegExpMatch.m1
      RegExpMatch.m2]. by rewrite parse_params_paramStr. }
  split.
  - unfold findTokenByIndex. change (0 <? 0) with false. cbv iota. rewrite Hall.
    unfold findTokenByIndex_loop. change (0 =? 0) with true. cbv iota.
    by rewrite Hinfo.
  - intros pos Hpos. unfold findTokenAt. rewrite Hall. unfold findTokenAt_loop.
    cbn [RegExpMatch.index RegExpMatch.m0].
    replace ((0 <=? pos) && (pos <=? 0 + len text)) with true; [by rewrite Hinfo|].
    symmetry. apply andb_true_iff. split; [apply Z.leb_le|apply Z.leb_le]; lia.
Qed.
End roundtrip.

(** The scalars that JSON carries unchanged survive in a token when
    their JSON text holds no white space and no closing bracket. *)
Lemma token_safe_scalar `{JT : JsonText} (v d : jvalue) :
  representable v -> v <> JNull ->
  (forall text, JSON_stringify v = Some text ->
                Forall (fun c => token_char c = true) text) ->
  token_safe (nullish v d) v.
Proof.
  intros Hrep Hnull Htext.
  destruct (JSON_roundtrip v Hrep) as (text & Hs & Hparse).
  exists text. replace (nullish v d) with v by (by destruct v).
  split; [done|]. split; [done|]. by apply Htext.
Qed.

Lemma token_roundtrip_witness :
  let def := BlockDef.mk (str "blk_a") (str "Title")
               [ParamDef.mk (str "color") (str "color") color (JStr (str "#000")) None;
                ParamDef.mk (str "speed") (str "speed") number (JNum 1) None;
                ParamDef.mk (str "scale") (str "scale") number (JNum 1) None] None in
  let values : gmap jstring jvalue :=
    <[ str "color" := JStr (str "#fff") ]>
      (<[ str "speed" := JNum 2 ]> (<[ str "scale" := JOther (str "1.5") ]> ∅)) in
  findTokenByIndex (tokenText (JT := json_plain) def values) 0
  = Some (TokenInfo.mk 0 (len (tokenText (JT := json_plain) def values))
            (str "blk_a") values).
Proof.
  intros def values.
  refine (proj1 (token_roundtrip (JT := json_plain) def values _ _ _ _)).
  - split; [done|]. repeat constructor.
  - repeat constructor; try done;
      apply (bool_decide_unpack _); vm_compute; exact I.
  - vm_compute. reflexivity.
  - intros p v Hp Hv.
    repeat (apply elem_of_cons in Hp as [->|Hp]); [| | |by apply elem_of_nil in Hp];
      vm_compute in Hv; injection Hv as <-.
    + apply token_safe_scalar; [repeat constructor; lia|done|].
      intros text [= <-]. repeat constructor.
    + apply token_safe_scalar; [reflexivity|done|].
      intros text [= <-]. repeat constructor.
    + exists (str "1.5"). split; [reflexivity|]. split; [by vm_compute|].
      repeat constructor.
Defined.

(** C1 as stated fails on a string value with a space: the token text
    is cut at the space, so the key reads as the raw piece up to it.
    It also fails on a parameter with the key [__proto__]: the value is
    written, and the assignment of the parser makes no property of that
    name. *)
Lemma token_roundtrip_counterexample :
  let def := BlockDef.mk (str "blk_a") (str "Title")
               [ParamDef.mk (str "title") (str "title") text (JStr (str "Hello")) None]
               None in
  let values : gmap jstring jvalue := {[ str "title" := JStr (str "Hello World") ]} in
  let def' := BlockDef.mk (str "blk_a") (str "Title")
                [ParamDef.mk (str "__proto__") (str "level") number (JNum 1) None]
                None in
  let values' : gmap jstring jvalue := {[ str "__proto__" := JNum 5 ]} in
  representable (JStr (str "Hello World"))
  /\ (TokenInfo.params <$> findTokenByIndex (tokenText (JT := json_plain) def values) 0)
     = Some {[ str "title" := JStr ([34] ++ str "Hello") ]}
  /\ (TokenInfo.params <$> findTokenByIndex (tokenText (JT := json_plain) def values) 0)
     <> Some values
  /\ tokenText (JT := json_plain) def' values' = str "[[Block:blk_a __proto__=5]]"
  /\ (TokenInfo.params <$> findTokenByIndex (tokenText (JT := json_plain) def' values') 0)
     = Some ∅
  /\ (TokenInfo.params <$> findTokenByIndex (tokenText (JT := json_plain) def' values') 0)
     <> Some values'.
Proof.
  intros def values def' values'.
  assert (H : (TokenInfo.params <$> findTokenByIndex (tokenText (JT := json_plain) def values) 0)
              = Some {[ str "title" := JStr ([34] ++ str "Hello") ]})
    by (vm_compute; reflexivity).
  assert (H' : (TokenInfo.params
                  <$> findTokenByIndex (tokenText (JT := json_plain) def' values') 0)
               = Some ∅)
    by (vm_compute; reflexivity).
  split; [repeat constructor; lia|]. split; [exact H|]. split.
  { rewrite H. intros [= E]. }
  split; [by vm_compute|]. split; [exact H'|].
  rewrite H'. intros [= E].
Qed.

(** ** Explain templates *)

Lemma get_substitution_plain (matched before after repl : jstring) :
  36 ∉ repl -> get_substitution matched before after repl = repl.
Proof.
  induction repl as [|c t IH]; [done|]. intros H.
  apply not_elem_of_cons in H as [Hc Ht]. simpl.
  destruct (Z.eqb_spec c 36); [congruence|]. by rewrite IH.
Qed.

(** Where the JSON text of the value has no dollar sign, the sentence
    is the template with the placeholder replaced by that text. *)
Lemma explain_sentence_plain `{JT : JsonText} (b : Usage.t) (defParam : ParamDef.t) :
  36 ∉ to_String (JSON_stringify (explain_value b defParam)) ->
  explain_sentence b defParam
  = substitute (explain_template defParam) (str "{value}")
               (to_String (JSON_stringify (explain_value b defParam))).
Proof.
  intros H. unfold explain_sentence, replace, substitute.
  destruct (find_sub _ _); [|done]. by rewrite get_substitution_plain.
Qed.

(** The explain example of the specification. *)
Example explain_speed_example `{JT : JsonText} :
  let p := ParamDef.mk (str "speed") (str "speed") number (JNum 1)
                       (Some (str "set the animation speed to {value}")) in
  let b := Usage.mk (str "blk_a") (str "Spin") [p]
                    [UsageParam.mk (str "speed") (JNum 1) (JNum 2)]
                    (Project.mk [] (str "MyComp") 1920 1080 30 180) None in
  explain_sentence b p = str "set the animation speed to 2".
Proof. vm_compute. reflexivity. Qed.

(** C8: a value whose JSON text holds a dollar pattern is not rendered
    as it is: [replace] reads [$$] in the replacement text as one dollar
    sign (and [$&], [$`], [$'] as parts of the template). *)
Theorem explain_dollar_pattern `{JT : JsonText} :
  let p := ParamDef.mk (str "title") (str "title") text (JStr (str "Hello"))
                       (Some (str "set the title text to {value}")) in
  let b := Usage.mk (str "blk_a") (str "Title") [p]
                    [UsageParam.mk (str "title") (JStr (str "Hello"))
                                   (JStr (str "Save $$ now"))]
                    (Project.mk [] (str "MyComp") 1920 1080 30 180) None in
  explain_value b p = JStr (str "Save $$ now")
  /\ explain_sentence b p
     = str "set the title text to " ++ [34] ++ str "Save $ now" ++ [34]
  /\ substitute (explain_template p) (str "{value}")
                (to_String (JSON_stringify (explain_value b p)))
     = str "set the title text to " ++ [34] ++ str "Save $$ now" ++ [34]
  /\ explain_sentence b p
     <> substitute (explain_template p) (str "{value}")
                   (to_String (JSON_stringify (explain_value b p))).
Proof. vm_compute. repeat split; try reflexivity. discriminate. Qed.

(** ** The attribute encoding *)

Example encodeAttr_examples :
  encodeAttr (str "[[Block:a]]") = Some (str "W1tCbG9jazphXV0=")
  /\ encodeAttr (str "a") = Some (str "YQ==")
  /\ encodeAttr (str "abc") = Some (str "YWJj")
  /\ encodeURIComponent [233; 8364; 0xD83D; 0xDE00] = Some (str "%C3%A9%E2%82%AC%F0%9F%98%80")
  /\ encodeAttr [233; 8364; 0xD83D; 0xDE00] = Some (str "w6nigqzwn5iA")
  /\ decodeAttr (str "w6nigqzwn5iA") = [233; 8364; 0xD83D; 0xDE00]
  /\ decodeAttr (str "W1tCbG9jazphXV0=") = str "[[Block:a]]"
  /\ decodeAttr (str "YQ==") = str "a"
  /\ decodeAttr (str "%%") = str "%%"
  /\ encodeAttr [0xD800] = None.
Proof. vm_compute. repeat split; reflexivity. Qed.

Lemma hex2_upper b :
  is_byte b ->
  hex2 (hex_upper (b / 16)) (hex_upper (b mod 16)) = Some b
  /\ (hex_upper (b / 16) =? 117) = false.
Proof.
  intros H.
  apply (forall_below
           (fun b => bool_decide (hex2 (hex_upper (b / 16)) (hex_upper (b mod 16)) = Some b)
                     && negb (hex_upper (b / 16) =? 117)) 256) in H;
    [|vm_compute; reflexivity].
  apply andb_true_iff in H as [H1 H2]. apply bool_decide_eq_true in H1.
  by apply negb_true_iff in H2.
Qed.

Lemma unescape_pct (b : Z) (rest : jstring) :
  is_byte b -> unescape (pct b ++ rest) = b :: unescape rest.
Proof.
  intros Hb. destruct (hex2_upper b Hb) as [H2 Hu]. unfold pct.
  generalize dependent (hex_upper (b / 16)). generalize dependent (hex_upper (b mod 16)).
  intros y x H2 Hu. simpl. rewrite Hu. simpl. by rewrite H2.
Qed.

Lemma unescape_plain (c : Z) (rest : jstring) :
  c <> 37 -> unescape (c :: rest) = c :: unescape rest.
Proof. intros H. simpl. by destruct (Z.eqb_spec c 37). Qed.

Lemma unescape_flat_pct (bytes rest : jstring) :
  Forall is_byte bytes -> unescape (flat_map pct bytes ++ rest) = bytes ++ unescape rest.
Proof.
  induction 1 as [|b t Hb Ht IH]; [done|].
  cbn [flat_map]. rewrite <- app_assoc, unescape_pct by done. by rewrite IH.
Qed.

Lemma utf8_encode_bytes (cp : Z) : 0 <= cp < 0x110000 -> Forall is_byte (utf8_encode cp).
Proof.
  intros H. unfold utf8_encode, is_byte.
  repeat match goal with
         | |- context [if ?a <? ?b then _ else _] => destruct (Z.ltb_spec a b)
         end; repeat constructor; divlia.
Qed.

Lemma decode_plain (c : Z) (rest : jstring) :
  c <> 37 ->
  decodeURIComponent (c :: rest) = r ← decodeURIComponent rest; Some (c :: r).
Proof. intros H. simpl. by destruct (Z.eqb_spec c 37). Qed.

Lemma decode_pct1 (b : Z) (rest : jstring) :
  0 <= b < 0x80 ->
  decodeURIComponent (pct b ++ rest) = r ← decodeURIComponent rest; Some (b :: r).
Proof.
  intros Hb. destruct (hex2_upper b) as [H2 _]; [unfold is_byte; lia|]. unfold pct.
  generalize dependent (hex_upper (b / 16)). generalize dependent (hex_upper (b mod 16)).
  intros y x H2. simpl. rewrite H2. simpl.
  by destruct (Z.ltb_spec b 128); [|lia].
Qed.

Lemma pct_octet_pct (b : Z) (rest : jstring) :
  is_byte b ->
  exists x y, pct b ++ rest = 37 :: x :: y :: rest /\ pct_octet 37 x y = Some b
              /\ hex2 x y = Some b.
Proof.
  intros Hb. destruct (hex2_upper b Hb) as [H2 _].
  do 2 eexists. split; [reflexivity|]. by split.
Qed.

Lemma decode_pct2 (b1 b2 cp : Z) (rest : jstring) :
  0xC0 <= b1 < 0xE0 -> is_byte b2 -> utf8_decode2 b1 b2 = Some cp ->
  decodeURIComponent (pct b1 ++ pct b2 ++ rest)
  = r ← decodeURIComponent rest; Some (utf16_encode cp ++ r).
Proof.
  intros H1 H2 Hcp.
  destruct (pct_octet_pct b1 (pct b2 ++ rest)) as (x1 & y1 & -> & _ & Hx1);
    [unfold is_byte; lia|].
  destruct (pct_octet_pct b2 rest H2) as (x2 & y2 & -> & Hx2 & _).
  cbn [decodeURIComponent]. change (negb (37 =? 37)) with false. cbv iota.
  rewrite Hx1. cbn [mbind option_bind].
  destruct (Z.ltb_spec b1 128); [lia|]. destruct (Z.ltb_spec b1 192); [lia|].
  destruct (Z.ltb_spec b1 224); [|lia].
  rewrite Hx2. cbn [mbind option_bind]. rewrite Hcp. reflexivity.
Qed.

Lemma decode_pct3 (b1 b2 b3 cp : Z) (rest : jstring) :
  0xE0 <= b1 < 0xF0 -> is_byte b2 -> is_byte b3 -> utf8_decode3 b1 b2 b3 = Some cp ->
  decodeURIComponent (pct b1 ++ pct b2 ++ pct b3 ++ rest)
  = r ← decodeURIComponent rest; Some (utf16_encode cp ++ r).
Proof.
  intros H1 H2 H3 Hcp.
  destruct (pct_octet_pct b1 (pct b2 ++ pct b3 ++ rest)) as (x1 & y1 & -> & _ & Hx1);
    [unfold is_byte; lia|].
  destruct (pct_octet_pct b2 (pct b3 ++ rest) H2) as (x2 & y2 & -> & Hx2 & _).
  destruct (pct_octet_pct b3 rest H3) as (x3 & y3 & -> & Hx3 & _).
  cbn [decodeURIComponent]. change (negb (37 =? 37)) with false. cbv iota.
  rewrite Hx1. cbn [mbind option_bind].
  destruct (Z.ltb_spec b1 128); [lia|]. destruct (Z.ltb_spec b1 192); [lia|].
  destruct (Z.ltb_spec b1 224); [lia|]. destruct (Z.ltb_spec b1 240); [|lia].
  rewrite Hx2, Hx3. cbn [mbind option_bind]. rewrite Hcp. reflexivity.
Qed.

Lemma decode_pct4 (b1 b2 b3 b4 cp : Z) (rest : jstring) :
  0xF0 <= b1 < 0xF8 -> is_byte b2 -> is_byte b3 -> is_byte b4 ->
  utf8_decode4 b1 b2 b3 b4 = Some cp ->
  decodeURIComponent (pct b1 ++ pct b2 ++ pct b3 ++ pct b4 ++ rest)
  = r ← decodeURIComponent rest; Some (utf16_encode cp ++ r).
Proof.
  intros H1 H2 H3 H4 Hcp.
  destruct (pct_octet_pct b1 (pct b2 ++ pct b3 ++ pct b4 ++ rest))
    as (x1 & y1 & -> & _ & Hx1); [unfold is_byte; lia|].
  destruct (pct_octet_pct b2 (pct b3 ++ pct b4 ++ rest) H2) as (x2 & y2 & -> & Hx2 & _).
  destruct (pct_octet_pct b3 (pct b4 ++ rest) H3) as (x3 & y3 & -> & Hx3 & _).
  destruct (pct_octet_pct b4 rest H4) as (x4 & y4 & -> & Hx4 & _).
  cbn [decodeURIComponent]. change (negb (37 =? 37)) with false. cbv iota.
  rewrite Hx1. cbn [mbind option_bind].
  destruct (Z.ltb_spec b1 128); [lia|]. destruct (Z.ltb_spec b1 192); [lia|].
  destruct (Z.ltb_spec b1 224); [lia|]. destruct (Z.ltb_spec b1 240); [lia|].
  destruct (Z.ltb_spec b1 248); [|lia].
  rewrite Hx2, Hx3, Hx4. cbn [mbind option_bind]. rewrite Hcp. reflexivity.
Qed.

Lemma escape_char_high (b : Z) : 0x80 <= b < 256 -> escape_char b = pct b.
Proof.
  intros H. unfold escape_char.
  assert (escape_unescaped b = false)
    by (unfold escape_unescaped, is_alpha, is_digit, in_range; lia).
  destruct (escape_unescaped b); [done|]. by destruct (Z.ltb_spec b 256); [|lia].
Qed.

Lemma escape_app (a b : jstring) : escape (a ++ b) = escape a ++ escape b.
Proof. unfold escape. apply flat_map_app. Qed.

Lemma surrogate_ranges (c : Z) :
  (is_high_surrogate c = true <-> 0xD800 <= c <= 0xDBFF)
  /\ (is_low_surrogate c = true <-> 0xDC00 <= c <= 0xDFFF).
Proof. unfold is_high_surrogate, is_low_surrogate, in_range. lia. Qed.

(** The UTF-8 octets of a code point, escaped, decode to its code units. *)
Lemma decode_escape_code_point (cp : Z) (rest : jstring) :
  0 <= cp < 0x110000 -> ~ (0xD800 <= cp <= 0xDFFF) ->
  decodeURIComponent (escape (utf8_encode cp) ++ rest)
  = r ← decodeURIComponent rest; Some (utf16_encode cp ++ r).
Proof.
  intros Hcp Hsur. unfold utf8_encode.
  destruct (Z.ltb_spec cp 0x80).
  - (* one octet *)
    unfold escape. cbn [flat_map]. rewrite app_nil_r.
    assert (Hu : utf16_encode cp = [cp])
      by (unfold utf16_encode; destruct (Z.ltb_spec cp 0x10000); [done|lia]).
    rewrite Hu. unfold escape_char.
    destruct (escape_unescaped cp) eqn:He.
    + apply decode_plain. intros ->. discriminate.
    + destruct (Z.ltb_spec cp 256); [|lia]. apply decode_pct1. lia.
  - destruct (Z.ltb_spec cp 0x800).
    + (* two octets *)
      unfold escape. cbn [flat_map]. rewrite app_nil_r.
      rewrite !escape_char_high by divlia. rewrite <- app_assoc.
      apply decode_pct2; [divlia|unfold is_byte; divlia|].
      unfold utf8_decode2, is_continuation, in_range.
      match goal with |- (if ?b then _ else _) = _ => assert (b = true) as -> by divlia end.
      f_equal. divlia.
    + destruct (Z.ltb_spec cp 0x10000).
      * (* three octets *)
        unfold escape. cbn [flat_map]. rewrite app_nil_r.
        rewrite !escape_char_high by divlia. rewrite <- !app_assoc.
        apply decode_pct3; [divlia|unfold is_byte; divlia..|].
        unfold utf8_decode3, is_continuation, in_range.
        match goal with |- (if ?b then _ else _) = _ => assert (b = true) as -> by divlia end.
        f_equal. divlia.
      * (* four octets *)
        unfold escape. cbn [flat_map]. rewrite app_nil_r.
        rewrite !escape_char_high by divlia. rewrite <- !app_assoc.
        apply decode_pct4; [divlia|unfold is_byte; divlia..|].
        unfold utf8_decode4, is_continuation, in_range.
        match goal with |- (if ?b then _ else _) = _ => assert (b = true) as -> by divlia end.
        f_equal. divlia.
Qed.

Lemma utf16_encode_pair (hi lo : Z) :
  0xD800 <= hi <= 0xDBFF -> 0xDC00 <= lo <= 0xDFFF ->
  utf16_encode (pair_code_point hi lo) = [hi; lo]
  /\ 0x10000 <= pair_code_point hi lo < 0x110000.
Proof.
  intros Hhi Hlo. unfold utf16_encode, pair_code_point.
  destruct (Z.ltb_spec ((hi - 55296) * 1024 + (lo - 56320) + 65536) 65536); [lia|].
  split; [|lia]. f_equal; [|f_equal]; divlia.
Qed.

Lemma uri_unescaped_ascii (c : Z) : uri_unescaped c = true -> 0 <= c < 0x80 /\ c <> 37.
Proof. unfold uri_unescaped, is_alpha, is_digit, in_range. lia. Qed.

(** The binary string [unescape(encodeURIComponent(s))] of a
    well-formed string holds octets only and decodes to [s]. *)
Lemma uri_roundtrip (s : jstring) :
  valid_string s -> well_formed s = true ->
  exists e, encodeURIComponent s = Some e
            /\ Forall is_byte (unescape e)
            /\ decodeURIComponent (escape (unescape e)) = Some s.
Proof.
  remember (length s) as n eqn:Hn. revert s Hn.
  induction n as [n IH] using lt_wf_ind. intros s Hn Hv Hwf.
  destruct s as [|c t]; [exists []; by repeat split|].
  apply Forall_cons in Hv as [Hc Ht]. simpl in Hn.
  pose proof (proj1 (surrogate_ranges c)) as Hhi.
  pose proof (proj2 (surrogate_ranges c)) as Hlo.
  cbn [encodeURIComponent well_formed] in *.
  destruct (uri_unescaped c) eqn:Hu.
  - (* copied *)
    destruct (uri_unescaped_ascii c Hu) as [Hr H37].
    assert (Hwf' : well_formed t = true).
    { destruct (is_high_surrogate c); [assert (0xD800 <= c <= 0xDBFF) by (by apply Hhi); lia|].
      by apply andb_true_iff in Hwf as [_ ?]. }
    destruct (IH (length t) ltac:(lia) t eq_refl Ht Hwf') as (e & -> & Hb & Hd).
    exists (c :: e). split; [done|]. rewrite unescape_plain by done.
    split; [constructor; [unfold is_byte; lia|done]|].
    replace (c :: unescape e) with (utf8_encode c ++ unescape e)
      by (unfold utf8_encode; by destruct (Z.ltb_spec c 0x80); [|lia]).
    rewrite escape_app, decode_escape_code_point, Hd by lia.
    simpl. unfold utf16_encode. by destruct (Z.ltb_spec c 0x10000); [|lia].
  - destruct (is_high_surrogate c).
    + (* a surrogate pair *)
      assert (E1 : 0xD800 <= c <= 0xDBFF) by (by apply Hhi).
      assert (is_low_surrogate c = false) as ->.
      { destruct (is_low_surrogate c); [|done].
        assert (0xDC00 <= c <= 0xDFFF) by (by apply Hlo). lia. }
      destruct t as [|d t']; [done|].
      apply andb_true_iff in Hwf as [Hd Hwf'].
      rewrite Hd. apply Forall_cons in Ht as [Hdv Ht']. simpl in Hn.
      destruct (IH (length t') ltac:(lia) t' eq_refl Ht' Hwf') as (e & -> & Hb & Hdec).
      apply (proj2 (surrogate_ranges d)) in Hd.
      destruct (utf16_encode_pair c d E1 Hd) as [Hpair Hrange].
      eexists. split; [reflexivity|].
      rewrite unescape_flat_pct by (apply utf8_encode_bytes; lia).
      split; [apply Forall_app; split; [apply utf8_encode_bytes; lia|done]|].
      rewrite escape_app, decode_escape_code_point, Hdec by lia.
      simpl. by rewrite Hpair.
    + (* one code unit *)
      apply andb_true_iff in Hwf as [Hl Hwf']. apply negb_true_iff in Hl.
      assert (Hns : ~ (0xD800 <= c <= 0xDFFF)).
      { intros H. destruct (Z.le_gt_cases c 0xDBFF).
        - assert (false = true) by (apply Hhi; lia). done.
        - assert (is_low_surrogate c = true) by (apply Hlo; lia). congruence. }
      rewrite Hl.
      destruct (IH (length t) ltac:(lia) t eq_refl Ht Hwf') as (e & -> & Hb & Hdec).
      eexists. split; [reflexivity|].
      rewrite unescape_flat_pct by (apply utf8_encode_bytes; lia).
      split; [apply Forall_app; split; [apply utf8_encode_bytes; lia|done]|].
      rewrite escape_app, decode_escape_code_point, Hdec by lia.
      simpl. unfold utf16_encode. by destruct (Z.ltb_spec c 0x10000); [|lia].
Qed.

(** *** base64 *)

Lemma list_ind3 {A} (P : list A -> Prop) :
  P [] -> (forall a, P [a]) -> (forall a b, P [a; b]) ->
  (forall a b c t, P t -> P (a :: b :: c :: t)) ->
  forall l, P l.
Proof.
  intros H0 H1 H2 H3.
  fix IH 1. intros [|a [|b [|c t]]]; [exact H0|apply H1|apply H2|].
  apply H3, IH.
Qed.

Lemma b64_char_val (i : Z) :
  0 <= i < 64 ->
  b64_val (b64_char i) = Some i /\ is_ascii_ws (b64_char i) = false
  /\ (b64_char i =? 61) = false.
Proof.
  intros H.
  apply (forall_below
           (fun i => bool_decide (b64_val (b64_char i) = Some i)
                     && negb (is_ascii_ws (b64_char i)) && negb (b64_char i =? 61)) 64) in H;
    [|vm_compute; reflexivity].
  apply andb_true_iff in H as [H H3]. apply andb_true_iff in H as [H1 H2].
  apply bool_decide_eq_true in H1. apply negb_true_iff in H2, H3. done.
Qed.

Lemma sextets_range (l : jstring) :
  Forall is_byte l -> Forall (fun x => 0 <= x < 64) (sextets l).
Proof.
  unfold is_byte. induction l as [|a|a b|a b c t IH] using list_ind3; intros H.
  - constructor.
  - apply Forall_cons in H as [Ha _]. repeat constructor; divlia.
  - apply Forall_cons in H as [Ha H]. apply Forall_cons in H as [Hb _].
    repeat constructor; divlia.
  - apply Forall_cons in H as [Ha H]. apply Forall_cons in H as [Hb H].
    apply Forall_cons in H as [Hc H].
    cbn [sextets]. repeat (apply Forall_cons; split); [divlia..|by apply IH].
Qed.

Lemma octets_sextets (l : jstring) : Forall is_byte l -> octets (sextets l) = l.
Proof.
  unfold is_byte. induction l as [|a|a b|a b c t IH] using list_ind3; intros H.
  - reflexivity.
  - apply Forall_cons in H as [Ha _]. cbn [sextets octets]. f_equal. divlia.
  - apply Forall_cons in H as [Ha H]. apply Forall_cons in H as [Hb _].
    cbn [sextets octets]. f_equal; [|f_equal]; divlia.
  - apply Forall_cons in H as [Ha H]. apply Forall_cons in H as [Hb H].
    apply Forall_cons in H as [Hc H].
    cbn [sextets octets]. rewrite IH by done.
    f_equal; [|f_equal; [|f_equal]]; divlia.
Qed.

Lemma sextets_length (l : jstring) :
  length (sextets l)
  = (4 * (length l / 3) + match length l mod 3 with 0 => 0 | 1 => 2 | _ => 3 end)%nat.
Proof.
  induction l as [|a|a b|a b c t IH] using list_ind3; try reflexivity.
  cbn [sextets length]. rewrite IH.
  replace (S (S (S (length t)))) with (3 + length t)%nat by lia.
  replace ((3 + length t) / 3)%nat with (1 + length t / 3)%nat by (zify; divlia).
  replace ((3 + length t) mod 3)%nat with (length t mod 3)%nat by (zify; divlia).
  lia.
Qed.

Lemma mod3_cases (n : nat) :
  (n mod 3 = 0 \/ n mod 3 = 1 \/ n mod 3 = 2)%nat.
Proof. zify; divlia. Qed.

Lemma strip_padding_encoded (x : jstring) (n : nat) :
  length x = (4 * (n / 3) + match n mod 3 with 0 => 0 | 1 => 2 | _ => 3 end)%nat ->
  match last x with Some a => (a =? 61) = false | None => True end ->
  strip_padding (x ++ padding n) = x /\ (length x mod 4 =? 1)%nat = false.
Proof.
  intros Hlen Hlast. unfold strip_padding, padding.
  assert (Hrev : rev x = match last x with Some a => a :: rev (removelast x) | None => [] end).
  { destruct (last x) as [a|] eqn:E.
    - apply last_Some in E as [x' ->]. by rewrite rev_unit, removelast_last.
    - apply last_None in E. by subst. }
  set (K := (length x mod 4 =? 1)%nat).
  destruct (mod3_cases n) as [E|[E|E]]; rewrite E in *.
  - rewrite app_nil_r.
    assert (Hm : (length x mod 4 = 0)%nat) by (zify; divlia).
    rewrite Hm. simpl. split; [|subst K; by rewrite Hm].
    rewrite Hrev. destruct (last x) as [a|] eqn:El; [|done]. by rewrite Hlast.
  - rewrite length_app. simpl length.
    assert (Hm : ((length x + 2) mod 4 = 0)%nat) by (zify; divlia).
    rewrite Hm. simpl (0 =? 0)%nat. cbv iota.
    rewrite rev_app_distr. simpl. rewrite rev_involutive.
    split; [done|]. subst K. apply Nat.eqb_neq. zify; divlia.
  - rewrite length_app. simpl length.
    assert (Hm : ((length x + 1) mod 4 = 0)%nat) by (zify; divlia).
    rewrite Hm. simpl (0 =? 0)%nat. cbv iota.
    rewrite rev_app_distr. simpl.
    split; [|subst K; apply Nat.eqb_neq; zify; divlia].
    rewrite Hrev. destruct (last x) as [a|] eqn:El.
    + rewrite Hlast. rewrite <- Hrev. apply rev_involutive.
    + apply last_None in El. by subst.
Qed.

Lemma mapM_b64 (sx : list Z) :
  Forall (fun x => 0 <= x < 64) sx -> mapM b64_val (map b64_char sx) = Some sx.
Proof.
  intros H. apply mapM_Some. induction H as [|x t Hx Ht IH]; [constructor|].
  constructor; [|done]. by destruct (b64_char_val x Hx).
Qed.

(** [atob] undoes [btoa] on every string of octets. *)
Lemma atob_btoa (bin : jstring) :
  Forall is_byte bin ->
  exists a, btoa bin = Some a /\ atob a = Some bin.
Proof.
  intros Hb. unfold btoa.
  assert (forallb (fun c => in_range 0 255 c) bin = true) as ->.
  { apply forallb_forall. intros c Hc. rewrite Forall_forall in Hb.
    apply list_elem_of_In, Hb in Hc. unfold is_byte, in_range in *. lia. }
  eexists. split; [reflexivity|]. unfold atob.
  pose proof (sextets_range bin Hb) as Hsx.
  assert (Hfilter : List.filter (fun c => negb (is_ascii_ws c))
                      (map b64_char (sextets bin) ++ padding (length bin))
                    = map b64_char (sextets bin) ++ padding (length bin)).
  { apply forallb_filter_id, forallb_forall. intros c Hc.
    apply in_app_or in Hc as [Hc|Hc].
    - apply in_map_iff in Hc as (x & <- & Hx). rewrite Forall_forall in Hsx.
      apply list_elem_of_In, Hsx in Hx. destruct (b64_char_val x Hx) as (_ & -> & _). done.
    - unfold padding in Hc.
      destruct (mod3_cases (length bin)) as [E|[E|E]]; rewrite E in Hc; simpl in Hc;
        intuition (subst; reflexivity). }
  rewrite Hfilter.
  destruct (strip_padding_encoded (map b64_char (sextets bin)) (length bin)) as [-> ->].
  - rewrite length_map. apply sextets_length.
  - destruct (last (map b64_char (sextets bin))) as [a|] eqn:El; [|done].
    assert (Hin : a ∈ map b64_char (sextets bin)).
    { apply last_Some in El as [x' ->]. apply elem_of_app. right. by constructor. }
    apply list_elem_of_fmap in Hin as (x & -> & Hx).
    rewrite Forall_forall in Hsx. apply Hsx in Hx.
    by destruct (b64_char_val x Hx) as (_ & _ & ->).
  - rewrite mapM_b64 by done. simpl. by rewrite octets_sextets.
Qed.

(** The attribute written for a string, and what is read from it. *)
Lemma encodeAttr_decode (s : jstring) :
  valid_string s -> well_formed s = true ->
  exists a, encodeAttr s = Some a /\ decodeAttr a = s.
Proof.
  intros Hv Hwf. unfold encodeAttr, decodeAttr.
  destruct (uri_roundtrip s Hv Hwf) as (e & -> & Hbytes & Hdec).
  destruct (atob_btoa (unescape e) Hbytes) as (a & Ha & Hb).
  exists a. split; [exact Ha|]. rewrite Hb. simpl. by rewrite Hdec.
Qed.

(** C9, amended: on a string of code units without unpaired surrogate,
    [encodeAttr] does not throw and [decodeAttr] gives the string back. *)
Theorem decodeAttr_encodeAttr (s : jstring) :
  valid_string s -> well_formed s = true ->
  (decodeAttr <$> encodeAttr s) = Some s.
Proof.
  intros Hv Hwf.
  destruct (encodeAttr_decode s Hv Hwf) as (a & -> & Ha).
  simpl. by rewrite Ha.
Qed.

Lemma decodeAttr_encodeAttr_witness :
  (decodeAttr <$> encodeAttr (str "[[Block:blk_a n=1]]" ++ [233; 0xD83D; 0xDE00]))
  = Some (str "[[Block:blk_a n=1]]" ++ [233; 0xD83D; 0xDE00]).
Proof.
  apply decodeAttr_encodeAttr.
  - repeat constructor; lia.
  - reflexivity.
Defined.

(** C9 as stated fails on a string with an unpaired surrogate:
    [encodeURIComponent] throws, so [encodeAttr] yields no text at all. *)
Lemma encodeAttr_lone_surrogate :
  valid_string [0xD800]
  /\ encodeAttr [0xD800] = None
  /\ (decodeAttr <$> encodeAttr [0xD800]) <> Some [0xD800].
Proof. split; [repeat constructor; lia|]. split; [reflexivity|discriminate]. Qed.

(** ** The rich prompt editor *)

Example editor_examples :
  let blocks := [Block.mk (BlockDef.mk (str "blk_a") (str "Fade <in>") [] (Some 200))
                          (Project.mk [] (str "MyComp") 1920 1080 30 180)] in
  let text := str "Hi <b> & [[Block:blk_a n=1]] then [[Block:zz]][[Block:blk_a]] &amp; end" in
  editor_roundtrip blocks text = Some text
  /\ editor_roundtrip blocks [] = Some []
  /\ editor_roundtrip blocks (str "[[Block:a " ++ [0xD800] ++ str "]]") = None
  /\ editor_roundtrip blocks (str "a" ++ [13; 10] ++ str "b") = Some (str "a" ++ [10] ++ str "b")
  /\ (length <$> (renderPromptHTML blocks (str "[[Block:zz]]") ≫= innerHTML)) = Some 1%nat.
Proof. vm_compute. repeat split; reflexivity. Qed.

(** *** Character data *)

Lemma escapeHTML_cons (c : Z) (t : jstring) :
  escapeHTML (c :: t) = escape_html_char c ++ escapeHTML t.
Proof. reflexivity. Qed.

Lemma escape_html_char_cases (c : Z) :
  (c = 38 /\ escape_html_char c = str "&amp;")
  \/ (c = 60 /\ escape_html_char c = str "&lt;")
  \/ (c = 62 /\ escape_html_char c = str "&gt;")
  \/ (c <> 38 /\ c <> 60 /\ c <> 62 /\ escape_html_char c = [c]).
Proof.
  unfold escape_html_char.
  destruct (Z.eqb_spec c 38); [by left|].
  destruct (Z.eqb_spec c 60); [right; by left|].
  destruct (Z.eqb_spec c 62); [right; right; by left|].
  by repeat right.
Qed.

Lemma decode_text_plain (c : Z) (rest : jstring) :
  c <> 38 -> c <> 0 -> c <> 13 ->
  decode_text (c :: rest) = r ← decode_text rest; Some (c :: r).
Proof.
  intros H1 H2 H3. simpl.
  destruct (Z.eqb_spec c 38); [done|]. destruct (Z.eqb_spec c 0); [done|].
  by destruct (Z.eqb_spec c 13).
Qed.

Lemma decode_text_escapeHTML (t : jstring) :
  plain_text t -> decode_text (escapeHTML t) = Some t.
Proof.
  induction 1 as [|c t [H0 H13] Ht IH]; [done|].
  rewrite escapeHTML_cons.
  destruct (escape_html_char_cases c) as [[-> ->]|[[-> ->]|[[-> ->]|(? & ? & ? & ->)]]].
  - change (decode_text (str "&amp;" ++ escapeHTML t))
      with (r ← decode_text (escapeHTML t); Some (38 :: r)).
    by rewrite IH.
  - change (decode_text (str "&lt;" ++ escapeHTML t))
      with (r ← decode_text (escapeHTML t); Some (60 :: r)).
    by rewrite IH.
  - change (decode_text (str "&gt;" ++ escapeHTML t))
      with (r ← decode_text (escapeHTML t); Some (62 :: r)).
    by rewrite IH.
  - simpl app. rewrite decode_text_plain by done. by rewrite IH.
Qed.

Lemma escapeHTML_head (t : jstring) :
  match escapeHTML t with
  | c :: _ => c <> 10 \/ (exists t', t = 10 :: t')
  | [] => True
  end.
Proof.
  destruct t as [|c t]; [done|]. rewrite escapeHTML_cons.
  destruct (escape_html_char_cases c) as [[-> ->]|[[-> ->]|[[-> ->]|(? & ? & ? & ->)]]];
    simpl; try (by left).
  destruct (Z.eq_dec c 10) as [->|]; [right; eauto|by left].
Qed.

(** Whatever the text is, its escaped form is character data that the
    model reads. *)
Lemma decode_text_escapeHTML_total (t : jstring) :
  is_Some (decode_text (escapeHTML t)).
Proof.
  remember (length t) as n eqn:Hn. revert t Hn.
  induction n as [n IH] using lt_wf_ind. intros t Hn.
  destruct t as [|c t]; [by eexists|]. simpl in Hn.
  assert (IHt : is_Some (decode_text (escapeHTML t))) by (apply (IH (length t)); [lia|done]).
  rewrite escapeHTML_cons.
  destruct (escape_html_char_cases c) as [[-> ->]|[[-> ->]|[[-> ->]|(? & ? & ? & ->)]]].
  - change (decode_text (str "&amp;" ++ escapeHTML t))
      with (r ← decode_text (escapeHTML t); Some (38 :: r)).
    destruct IHt as [d ->]. by eexists.
  - change (decode_text (str "&lt;" ++ escapeHTML t))
      with (r ← decode_text (escapeHTML t); Some (60 :: r)).
    destruct IHt as [d ->]. by eexists.
  - change (decode_text (str "&gt;" ++ escapeHTML t))
      with (r ← decode_text (escapeHTML t); Some (62 :: r)).
    destruct IHt as [d ->]. by eexists.
  - simpl app. destruct (Z.eq_dec c 0) as [->|Hc0]; [exact IHt|].
    destruct (Z.eq_dec c 13) as [->|Hc13].
    + simpl. pose proof (escapeHTML_head t) as Hh.
      destruct (escapeHTML t) as [|d e] eqn:E; [by eexists|].
      destruct (Z.eqb_spec d 10) as [->|Hd].
      * destruct Hh as [?|[t' ->]]; [done|].
        rewrite escapeHTML_cons in E. injection E as <-.
        destruct (IH (length t') ltac:(simpl in Hn; lia) t' eq_refl) as [r ->].
        by eexists.
      * destruct IHt as [r ->]. by eexists.
    + rewrite decode_text_plain by done. destruct IHt as [d ->]. by eexists.
Qed.

Lemma escapeHTML_not_lt (t : jstring) : Forall (fun c => not_lt c = true) (escapeHTML t).
Proof.
  induction t as [|c t IH]; [constructor|]. rewrite escapeHTML_cons.
  apply Forall_app. split; [|done].
  destruct (escape_html_char_cases c) as [[-> ->]|[[-> ->]|[[-> ->]|(? & ? & ? & ->)]]];
    repeat constructor.
  unfold not_lt. by destruct (Z.eqb_spec c 60).
Qed.

Lemma escapeHTML_nonempty (t : jstring) : t <> [] -> escapeHTML t <> [].
Proof.
  destruct t as [|c t]; [done|]. intros _. rewrite escapeHTML_cons.
  destruct (escape_html_char_cases c) as [[-> ->]|[[-> ->]|[[-> ->]|(? & ? & ? & ->)]]];
    done.
Qed.

(** *** Markup *)

Lemma parse_nodes_cons_text (fuel : nat) (c : Z) (t : jstring) :
  (c =? 60) = false ->
  parse_nodes (S fuel) (c :: t)
  = let '(raw, r) := span not_lt (c :: t) in
    data ← decode_text raw;
    rest ← parse_nodes fuel r;
    Some (match data with
          | [] => rest.1
          | _ => TextNode data :: rest.1
          end, rest.2).
Proof. intros H. cbn [parse_nodes]. by rewrite H. Qed.

Lemma parse_nodes_cons_element (fuel : nat) (d : Z) (t : jstring) :
  is_alpha d = true ->
  parse_nodes (S fuel) (60 :: d :: t)
  = let '(tag, r) := span is_tag_char (d :: t) in
    a ← parse_attrs fuel r;
    inner ← parse_nodes fuel a.2;
    r3 ← after_prefix (str "</" ++ tag ++ str ">") inner.2;
    rest ← parse_nodes fuel r3;
    Some (Element tag a.1 inner.1 :: rest.1, rest.2).
Proof.
  intros H. cbn [parse_nodes]. change (60 =? 60) with true. cbv iota.
  assert ((d =? 47) = false) as -> by (unfold is_alpha, in_range in H; lia).
  by rewrite H.
Qed.

Lemma parse_nodes_end_tag (fuel : nat) (t : jstring) :
  parse_nodes (S fuel) (60 :: 47 :: t) = Some ([], 60 :: 47 :: t).
Proof. reflexivity. Qed.

(** A run of character data, followed by a tag or by nothing. *)
Lemma parse_nodes_text (fuel : nat) (t x : jstring) :
  match x with c :: _ => c = 60 | [] => True end ->
  t <> [] ->
  parse_nodes (S fuel) (escapeHTML t ++ x)
  = data ← decode_text (escapeHTML t);
    rest ← parse_nodes fuel x;
    Some (match data with
          | [] => rest.1
          | _ => TextNode data :: rest.1
          end, rest.2).
Proof.
  intros Hx Ht.
  pose proof (escapeHTML_not_lt t) as Hlt.
  pose proof (escapeHTML_nonempty t Ht) as Hne.
  destruct (escapeHTML t) as [|c e] eqn:E; [done|].
  assert (Hc : (c =? 60) = false).
  { apply Forall_cons in Hlt as [Hc _]. unfold not_lt in Hc. by apply negb_true_iff in Hc. }
  rewrite <- app_comm_cons, parse_nodes_cons_text by done.
  rewrite app_comm_cons, span_app; [done|done|].
  destruct x as [|d x']; [done|]. subst d. reflexivity.
Qed.

Lemma attr_safe_spec (v : jstring) :
  Forall (fun c => attr_safe c = true) v ->
  Forall (fun c => not_quote c = true) v /\ attr_value_ok v = true.
Proof.
  intros H. split.
  - eapply Forall_impl; [exact H|]. intros c Hc. unfold attr_safe, not_quote in *. lia.
  - unfold attr_value_ok. apply forallb_forall. intros c Hc.
    rewrite Forall_forall in H. apply list_elem_of_In, H in Hc.
    unfold attr_safe in Hc. lia.
Qed.

Lemma parse_attrs_S (fuel : nat) (s : jstring) :
  parse_attrs (S fuel) s
  = match skip_ascii_ws s with
    | [] => None
    | c :: t =>
        if c =? 62 then Some ([], t)
        else
          let '(name, r) := span is_attr_name_char (c :: t) in
          if bool_decide (name = []) then None
          else
            r1 ← after_prefix [61; 34] r;
            let '(value, r2) := span not_quote r1 in
            r3 ← after_prefix [34] r2;
            if attr_value_ok value then
              rest ← parse_attrs fuel r3;
              Some ((name, value) :: rest.1, rest.2)
            else None
    end.
Proof. reflexivity. Qed.

Lemma parse_attrs_pair (fuel : nat) (n v x : jstring) :
  n <> [] ->
  Forall (fun c => is_attr_name_char c = true) n ->
  Forall (fun c => attr_safe c = true) v ->
  parse_attrs (S fuel) (32 :: n ++ 61 :: 34 :: v ++ 34 :: x)
  = rest ← parse_attrs fuel x; Some ((n, v) :: rest.1, rest.2).
Proof.
  intros Hne Hname Hv. destruct (attr_safe_spec v Hv) as [Hq Hok].
  rewrite parse_attrs_S.
  change (skip_ascii_ws (32 :: n ++ 61 :: 34 :: v ++ 34 :: x))
    with (skip_ascii_ws (n ++ 61 :: 34 :: v ++ 34 :: x)).
  destruct n as [|c n'] eqn:E; [done|]. rewrite <- E in *.
  pose proof Hname as Hname'. rewrite E in Hname'. apply Forall_cons in Hname' as [Hc _].
  assert (Hws : is_ascii_ws c = false /\ (c =? 62) = false).
  { unfold is_attr_name_char, is_alpha, is_digit, in_range, is_ascii_ws in *. lia. }
  destruct Hws as [Hws H62].
  assert (Hskip : skip_ascii_ws (n ++ 61 :: 34 :: v ++ 34 :: x)
                  = c :: n' ++ 61 :: 34 :: v ++ 34 :: x).
  { rewrite E, <- app_comm_cons. cbn [skip_ascii_ws]. by rewrite Hws. }
  rewrite Hskip, H62. rewrite app_comm_cons, <- E.
  rewrite span_app; [|done|done].
  rewrite bool_decide_eq_false_2 by done.
  change (61 :: 34 :: v ++ 34 :: x) with ([61; 34] ++ v ++ 34 :: x).
  rewrite after_prefix_app. cbn [mbind option_bind].
  rewrite span_app; [|done|done].
  change (34 :: x) with ([34] ++ x). rewrite after_prefix_app. cbn [mbind option_bind].
  by rewrite Hok.
Qed.

(** One attribute written by [html_attr]. *)
Lemma parse_attrs_attr (fuel : nat) (name : string) (v x : jstring) :
  str name <> [] ->
  Forall (fun c => is_attr_name_char c = true) (str name) ->
  Forall (fun c => attr_safe c = true) v ->
  parse_attrs (S fuel) (html_attr name v ++ x)
  = rest ← parse_attrs fuel x; Some ((str name, v) :: rest.1, rest.2).
Proof.
  intros Hne Hname Hv. rewrite <- parse_attrs_pair by done.
  unfold html_attr. by rewrite <- !app_assoc.
Qed.

Lemma parse_attrs_end (fuel : nat) (x : jstring) :
  parse_attrs (S fuel) (str ">" ++ x) = Some ([], x).
Proof. reflexivity. Qed.

Lemma visit_token_element (i : Z) (token blockId : jstring) (color : Color.t)
    (label_nodes : list Node) :
  visit (token_element i token blockId color label_nodes) = decodeAttr token.
Proof. reflexivity. Qed.

Lemma parse_nodes_label (fuel : nat) (label x : jstring) :
  exists label_nodes,
    parse_nodes (S (S fuel)) (escapeHTML label ++ str "</span>" ++ x)
    = Some (label_nodes, str "</span>" ++ x).
Proof.
  destruct label as [|c l].
  - eexists. reflexivity.
  - rewrite parse_nodes_text; [|exact eq_refl|done].
    destruct (decode_text_escapeHTML_total (c :: l)) as [d ->].
    eexists. reflexivity.
Qed.

(** The markup of a token widget spells one element. *)
Lemma parse_nodes_token (fuel : nat) (i : Z) (token blockId : jstring) (color : Color.t)
    (label x : jstring) :
  Forall (fun c => attr_safe c = true) (number_to_string i) ->
  Forall (fun c => attr_safe c = true) token ->
  Forall (fun c => attr_safe c = true) blockId ->
  Forall (fun c => attr_safe c = true) (token_style color) ->
  (12 <= fuel)%nat ->
  exists label_nodes,
    parse_nodes (S fuel) (token_span i token blockId color label ++ x)
    = rest ← parse_nodes fuel x;
      Some (token_element i token blockId color label_nodes :: rest.1, rest.2).
Proof.
  intros Hi Htok Hbid Hstyle Hfuel.
  do 12 (destruct fuel as [|fuel]; [lia|]). clear Hfuel.
  destruct (parse_nodes_label (S (S (S (S (S (S (S (S (S fuel))))))))) label
              (str "</span>" ++ x))
    as [label_nodes Hlabel].
  exists label_nodes.
  unfold token_span. rewrite <- !app_assoc.
  (* the outer start tag *)
  match goal with
  | |- parse_nodes _ (str "<span" ++ ?R) = _ =>
      change (str "<span" ++ R) with (60 :: 115 :: str "pan" ++ R);
      rewrite parse_nodes_cons_element by reflexivity;
      change (115 :: str "pan" ++ R) with (str "span" ++ R)
  end.
  rewrite span_app; [|repeat constructor|exact eq_refl].
  do 7 (rewrite parse_attrs_attr; [|done|repeat constructor|first [done|repeat constructor]]).
  rewrite parse_attrs_attr; [|done|repeat constructor|exact Hstyle].
  rewrite parse_attrs_end. cbn [mbind option_bind fst snd].
  (* the inner element *)
  match goal with
  | |- context [parse_nodes ?f (str "<span" ++ ?R)] =>
      change (str "<span" ++ R) with (60 :: 115 :: str "pan" ++ R);
      rewrite (parse_nodes_cons_element _ 115 (str "pan" ++ R)) by reflexivity;
      change (115 :: str "pan" ++ R) with (str "span" ++ R)
  end.
  rewrite span_app; [|repeat constructor|exact eq_refl].
  rewrite parse_attrs_attr; [|done|repeat constructor|repeat constructor].
  rewrite parse_attrs_end. cbn [mbind option_bind fst snd].
  rewrite Hlabel. cbn [mbind option_bind fst snd].
  change (str "</" ++ str "span" ++ str ">") with (str "</span>").
  rewrite after_prefix_app. cbn [mbind option_bind fst snd].
  change (str "</span>" ++ x) with (60 :: 47 :: str "span>" ++ x) at 1.
  rewrite parse_nodes_end_tag. cbn [mbind option_bind fst snd].
  change (60 :: 47 :: str "span>" ++ x) with (str "</span>" ++ x).
  rewrite after_prefix_app. cbn [mbind option_bind fst snd].
  reflexivity.
Qed.

(** *** What is written into attribute values *)

Lemma uint_chars_safe (d : Decimal.uint) : Forall (fun c => attr_safe c = true) (uint_chars d).
Proof. induction d; simpl; by repeat constructor. Qed.

Lemma number_to_string_safe (n : Z) :
  Forall (fun c => attr_safe c = true) (number_to_string n).
Proof.
  unfold number_to_string. destruct (Z.to_int n).
  - apply uint_chars_safe.
  - constructor; [reflexivity|apply uint_chars_safe].
Qed.

Lemma b64_char_safe (i : Z) : 0 <= i < 64 -> attr_safe (b64_char i) = true.
Proof.
  intros H.
  by apply (forall_below (fun i => attr_safe (b64_char i)) 64) in H.
Qed.

Lemma encodeAttr_safe (s a : jstring) :
  encodeAttr s = Some a -> Forall (fun c => attr_safe c = true) a.
Proof.
  unfold encodeAttr. destruct (encodeURIComponent s) as [e|]; [|done]. simpl.
  unfold btoa. destruct (forallb _ (unescape e)) eqn:Hb; [|done].
  intros [= <-]. apply Forall_app. split.
  - apply Forall_fmap. eapply Forall_impl.
    + apply sextets_range. apply Forall_forall. intros c Hc.
      rewrite forallb_forall in Hb. apply list_elem_of_In, Hb in Hc.
      unfold is_byte, in_range in *. lia.
    + intros x Hx. by apply b64_char_safe.
  - unfold padding. destruct (mod3_cases (length (unescape e))) as [E|[E|E]]; rewrite E;
      by repeat constructor.
Qed.

Lemma token_style_safe (id : jstring) (hue : option Z) :
  Forall (fun c => attr_safe c = true) (token_style (tokenColor id hue)).
Proof.
  unfold token_style, tokenColor. cbn [Color.bg Color.fg Color.bd].
  repeat (apply Forall_app; split); try apply number_to_string_safe;
    by repeat constructor.
Qed.

Lemma token_span_length (i : Z) (token blockId : jstring) (color : Color.t)
    (label : jstring) :
  (12 <= length (token_span i token blockId color label))%nat.
Proof.
  unfold token_span. rewrite !length_app.
  change (length (str "<span")) with 5%nat.
  change (length (html_attr "class" (str "block-token"))) with 20%nat. lia.
Qed.

(** *** The matches and the text between them *)

Lemma after_prefix_spec (p s r : jstring) : after_prefix p s = Some r -> s = p ++ r.
Proof.
  revert s. induction p as [|a p IH]; intros s H; simpl in H; [by injection H as ->|].
  destruct s as [|b s]; [done|]. destruct (Z.eqb_spec a b); [|done].
  subst. simpl. f_equal. by apply IH.
Qed.

Lemma span_spec (f : Z -> bool) (s a b : jstring) :
  span f s = (a, b) -> s = a ++ b /\ Forall (fun c => f c = true) a.
Proof.
  revert a b. induction s as [|c t IH]; intros a b H; simpl in H.
  - injection H as <- <-. by split.
  - destruct (f c) eqn:Hc.
    + destruct (span f t) as [a' b'] eqn:E. injection H as <- <-.
      destruct (IH a' b' eq_refl) as [-> Ha]. split; [done|by constructor].
    + injection H as <- <-. by split.
Qed.

Lemma match_token_spec (s id params rest : jstring) :
  match_token s = Some (id, params, rest) ->
  s = str "[[Block:" ++ id ++ params ++ str "]]" ++ rest
  /\ Forall (fun c => is_id_char c = true) id.
Proof.
  unfold match_token. intros H.
  destruct (after_prefix (str "[[Block:") s) as [s1|] eqn:E1; [|done].
  apply after_prefix_spec in E1. cbn [mbind option_bind] in H.
  destruct (span is_id_char s1) as [id' s2] eqn:E2.
  destruct (bool_decide (id' = [])); [done|].
  destruct (span not_rbracket s2) as [params' s3] eqn:E3.
  destruct (after_prefix (str "]]") s3) as [s4|] eqn:E4; [|done].
  apply after_prefix_spec in E4. cbn [mbind option_bind] in H. injection H as -> -> ->.
  apply span_spec in E2 as [-> Hid]. apply span_spec in E3 as [-> _].
  by subst.
Qed.

Lemma search_spec (s : jstring) (pos : Z) (m : RegExpMatch.t) (rest : jstring) :
  search s pos = Some (m, rest) ->
  exists t,
    s = t ++ RegExpMatch.m0 m ++ rest
    /\ RegExpMatch.index m = pos + len t
    /\ RegExpMatch.m0 m = str "[[Block:" ++ RegExpMatch.m1 m ++ RegExpMatch.m2 m ++ str "]]"
    /\ Forall (fun c => is_id_char c = true) (RegExpMatch.m1 m).
Proof.
  revert pos. induction s as [|c s IH]; intros pos H; rewrite search_eq in H.
  - destruct (match_token []) as [[[id params] r]|] eqn:E; [|done].
    apply match_token_spec in E as [E _]. done.
  - destruct (match_token (c :: s)) as [[[id params] r]|] eqn:E.
    + assert (Hm : m = RegExpMatch.mk pos (str "[[Block:" ++ id ++ params ++ str "]]")
                                      id params) by congruence.
      assert (Hr : rest = r) by congruence.
      subst m rest. apply match_token_spec in E as [E Hid].
      exists []. cbn [RegExpMatch.index RegExpMatch.m0 RegExpMatch.m1 RegExpMatch.m2].
      split; [by rewrite E, <- !app_assoc|]. split; [unfold len; simpl; lia|done].
    + destruct (IH (pos + 1) H) as (t & -> & Hi & Hm & Hid).
      exists (c :: t). split; [done|]. split; [|done].
      rewrite Hi. unfold len. simpl. lia.
Qed.

(** The match found is one the pattern allows, and its first group
    is as long as it can be. *)
Lemma match_token_sound (s id params rest : jstring) :
  match_token s = Some (id, params, rest) ->
  token_at s id params rest
  /\ match params with c :: _ => is_id_char c = false | [] => True end.
Proof.
  unfold match_token. intros H.
  destruct (after_prefix (str "[[Block:") s) as [s1|] eqn:E1; [|done].
  apply after_prefix_spec in E1. cbn [mbind option_bind] in H.
  destruct (span is_id_char s1) as [id' s2] eqn:E2.
  destruct (bool_decide_reflect (id' = [])) as [|Hne]; [done|].
  destruct (span not_rbracket s2) as [params' s3] eqn:E3.
  destruct (after_prefix (str "]]") s3) as [s4|] eqn:E4; [|done].
  apply after_prefix_spec in E4. cbn [mbind option_bind] in H.
  assert (id' = id /\ params' = params /\ s4 = rest) as (-> & -> & ->)
    by (split; [|split]; congruence).
  assert (Hlong : match params ++ s3 with
                  | c :: _ => is_id_char c = false
                  | [] => True
                  end).
  { apply span_spec in E3 as [<- _]. clear -E2.
    revert id E2. induction s1 as [|c t IH]; intros id E2; simpl in E2.
    - by injection E2 as <- <-.
    - destruct (is_id_char c) eqn:Hc.
      + destruct (span is_id_char t) as [a b] eqn:E. injection E2 as <- <-.
        by apply (IH a).
      + by injection E2 as <- <-. }
  apply span_spec in E2 as [-> Hid]. apply span_spec in E3 as [-> Hparams].
  split; [by subst|].
  destruct params as [|c params]; [done|exact Hlong].
Qed.

Lemma span_prefix (f : Z -> bool) (a rest : jstring) :
  Forall (fun c => f c = true) a ->
  span f (a ++ rest) = (a ++ (span f rest).1, (span f rest).2).
Proof.
  induction 1 as [|c a Hc Ha IH]; simpl.
  - by destruct (span f rest).
  - by rewrite Hc, IH.
Qed.

Lemma span_id_params (params x : jstring) :
  Forall (fun c => not_rbracket c = true) params ->
  exists a p, params = a ++ p
              /\ span is_id_char (params ++ 93 :: x) = (a, p ++ 93 :: x).
Proof.
  induction 1 as [|c t Hc Ht IH].
  - by exists [], [].
  - simpl. destruct (is_id_char c) eqn:E.
    + destruct IH as (a & p & -> & ->). by exists (c :: a), p.
    + by exists [], (c :: t).
Qed.

(** Every way of matching the pattern at the start of [s] ends where
    the match found ends, and differs from it only in where the first
    group stops: the greedy first group of the match found takes all the
    word characters and dashes there are. *)
Lemma match_token_complete (s id params rest : jstring) :
  token_at s id params rest ->
  exists a p, params = a ++ p /\ match_token s = Some (id ++ a, p, rest).
Proof.
  intros (-> & Hne & Hid & Hparams).
  destruct (span_id_params params (93 :: rest) Hparams) as (a & p & Hap & Hspan).
  exists a, p. split; [done|].
  unfold match_token. rewrite after_prefix_app. cbn [mbind option_bind].
  rewrite span_prefix by done.
  change (str "]]" ++ rest) with (93 :: 93 :: rest). rewrite Hspan. cbn [fst snd].
  rewrite bool_decide_eq_false_2 by (by destruct id).
  rewrite span_app.
  - change (93 :: 93 :: rest) with (str "]]" ++ rest). by rewrite after_prefix_app.
  - rewrite Hap in Hparams. by apply Forall_app in Hparams as [_ ?].
  - reflexivity.
Qed.

(** No match starts before the one [search] finds, and none at all
    when it finds none. *)
Lemma search_leftmost (s : jstring) (pos : Z) (m : RegExpMatch.t) (rest : jstring) :
  search s pos = Some (m, rest) ->
  forall k : nat, Z.of_nat k < RegExpMatch.index m - pos -> match_token (drop k s) = None.
Proof.
  revert pos. induction s as [|c s IH]; intros pos H k Hk; rewrite search_eq in H.
  - by destruct (match_token []) as [[[id params] r]|] eqn:E.
  - destruct (match_token (c :: s)) as [[[id params] r]|] eqn:E.
    + assert (RegExpMatch.index m = pos) by (injection H as <- _; done). lia.
    + destruct k as [|k]; [done|]. apply (IH (pos + 1) H). lia.
Qed.

Lemma search_none (s : jstring) (pos : Z) :
  search s pos = None -> forall k : nat, match_token (drop k s) = None.
Proof.
  revert pos. induction s as [|c s IH]; intros pos H k; rewrite search_eq in H.
  - rewrite drop_nil. by destruct (match_token []) as [[[id params] r]|].
  - destruct (match_token (c :: s)) as [[[id params] r]|] eqn:E; [done|].
    destruct k as [|k]; [done|]. by apply (IH (pos + 1)).
Qed.

(** A match is not empty, so the loop over the matches ends: the
    matches do not depend on the number of rounds allowed, from the
    length of the text on. *)
Lemma search_shorter (s : jstring) (pos : Z) (m : RegExpMatch.t) (rest : jstring) :
  search s pos = Some (m, rest) -> (length rest < length s)%nat.
Proof.
  intros H. destruct (search_spec _ _ _ _ H) as (t & -> & _ & -> & _).
  rewrite !length_app. simpl. lia.
Qed.

Lemma exec_loop_fuel (f1 f2 : nat) (s : jstring) (pos : Z) :
  (length s <= f1)%nat -> (length s <= f2)%nat ->
  exec_loop f1 s pos = exec_loop f2 s pos.
Proof.
  revert f2 s pos. induction f1 as [|f1 IH]; intros f2 s pos H1 H2.
  - destruct s; [|simpl in H1; lia]. by rewrite !exec_loop_nil.
  - destruct f2 as [|f2].
    { destruct s; [|simpl in H2; lia]. by rewrite !exec_loop_nil. }
    rewrite !exec_loop_S.
    destruct (search s pos) as [[m rest]|] eqn:E; [|done].
    apply search_shorter in E. f_equal. apply IH; lia.
Qed.

Lemma exec_all_eq (text : jstring) :
  exec_all text
  = match search text 0 with
    | None => []
    | Some (m, rest) =>
        m :: exec_loop (length rest) rest (RegExpMatch.index m + len (RegExpMatch.m0 m))
    end.
Proof.
  unfold exec_all. destruct text as [|c t] eqn:Et.
  - by rewrite exec_loop_nil.
  - rewrite <- Et. replace (length text) with (S (length t)) by (by subst).
    rewrite exec_loop_S.
    destruct (search text 0) as [[m rest]|] eqn:E; [|done].
    apply search_shorter in E. f_equal. apply exec_loop_fuel; subst; simpl in *; lia.
Qed.



(** *** Unpaired surrogates and pieces of a string *)

Lemma well_formed_tail (a b : jstring) :
  match b with c :: _ => is_low_surrogate c = false | [] => True end ->
  well_formed (a ++ b) = true -> well_formed b = true.
Proof.
  intros Hb. remember (length a) as n eqn:Hn. revert a Hn.
  induction n as [n IH] using lt_wf_ind. intros a Hn H.
  destruct a as [|c t]; [done|]. simpl in Hn.
  rewrite <- app_comm_cons in H. cbn [well_formed] in H.
  destruct (is_high_surrogate c).
  - destruct t as [|d t'].
    + simpl in H. destruct b as [|e b']; [done|].
      apply andb_true_iff in H as [H _]. congruence.
    + rewrite <- app_comm_cons in H. apply andb_true_iff in H as [_ H].
      apply (IH (length t') ltac:(simpl in Hn; lia) t' eq_refl H).
  - apply andb_true_iff in H as [_ H].
    apply (IH (length t) ltac:(lia) t eq_refl H).
Qed.

Lemma well_formed_split (a b : jstring) :
  match last a with Some c => is_high_surrogate c = false | None => True end ->
  well_formed (a ++ b) = true -> well_formed a = true /\ well_formed b = true.
Proof.
  remember (length a) as n eqn:Hn. revert a Hn.
  induction n as [n IH] using lt_wf_ind. intros a Hn Hlast H.
  destruct a as [|c t]; [done|]. simpl in Hn.
  rewrite <- app_comm_cons in H. cbn [well_formed] in *.
  destruct (is_high_surrogate c) eqn:Hc.
  - destruct t as [|d t']; [simpl in Hlast; congruence|].
    rewrite <- app_comm_cons in H. apply andb_true_iff in H as [Hd H].
    rewrite Hd. simpl.
    apply (IH (length t') ltac:(simpl in Hn; lia) t' eq_refl); [|done].
    destruct t' as [|e t'']; [done|]. exact Hlast.
  - apply andb_true_iff in H as [Hl H]. rewrite Hl. simpl.
    apply (IH (length t) ltac:(lia) t eq_refl); [|done].
    destruct t as [|e t'']; [done|]. exact Hlast.
Qed.

Lemma id_chars_ascii (id : jstring) :
  Forall (fun c => is_id_char c = true) id -> valid_string id /\ well_formed id = true.
Proof.
  induction 1 as [|c t Hc Ht [IH1 IH2]]; [split; [constructor|reflexivity]|].
  assert (0 <= c < 128) by (unfold is_id_char, is_word, is_digit, in_range in Hc; lia).
  split; [constructor; [lia|done]|].
  cbn [well_formed].
  assert (is_high_surrogate c = false /\ is_low_surrogate c = false) as [-> ->]
    by (unfold is_high_surrogate, is_low_surrogate, in_range; lia).
  done.
Qed.

(** *** Rendering, then reading back *)

Lemma textFromEditor_cons (n : Node) (l : list Node) :
  textFromEditor (n :: l) = visit n ++ textFromEditor l.
Proof. reflexivity. Qed.

Lemma join_nil_concat (l : list jstring) : join [] l = concat l.
Proof.
  induction l as [|x t IH]; [done|].
  destruct t as [|y t']; [simpl; by rewrite app_nil_r|].
  rewrite join_cons2, IH. reflexivity.
Qed.

Lemma len_lt_app (pre s : jstring) : (len pre <? len (pre ++ s)) = negb (bool_decide (s = [])).
Proof.
  rewrite len_app. destruct s as [|c s'].
  - simpl. unfold len at 2. simpl. rewrite Z.add_0_r. apply Z.ltb_irrefl.
  - simpl. apply Z.ltb_lt. unfold len. simpl. lia.
Qed.

Lemma tail_parts (text pre s : jstring) (parts : list jstring) :
  text = pre ++ s ->
  (if len pre <? len text
   then parts ++ [escapeHTML (slice_from text (len pre))]
   else parts)
  = parts ++ text_parts s.
Proof.
  intros ->.
  rewrite len_lt_app. unfold slice_from, len. rewrite Nat2Z.id, drop_app_length.
  destruct s; simpl; by rewrite ?app_nil_r.
Qed.

Lemma slice_parts (text pre t rest : jstring) (parts : list jstring) :
  text = pre ++ t ++ rest ->
  (if len pre <? len pre + len t
   then parts ++ [escapeHTML (slice text (len pre) (len pre + len t))]
   else parts)
  = parts ++ text_parts t.
Proof.
  intros ->. unfold slice, len.
  replace (Z.to_nat (Z.of_nat (length pre) + Z.of_nat (length t) - Z.of_nat (length pre)))
    with (length t) by lia.
  rewrite Nat2Z.id, drop_app_length, take_app_length.
  destruct t as [|c t'].
  - simpl. rewrite Z.add_0_r, Z.ltb_irrefl. by rewrite app_nil_r.
  - assert ((Z.of_nat (length pre) <? Z.of_nat (length pre) + Z.of_nat (length (c :: t')))
            = true) as -> by (apply Z.ltb_lt; simpl; lia).
    reflexivity.
Qed.

(** A run of plain text is read back from its part. *)
Lemma parse_text_parts (t x : jstring) (F : nat) :
  plain_text t ->
  match x with c :: _ => c = 60 | [] => True end ->
  parse_nodes (S F) (concat (text_parts t) ++ x)
  = if bool_decide (t = []) then parse_nodes (S F) x
    else rest ← parse_nodes F x; Some (TextNode t :: rest.1, rest.2).
Proof.
  intros Hp Hx. destruct t as [|c t']; [done|].
  rewrite bool_decide_eq_false_2 by done.
  unfold text_parts. cbn [concat]. rewrite app_nil_r.
  rewrite parse_nodes_text by done.
  rewrite decode_text_escapeHTML by done. reflexivity.
Qed.

Lemma parse_tail (s : jstring) (F : nat) :
  plain_text s -> (length (concat (text_parts s)) < F)%nat ->
  exists nodes, parse_nodes F (concat (text_parts s)) = Some (nodes, [])
                /\ textFromEditor nodes = s.
Proof.
  intros Hp HF. destruct F as [|F]; [lia|].
  rewrite <- (app_nil_r (concat _)), parse_text_parts by done.
  destruct s as [|c s'].
  - exists []. by split.
  - rewrite bool_decide_eq_false_2 by done.
    assert (Hlen : (1 <= length (concat (text_parts (c :: s'))))%nat).
    { unfold text_parts. cbn [concat]. rewrite app_nil_r.
      pose proof (escapeHTML_nonempty (c :: s') ltac:(done)).
      destruct (escapeHTML (c :: s')); [done|simpl; lia]. }
    destruct F as [|F]; [lia|].
    exists [TextNode (c :: s')]. split; [reflexivity|].
    rewrite textFromEditor_cons. simpl. by rewrite app_nil_r.
Qed.

Section editor.
Variable blocks : list Block.t.
Variable text : jstring.

(** The parts rendered for the text [s] that follows [pre], and the
    tree read from them. *)
Lemma render_loop_suffix (fuel : nat) :
  forall (s pre : jstring) (i : Z) (parts : list jstring),
    text = pre ++ s ->
    valid_string s -> well_formed s = true -> plain_text s ->
    exists hs,
      render_loop blocks text (exec_loop fuel s (len pre)) (len pre) i parts
      = Some (parts ++ hs)
      /\ forall F, (length (concat hs) < F)%nat ->
           exists nodes, parse_nodes F (concat hs) = Some (nodes, [])
                         /\ textFromEditor nodes = s.
Proof.
  assert (Htail : forall (s pre : jstring) (i : Z) (parts : list jstring),
             text = pre ++ s -> plain_text s ->
             exists hs,
               render_loop blocks text [] (len pre) i parts = Some (parts ++ hs)
               /\ forall F, (length (concat hs) < F)%nat ->
                    exists nodes, parse_nodes F (concat hs) = Some (nodes, [])
                                  /\ textFromEditor nodes = s).
  { intros s pre i parts Hs Hp. exists (text_parts s). split.
    - cbn [render_loop]. by rewrite (tail_parts text pre s).
    - intros F HF. by apply parse_tail. }
  induction fuel as [|fuel IH]; intros s pre i parts Htext Hv Hwf Hp.
  { by apply Htail. }
  rewrite exec_loop_S.
  destruct (search s (len pre)) as [[m rest]|] eqn:Es; [|by apply Htail].
  destruct (search_spec _ _ _ _ Es) as (t & Hs & Hi & Hm0 & Hid).
  set (m0 := RegExpMatch.m0 m) in *. set (id := RegExpMatch.m1 m) in *.
  (* the three pieces of [s] *)
  assert (Hv3 : valid_string t /\ valid_string m0 /\ valid_string rest).
  { unfold valid_string in *. rewrite Hs in Hv. by rewrite !Forall_app in Hv. }
  assert (Hp3 : plain_text t /\ plain_text rest).
  { unfold plain_text in *. rewrite Hs in Hp. rewrite !Forall_app in Hp. tauto. }
  assert (Hwf3 : well_formed m0 = true /\ well_formed rest = true).
  { rewrite Hs, app_assoc in Hwf.
    apply well_formed_split in Hwf as [Hwf1 Hwf2].
    - split; [|done]. apply (well_formed_tail t); [|done].
      by rewrite Hm0.
    - rewrite Hm0. change (str "]]") with ([93] ++ [93]).
      rewrite !app_assoc. by rewrite last_snoc. }
  destruct Hv3 as (Hvt & Hvm & Hvr). destruct Hp3 as [Hpt Hpr].
  destruct Hwf3 as [Hwfm Hwfr].
  (* the token *)
  destruct (encodeAttr_decode m0 Hvm Hwfm) as (tok & Etok & Htok).
  destruct (id_chars_ascii id Hid) as [Hvid Hwfid].
  destruct (encodeAttr_decode id Hvid Hwfid) as (bid & Ebid & _).
  set (color := tokenColor id (find_block blocks id
                                 ≫= fun blk => BlockDef.hue (Block.def blk))).
  assert (Hpart : token_part blocks i m
                  = Some (token_span i tok bid color (token_label blocks id))).
  { unfold token_part. fold m0 id. by rewrite Etok, Ebid. }
  (* the rest of the text *)
  destruct (IH rest (pre ++ t ++ m0) (i + 1) ((parts ++ text_parts t)
              ++ [token_span i tok bid color (token_label blocks id)]))
    as (hs & Hrender & Hparse); [by rewrite Htext, Hs, <- !app_assoc|done..|].
  exists (text_parts t ++ [token_span i tok bid color (token_label blocks id)] ++ hs).
  split.
  - cbn [render_loop]. rewrite Hpart. cbn [mbind option_bind]. fold m0.
    rewrite Hi. rewrite (slice_parts text pre t (m0 ++ rest)) by (by rewrite Htext, Hs).
    replace (len pre + len t + len m0) with (len (pre ++ t ++ m0))
      by (rewrite !len_app; lia).
    rewrite Hrender. by rewrite <- !app_assoc.
  - intros F HF. rewrite !concat_app in HF |- *. cbn [concat] in HF |- *.
    rewrite app_nil_r in HF |- *. rewrite !length_app in HF.
    pose proof (token_span_length i tok bid color (token_label blocks id)) as Hlen.
    assert (Htoken : forall F', (12 <= F')%nat -> (length (concat hs) < F')%nat ->
               exists nodes,
                 parse_nodes (S F') (token_span i tok bid color (token_label blocks id)
                                     ++ concat hs) = Some (nodes, [])
                 /\ textFromEditor nodes = m0 ++ rest).
    { intros F' H12 HF'.
      destruct (parse_nodes_token F' i tok bid color (token_label blocks id) (concat hs))
        as [label_nodes ->];
        [apply number_to_string_safe|by eapply encodeAttr_safe..
        |apply token_style_safe|done|].
      destruct (Hparse F' HF') as (nodes & -> & Hnodes).
      eexists. split; [reflexivity|]. cbn [fst].
      rewrite textFromEditor_cons, visit_token_element, Htok, Hnodes. done. }
    destruct F as [|F]; [lia|].
    rewrite parse_text_parts; [|done|exact eq_refl].
    destruct (bool_decide_reflect (t = [])) as [->|Hne].
    + destruct (Htoken F) as (nodes & -> & Hnodes); [simpl in HF; lia..|].
      exists nodes. split; [done|]. by rewrite Hs.
    + assert (1 <= length (concat (text_parts t)))%nat.
      { destruct t as [|c t']; [done|]. unfold text_parts. cbn [concat].
        rewrite app_nil_r.
        pose proof (escapeHTML_nonempty (c :: t') ltac:(done)).
        destruct (escapeHTML (c :: t')); [done|simpl; lia]. }
      destruct F as [|F]; [lia|].
      destruct (Htoken F) as (nodes & -> & Hnodes); [lia..|].
      eexists. split; [reflexivity|]. cbn [fst].
      rewrite textFromEditor_cons, Hnodes, Hs. done.
Qed.

(** C4, amended: for a string of code units without unpaired
    surrogate, NUL and carriage return, rendering does not throw, the
    markup is read as a tree, and the text read back from the tree is
    the string itself. *)
Theorem textFromEditor_renderPromptHTML :
  valid_string text -> well_formed text = true -> plain_text text ->
  exists html nodes,
    renderPromptHTML blocks text = Some html
    /\ innerHTML html = Some nodes
    /\ textFromEditor nodes = text.
Proof.
  intros Hv Hwf Hp.
  destruct (render_loop_suffix (length text) text [] 0 []) as (hs & Hrender & Hparse);
    [done..|].
  destruct (Hparse (S (length (concat hs))) ltac:(lia)) as (nodes & Hnodes & Htext).
  exists (concat hs), nodes. split; [|split; [|done]].
  - unfold renderPromptHTML, exec_all. change 0 with (len (@nil Z)) at 1 2.
    rewrite Hrender. simpl. by rewrite join_nil_concat.
  - unfold innerHTML. rewrite Hnodes. reflexivity.
Qed.
End editor.

Lemma textFromEditor_renderPromptHTML_witness :
  let blocks := [Block.mk (BlockDef.mk (str "blk_a") (str "Fade <in>") [] (Some 200))
                          (Project.mk [] (str "MyComp") 1920 1080 30 180)] in
  let text := str "Hi <b> & [[Block:blk_a n=1]] then [[Block:zz]] end" in
  exists html nodes,
    renderPromptHTML blocks text = Some html
    /\ innerHTML html = Some nodes
    /\ textFromEditor nodes = text.
Proof.
  intros blocks text. apply textFromEditor_renderPromptHTML.
  - repeat constructor; lia.
  - reflexivity.
  - apply (bool_decide_unpack _). vm_compute. exact I.
Defined.

(** C4 as stated fails on a token that holds an unpaired surrogate:
    [encodeAttr] throws while the token is rendered, so there is no tree
    to read the text back from. *)
Lemma renderPromptHTML_lone_surrogate :
  let text := str "[[Block:a " ++ [0xD800] ++ str "]]" in
  valid_string text
  /\ renderPromptHTML [] text = None
  /\ ~ (exists html nodes,
          renderPromptHTML [] text = Some html
          /\ innerHTML html = Some nodes
          /\ textFromEditor nodes = text).
Proof.
  intros text.
  assert (H : renderPromptHTML [] text = None) by reflexivity.
  split; [repeat constructor; lia|]. split; [exact H|].
  intros (html & nodes & Hr & _). rewrite H in Hr. discriminate.
Qed.

(** It also fails on text with a carriage return or a NUL character:
    the tree holds a line feed for a carriage return, and no NUL. *)
Lemma editor_roundtrip_carriage_return :
  editor_roundtrip [] (str "a" ++ [13] ++ str "b") = Some (str "a" ++ [10] ++ str "b")
  /\ editor_roundtrip [] (str "a" ++ [13; 10] ++ str "b") = Some (str "a" ++ [10] ++ str "b")
  /\ editor_roundtrip [] (str "a" ++ [0] ++ str "b") = Some (str "ab").
Proof. vm_compute. repeat split; reflexivity. Qed.

(* ===================================================================== *)
(** * Part III: further properties                                        *)
(* ===================================================================== *)

(** ** Moving, removing and editing segments *)

Lemma splice_insert_perm {A} (l : list A) (k : Z) (x : A) :
  splice_insert l k x ≡ₚ x :: l.
Proof.
  unfold splice_insert. set (n := Z.to_nat _).
  rewrite <- Permutation_middle. by rewrite take_drop.
Qed.

Lemma splice_delete1_perm {A} (l : list A) (k : Z) :
  (splice_delete1 l k).1 ++ (splice_delete1 l k).2 ≡ₚ l.
Proof.
  unfold splice_delete1. cbn [fst snd]. set (n := Z.to_nat _).
  destruct (l !! n) as [x|] eqn:E.
  - rewrite (drop_S l x n E). cbn [take]. rewrite take_0.
    rewrite <- (take_drop_middle l n x E) at 3.
    by rewrite <- Permutation_middle.
  - apply lookup_ge_None in E.
    rewrite !drop_ge by lia. cbn [take app]. rewrite (take_ge l n) by lia.
    by rewrite app_nil_r.
Qed.

(** X1: moving a segment never loses and never duplicates a segment,
    whatever the target index is. *)
Theorem moveSegment_permutation (segId : jstring) (index : Z) (prev : list PromptSeg) :
  moveSegment segId index prev ≡ₚ prev.
Proof.
  unfold moveSegment.
  destruct (findIndex _ prev =? -1); [done|].
  pose proof (splice_delete1_perm prev (findIndex (fun s => str_eqb (seg_id s) segId) prev))
    as Hperm.
  destruct (splice_delete1 prev _) as [removed next] eqn:E. cbn [fst snd] in Hperm.
  destruct removed as [|seg rest].
  - exact Hperm.
  - assert (rest = []) as ->.
    { unfold splice_delete1 in E. injection E as E _.
      destruct (drop _ prev) as [|y t]; [done|].
      cbn [take] in E. rewrite take_0 in E. congruence. }
    rewrite splice_insert_perm. exact Hperm.
Qed.

Lemma splice_insert_delete {A} (l : list A) (j : nat) (x : A) :
  l !! j = Some x -> splice_insert (delete j l) (Z.of_nat j) x = l.
Proof.
  intros Hj. assert (Hlt : (j < length l)%nat) by (eapply lookup_lt_Some; eauto).
  unfold splice_insert.
  rewrite splice_start_in_range by (unfold len; rewrite length_delete by eauto; lia).
  rewrite Nat2Z.id. rewrite delete_take_drop.
  rewrite take_app_le by (rewrite length_take; lia).
  rewrite take_take, Nat.min_id.
  rewrite drop_app_ge by (rewrite length_take; lia).
  rewrite length_take, Nat.min_l, Nat.sub_diag, drop_0 by lia.
  rewrite <- (take_drop_middle l j x Hj) at 3. reflexivity.
Qed.

(** X2: a segment dropped on the zone just before it or just after it
    stays where it is. *)
Theorem moveSegment_same_place (segId : jstring) (index : Z) (prev : list PromptSeg)
    (from : nat) (seg : PromptSeg) :
  prev !! from = Some seg ->
  seg_id seg = segId ->
  (forall k s, (k < from)%nat -> prev !! k = Some s -> seg_id s <> segId) ->
  index = Z.of_nat from \/ index = Z.of_nat from + 1 ->
  moveSegment segId index prev = prev.
Proof.
  intros Hfrom Hid Hfirst Hindex.
  rewrite (moveSegment_found segId index prev from seg Hfrom Hid Hfirst).
  replace (if Z.of_nat from <? index then index - 1 else index) with (Z.of_nat from).
  - by apply splice_insert_delete.
  - destruct Hindex as [-> | ->].
    + by rewrite Z.ltb_irrefl.
    + destruct (Z.ltb_spec (Z.of_nat from) (Z.of_nat from + 1)); lia.
Qed.

Lemma moveSegment_same_place_witness :
  let a := TextSeg (str "id_0") (str "a") in
  let b := BlockSeg (str "id_1") (str "blk") ∅ None None in
  let c := TextSeg (str "id_2") (str "c") in
  moveSegment (str "id_1") 2 [a; b; c] = [a; b; c].
Proof.
  intros a b c. apply (moveSegment_same_place (str "id_1") 2 [a; b; c] 1 b).
  - reflexivity.
  - reflexivity.
  - intros k s Hk Hs. destruct k as [|k]; [|lia]. injection Hs as <-. by vm_compute.
  - right. reflexivity.
Defined.

Lemma merge_step_text (l : list PromptSeg) (i v j v' : jstring) :
  merge_step (l ++ [TextSeg i v]) (TextSeg j v') = l ++ [TextSeg i (v ++ v')].
Proof.
  unfold merge_step. rewrite last_snoc, length_app. simpl.
  rewrite Nat.add_1_r. simpl.
  replace (length l) with (length l + 0)%nat by lia.
  by rewrite insert_app_r.
Qed.

Lemma merge_step_cases (merged : list PromptSeg) (s : PromptSeg) :
  (exists l i v j v', merged = l ++ [TextSeg i v] /\ s = TextSeg j v'
                      /\ merge_step merged s = l ++ [TextSeg i (v ++ v')])
  \/ (merge_step merged s = merged ++ [s]
      /\ match last merged with
         | Some y => is_text y && is_text s = false
         | None => True
         end).
Proof.
  destruct (last merged) as [y|] eqn:Hlast.
  - pose proof Hlast as Hl. apply last_Some in Hl as [l ->].
    destruct y as [i v|i b vs cu cd], s as [j v'|j b' vs' cu' cd'].
    + left. exists l, i, v, j, v'. split; [done|]. split; [done|]. apply merge_step_text.
    + right. unfold merge_step. by rewrite Hlast.
    + right. unfold merge_step. by rewrite Hlast.
    + right. unfold merge_step. by rewrite Hlast.
  - right. unfold merge_step. by rewrite Hlast.
Qed.

Lemma segments_text_app (a b : list PromptSeg) :
  segments_text (a ++ b) = segments_text a ++ segments_text b.
Proof. unfold segments_text. by rewrite flat_map_app. Qed.

Lemma block_segments_app (a b : list PromptSeg) :
  block_segments (a ++ b) = block_segments a ++ block_segments b.
Proof. unfold block_segments. apply List.filter_app. Qed.

Lemma merge_step_content (merged : list PromptSeg) (s : PromptSeg) :
  segments_text (merge_step merged s) = segments_text (merged ++ [s])
  /\ block_segments (merge_step merged s) = block_segments (merged ++ [s])
  /\ (forall x, x ∈ merge_step merged s ->
        exists y, y ∈ merged ++ [s] /\ seg_id x = seg_id y).
Proof.
  destruct (merge_step_cases merged s)
    as [(l & i & v & j & v' & -> & -> & ->)|[-> _]].
  - rewrite !segments_text_app, !block_segments_app. simpl.
    rewrite !app_nil_r, <- !app_assoc. split; [done|]. split; [done|].
    intros x Hx. apply elem_of_app in Hx as [Hx|Hx].
    + exists x. split; [|done]. rewrite !elem_of_app. by left.
    + apply list_elem_of_singleton in Hx as ->. exists (TextSeg i v).
      split; [|done]. rewrite !elem_of_app. right. left. by constructor.
  - split; [done|]. split; [done|]. intros x Hx. by exists x.
Qed.

Lemma merge_loop_content (next merged : list PromptSeg) :
  segments_text (fold_left merge_step next merged) = segments_text (merged ++ next)
  /\ block_segments (fold_left merge_step next merged) = block_segments (merged ++ next)
  /\ (forall x, x ∈ fold_left merge_step next merged ->
        exists y, y ∈ merged ++ next /\ seg_id x = seg_id y).
Proof.
  revert merged. induction next as [|s t IH]; intros merged.
  - rewrite app_nil_r. split; [done|]. split; [done|]. intros x Hx. by exists x.
  - cbn [fold_left]. destruct (IH (merge_step merged s)) as (Ht & Hb & Hi).
    destruct (merge_step_content merged s) as (Ht' & Hb' & Hi').
    rewrite Ht, Hb. rewrite !segments_text_app, !block_segments_app, Ht', Hb'.
    rewrite !segments_text_app, !block_segments_app.
    change (s :: t) with ([s] ++ t).
    rewrite !segments_text_app, !block_segments_app, <- !app_assoc.
    split; [done|]. split; [done|].
    intros x Hx. destruct (Hi x Hx) as (y & Hy & Hxy).
    apply elem_of_app in Hy as [Hy|Hy].
    + destruct (Hi' y Hy) as (z & Hz & Hyz). exists z. split; [|congruence].
      rewrite app_assoc. apply elem_of_app. by left.
    + exists y. split; [|done]. rewrite app_assoc. apply elem_of_app. by right.
Qed.

(** X3: whatever the list was, after a removal it is not empty, holds
    no two adjacent text segments, and (the fresh identifier apart) no
    segment with the removed identifier. *)
Theorem removeSeg_invariant (id fresh : jstring) (prev : list PromptSeg) :
  seg_inv (removeSeg id fresh prev)
  /\ (fresh <> id -> forall s, s ∈ removeSeg id fresh prev -> seg_id s <> id).
Proof.
  split; [apply removeSeg_inv|].
  intros Hfresh s Hs. unfold removeSeg in Hs.
  set (next := filter _ prev) in Hs.
  assert (Hmerged : forall x, x ∈ fold_left merge_step next [] -> seg_id x <> id).
  { intros x Hx. destruct (merge_loop_content next []) as (_ & _ & Hi).
    destruct (Hi x Hx) as (y & Hy & ->). simpl in Hy.
    apply list_elem_of_filter in Hy as [Hy _].
    apply Is_true_true in Hy. apply negb_true_iff in Hy.
    unfold str_eqb in Hy. by apply bool_decide_eq_false in Hy. }
  destruct (len (fold_left merge_step next []) =? 0); [|by apply Hmerged].
  apply elem_of_app in Hs as [Hs|Hs]; [by apply Hmerged|].
  apply list_elem_of_singleton in Hs as ->. exact Hfresh.
Qed.

Lemma removeSeg_invariant_witness :
  let prev := [TextSeg (str "id_0") (str "a");
               BlockSeg (str "id_1") (str "blk") ∅ None None;
               TextSeg (str "id_2") (str "b")] in
  seg_inv (removeSeg (str "id_1") (str "id_9") prev)
  /\ Forall (fun s => seg_id s <> str "id_1") (removeSeg (str "id_1") (str "id_9") prev).
Proof.
  intros prev.
  destruct (removeSeg_invariant (str "id_1") (str "id_9") prev) as [Hinv Hid].
  split; [exact Hinv|]. apply Forall_forall, Hid. done.
Defined.

(** X4: a removal keeps the block segments that are left, in their
    order, and the text of the text segments that are left, in its
    order: merging two text segments joins their texts with nothing in
    between. *)
Theorem removeSeg_content (id fresh : jstring) (prev : list PromptSeg) :
  let kept := filter (fun s => negb (str_eqb (seg_id s) id)) prev in
  block_segments (removeSeg id fresh prev) = block_segments kept
  /\ segments_text (removeSeg id fresh prev) = segments_text kept.
Proof.
  intros kept. unfold removeSeg. fold kept.
  destruct (merge_loop_content kept []) as (Ht & Hb & _). simpl in Ht, Hb.
  destruct (len (fold_left merge_step kept []) =? 0).
  - rewrite block_segments_app, segments_text_app, Ht, Hb. simpl.
    by rewrite !app_nil_r.
  - by rewrite Ht, Hb.
Qed.

Lemma no_adjacent_text_app (a b : list PromptSeg) :
  no_adjacent_text (a ++ b)
  = no_adjacent_text a && no_adjacent_text b
    && match last a, head b with
       | Some x, Some y => negb (is_text x && is_text y)
       | _, _ => true
       end.
Proof.
  revert a. induction b as [|y b IH] using rev_ind; intros a.
  - rewrite app_nil_r. simpl. destruct (last a); by rewrite !andb_true_r.
  - rewrite app_assoc, !no_adjacent_text_snoc, IH.
    destruct b as [|z b].
    + simpl. rewrite app_nil_r.
      destruct (last a) as [x|]; simpl; by rewrite ?andb_true_r.
    + rewrite last_app. rewrite <- app_comm_cons. cbn [head].
      assert (last (z :: b) <> None) by (by rewrite last_cons; destruct (last b)).
      destruct (last (z :: b)) as [w|] eqn:E; [|done].
      generalize (no_adjacent_text a), (no_adjacent_text (z :: b)),
                 (negb (is_text w && is_text y)).
      intros p q r.
      destruct (last a) as [x|]; [generalize (negb (is_text x && is_text z)); intros u|];
        destruct p, q, r; try destruct u; done.
Qed.

Lemma merge_loop_id (next merged : list PromptSeg) :
  no_adjacent_text (merged ++ next) = true ->
  fold_left merge_step next merged = merged ++ next.
Proof.
  revert merged. induction next as [|s t IH]; intros merged H; [by rewrite app_nil_r|].
  cbn [fold_left].
  assert (Hstep : merge_step merged s = merged ++ [s]).
  { destruct (merge_step_cases merged s)
      as [(l & i & v & j & v' & -> & -> & _)|[-> _]]; [|done].
    rewrite no_adjacent_text_app in H. rewrite last_snoc in H. simpl in H.
    by rewrite andb_false_r in H. }
  rewrite Hstep, IH; rewrite <- app_assoc; done.
Qed.

(** X5: on a list that satisfies the invariant, removing an identifier
    that no segment has changes nothing. *)
Theorem removeSeg_unknown_id (id fresh : jstring) (prev : list PromptSeg) :
  seg_inv prev ->
  (forall s, s ∈ prev -> seg_id s <> id) ->
  removeSeg id fresh prev = prev.
Proof.
  intros [Hlen Hadj] Hid. unfold removeSeg.
  assert (filter (fun s => negb (str_eqb (seg_id s) id)) prev = prev) as ->.
  { clear Hlen Hadj. induction prev as [|s t IH]; [done|].
    rewrite filter_cons_True.
    - f_equal. apply IH. intros x Hx. apply Hid. by right.
    - apply Is_true_true, negb_true_iff. unfold str_eqb.
      apply bool_decide_eq_false. apply Hid. by left. }
  rewrite merge_loop_id by done. simpl.
  destruct (Z.eqb_spec (len prev) 0); [lia|done].
Qed.

Lemma removeSeg_unknown_id_witness :
  let prev := [TextSeg (str "id_0") (str "a");
               BlockSeg (str "id_1") (str "blk") ∅ None None;
               TextSeg (str "id_2") (str "b")] in
  removeSeg (str "id_7") (str "id_9") prev = prev.
Proof.
  intros prev. apply removeSeg_unknown_id.
  - split; [unfold len; simpl; lia|reflexivity].
  - intros s Hs. repeat (apply elem_of_cons in Hs as [->|Hs]); try by vm_compute.
    by apply elem_of_nil in Hs.
Defined.

(** ** Dropping a block *)

Lemma js_index_is_Some {A} (l : list A) (i : Z) :
  0 <= i < len l -> is_Some (js_index l i).
Proof.
  intros H. unfold js_index. destruct (Z.ltb_spec i 0); [lia|].
  apply lookup_lt_is_Some. unfold len in H. lia.
Qed.

Lemma len_splice_insert {A} (l : list A) (k : Z) (x : A) :
  len (splice_insert l k x) = len l + 1.
Proof.
  unfold splice_insert, len. set (n := Z.to_nat _).
  rewrite length_app. simpl. rewrite length_take, length_drop. lia.
Qed.

Lemma js_index_splice_insert {A} (l : list A) (k : Z) (x : A) :
  0 <= k <= len l -> js_index (splice_insert l k x) k = Some x.
Proof.
  intros H. unfold js_index, splice_insert.
  destruct (Z.ltb_spec k 0); [lia|].
  rewrite splice_start_in_range by done.
  rewrite lookup_app_r by (rewrite length_take; unfold len in H; lia).
  rewrite length_take, Nat.min_l by (unfold len in H; lia).
  by rewrite Nat.sub_diag.
Qed.

Lemma findIndex_from_ge {A} (p : A -> bool) (l : list A) (i : Z) :
  0 <= i -> -1 <= findIndex_from p l i.
Proof.
  revert i. induction l as [|x t IH]; intros i Hi; simpl; [lia|].
  destruct (p x); [lia|]. apply IH. lia.
Qed.

(** The block insertion raises no error, fresh identifiers or not. *)
Lemma insertBlock_is_Some (targetIndex : Z) blockId values u1 u2 u3
    (prev : list PromptSeg) :
  is_Some (insertBlock targetIndex blockId values u1 u2 u3 prev).
Proof.
  unfold insertBlock.
  set (k := Z.max 0 (Z.min targetIndex (len prev))).
  set (blk := BlockSeg u1 blockId values None None).
  set (next1 := splice_insert prev k blk).
  pose proof (len_nonneg prev) as Hprev.
  assert (Hk : 0 <= k <= len prev) by (unfold k; lia).
  assert (Hlen1 : len next1 = len prev + 1) by apply len_splice_insert.
  assert (Hat1 : js_index next1 k = Some blk) by (by apply js_index_splice_insert).
  assert (Hbefore : exists b,
             (if k =? 0 then Some true
              else s ← js_index next1 (k - 1); Some (negb (is_text s))) = Some b).
  { destruct (Z.eqb_spec k 0); [by eexists|].
    destruct (js_index_is_Some next1 (k - 1)) as [s ->]; [lia|]. by eexists. }
  destruct Hbefore as [b ->]. cbn [mbind option_bind].
  set (next2 := if b then splice_insert next1 k (TextSeg u2 []) else next1).
  assert (Hlen2 : len next1 <= len next2).
  { unfold next2. destruct b; [rewrite len_splice_insert|]; lia. }
  destruct (js_index_is_Some next2 k) as [at_ Hat]; [lia|].
  rewrite Hat. cbn [mbind option_bind].
  assert (Hwanted : exists w,
             (if is_block at_ then Some (seg_id at_)
              else s ← js_index next2 (k + 1); Some (seg_id s)) = Some w).
  { destruct (is_block at_) eqn:Hb; [by eexists|].
    destruct b.
    - destruct (js_index_is_Some next2 (k + 1)) as [s ->]; [|by eexists].
      unfold next2. rewrite len_splice_insert. lia.
    - unfold next2 in Hat. rewrite Hat1 in Hat. injection Hat as <-. done. }
  destruct Hwanted as [w ->]. cbn [mbind option_bind].
  set (ensureAfter := findIndex _ next2 + 1).
  assert (0 <= ensureAfter).
  { unfold ensureAfter, findIndex.
    pose proof (findIndex_from_ge (fun s => is_block s && str_eqb (seg_id s) w) next2 0).
    lia. }
  destruct (Z.leb_spec (len next2) ensureAfter); [by eexists|].
  destruct (js_index_is_Some next2 ensureAfter) as [s ->]; [lia|]. by eexists.
Qed.

(** X6: a drop raises no error, whatever the payload, the target index
    and the identifiers are; a drop that carries no segment identifier
    and names no block of the library leaves the list as it is. *)
Theorem handleDrop_total (blocks : list Block.t) (hoveredDropIndex : option Z)
    (existingSegId blockId : jstring) (index : Z) (u1 u2 u3 : jstring)
    (prev : list PromptSeg) :
  exists next,
    handleDrop blocks hoveredDropIndex existingSegId blockId index u1 u2 u3 prev
    = Some next
    /\ (existingSegId = [] -> find_block blocks blockId = None -> next = prev).
Proof.
  unfold handleDrop.
  destruct existingSegId as [|c t]; [|by eexists].
  destruct blockId as [|c t]; [by eexists|].
  destruct (find_block blocks (c :: t)) as [blk|]; [|by eexists].
  destruct (insertBlock_is_Some (default index hoveredDropIndex) (c :: t)
              (default_values (BlockDef.params (Block.def blk))) u1 u2 u3 prev)
    as [next ->].
  by exists next.
Qed.

Lemma handleDrop_total_witness :
  exists next,
    handleDrop [] None [] (str "blk_gone") 1 (str "id_1") (str "id_2") (str "id_3")
      [TextSeg (str "id_0") (str "hello")] = Some next
    /\ next = [TextSeg (str "id_0") (str "hello")].
Proof.
  destruct (handleDrop_total [] None [] (str "blk_gone") 1 (str "id_1") (str "id_2")
              (str "id_3") [TextSeg (str "id_0") (str "hello")]) as (next & H & Hsame).
  exists next. split; [exact H|]. by apply Hsame.
Defined.

(** X7: when the new block lands before a text segment or at the end
    of a list without adjacent text segments, a text segment precedes
    it, a text segment follows it, and the list still satisfies the
    invariant. *)
Theorem insertBlock_before_text (targetIndex : Z) blockId values u1 u2 u3
    (prev : list PromptSeg) :
  (forall s, s ∈ prev -> is_block s = true -> seg_id s <> u1) ->
  no_adjacent_text prev = true ->
  match prev !! Z.to_nat (Z.max 0 (Z.min targetIndex (len prev))) with
  | Some s => is_text s = true
  | None => True
  end ->
  exists l1 t1 t2 l2,
    insertBlock targetIndex blockId values u1 u2 u3 prev
    = Some (l1 ++ t1 :: BlockSeg u1 blockId values None None :: t2 :: l2)
    /\ is_text t1 = true /\ is_text t2 = true
    /\ seg_inv (l1 ++ t1 :: BlockSeg u1 blockId values None None :: t2 :: l2).
Proof.
  intros Hfresh Hadj Hnext. rewrite insertBlock_spec by done.
  unfold insertBlock_result.
  set (k := Z.to_nat _) in *.
  set (blk := BlockSeg u1 blockId values None None).
  rewrite <- (take_drop k prev) in Hadj.
  rewrite no_adjacent_text_app in Hadj.
  apply andb_true_iff in Hadj as [Hadj Hjoin].
  apply andb_true_iff in Hadj as [Hpre Hpost].
  replace (prev !! k) with (drop k prev !! 0%nat) in Hnext
    by (rewrite lookup_drop; f_equal; lia).
  set (pre := take k prev) in *. set (post := drop k prev) in *.
  assert (Hinv : forall l, no_adjacent_text l = true -> l <> [] -> seg_inv l).
  { intros l Hl Hne. split; [|done]. destruct l; [done|]. unfold len. simpl. lia. }
  assert (Htail : exists t2 l2,
             match post with
             | [] => [TextSeg u3 []]
             | TextSeg _ _ :: _ => post
             | b :: post' => b :: TextSeg u3 [] :: post'
             end = t2 :: l2
             /\ is_text t2 = true /\ no_adjacent_text (t2 :: l2) = true).
  { destruct post as [|[i v|i b vs cu cd] post'] eqn:Epost.
    - by exists (TextSeg u3 []), [].
    - by exists (TextSeg i v), post'.
    - simpl in Hnext. done. }
  destruct Htail as (t2 & l2 & -> & Ht2 & Htl).
  destruct (last pre) as [x|] eqn:Hlast.
  - pose proof Hlast as Hl. apply last_Some in Hl as [pre' Epre].
    destruct x as [i v|i b vs cu cd].
    + exists pre', (TextSeg i v), t2, l2. rewrite Epre, <- app_assoc.
      split; [done|]. split; [done|]. split; [done|].
      apply Hinv; [|by destruct pre'].
      replace (pre' ++ TextSeg i v :: blk :: t2 :: l2) with (pre ++ blk :: t2 :: l2)
        by (by rewrite Epre, <- app_assoc).
      rewrite no_adjacent_text_app, Hpre, Hlast. cbn [head].
      change (no_adjacent_text (blk :: t2 :: l2))
        with (negb (is_text blk && is_text t2) && no_adjacent_text (t2 :: l2)).
      by rewrite Htl.
    + exists pre, (TextSeg u2 []), t2, l2.
      split; [done|]. split; [done|]. split; [done|].
      apply Hinv; [|rewrite Epre; by destruct pre'].
      rewrite no_adjacent_text_app, Hpre, Hlast. cbn [head].
      change (no_adjacent_text (TextSeg u2 [] :: blk :: t2 :: l2))
        with (negb (is_text (TextSeg u2 []) && is_text blk)
              && (negb (is_text blk && is_text t2) && no_adjacent_text (t2 :: l2))).
      by rewrite Htl.
  - apply last_None in Hlast. exists [], (TextSeg u2 []), t2, l2. rewrite Hlast.
    split; [done|]. split; [done|]. split; [done|].
    apply Hinv; [|done]. simpl app.
    change (no_adjacent_text (TextSeg u2 [] :: blk :: t2 :: l2))
      with (negb (is_text (TextSeg u2 []) && is_text blk)
            && (negb (is_text blk && is_text t2) && no_adjacent_text (t2 :: l2))).
    by rewrite Htl.
Qed.

Lemma insertBlock_before_text_witness :
  exists l1 t1 t2 l2,
    insertBlock 2 (str "blk_b") ∅ (str "id_3") (str "id_4") (str "id_5")
      [TextSeg (str "id_0") (str "a");
       BlockSeg (str "id_1") (str "blk_a") ∅ None None;
       TextSeg (str "id_2") (str "b")]
    = Some (l1 ++ t1 :: BlockSeg (str "id_3") (str "blk_b") ∅ None None :: t2 :: l2)
    /\ is_text t1 = true /\ is_text t2 = true
    /\ seg_inv (l1 ++ t1 :: BlockSeg (str "id_3") (str "blk_b") ∅ None None :: t2 :: l2).
Proof.
  apply insertBlock_before_text.
  - intros s Hs. repeat (apply elem_of_cons in Hs as [->|Hs]); try by vm_compute.
    by apply elem_of_nil in Hs.
  - reflexivity.
  - vm_compute. reflexivity.
Defined.

Lemma insertBlock_result_content (k : nat) blockId values u1 u2 u3
    (prev : list PromptSeg) :
  segments_text (insertBlock_result k blockId values u1 u2 u3 prev) = segments_text prev
  /\ block_segments (insertBlock_result k blockId values u1 u2 u3 prev)
     = block_segments (take k prev)
       ++ BlockSeg u1 blockId values None None :: block_segments (drop k prev).
Proof.
  unfold insertBlock_result.
  set (blk := BlockSeg u1 blockId values None None).
  set (pre := take k prev). set (post := drop k prev).
  assert (Hmid : forall mid,
             mid = [blk] \/ mid = [TextSeg u2 []; blk] ->
             segments_text mid = [] /\ block_segments mid = [blk]).
  { intros mid [-> | ->]; by split. }
  assert (Htail : forall tail,
             tail = match post with
                    | [] => [TextSeg u3 []]
                    | TextSeg _ _ :: _ => post
                    | b :: post' => b :: TextSeg u3 [] :: post'
                    end ->
             segments_text tail = segments_text post
             /\ block_segments tail = block_segments post).
  { intros tail ->. destruct post as [|[i v|i b vs cu cd] post']; by split. }
  destruct (Htail _ eq_refl) as [Ht1 Ht2].
  destruct (Hmid (match last pre with
                  | Some (TextSeg _ _) => [blk]
                  | _ => [TextSeg u2 []; blk]
                  end)) as [Hm1 Hm2].
  { destruct (last pre) as [[i v|i b vs cu cd]|]; auto. }
  rewrite !segments_text_app, !block_segments_app, Ht1, Ht2, Hm1, Hm2.
  split; [|done]. simpl. rewrite <- segments_text_app. unfold pre, post.
  by rewrite take_drop.
Qed.

(** X8: a block insertion changes no text and keeps the block segments
    in their order: the new block comes after the blocks that were
    before the target position and before those that were after it; the
    text segments it adds are empty. *)
Theorem insertBlock_content (targetIndex : Z) blockId values u1 u2 u3
    (prev : list PromptSeg) :
  (forall s, s ∈ prev -> is_block s = true -> seg_id s <> u1) ->
  let k := Z.to_nat (Z.max 0 (Z.min targetIndex (len prev))) in
  exists next,
    insertBlock targetIndex blockId values u1 u2 u3 prev = Some next
    /\ segments_text next = segments_text prev
    /\ block_segments next
       = block_segments (take k prev)
         ++ BlockSeg u1 blockId values None None :: block_segments (drop k prev).
Proof.
  intros Hfresh k. rewrite insertBlock_spec by done. fold k.
  eexists. split; [reflexivity|]. apply insertBlock_result_content.
Qed.

Lemma insertBlock_content_witness :
  exists next,
    insertBlock 1 (str "blk_b") ∅ (str "id_3") (str "id_4") (str "id_5")
      [TextSeg (str "id_0") (str "a");
       BlockSeg (str "id_1") (str "blk_a") ∅ None None] = Some next
    /\ segments_text next = str "a"
    /\ block_segments next
       = [BlockSeg (str "id_3") (str "blk_b") ∅ None None;
          BlockSeg (str "id_1") (str "blk_a") ∅ None None].
Proof.
  destruct (insertBlock_content 1 (str "blk_b") ∅ (str "id_3") (str "id_4") (str "id_5")
              [TextSeg (str "id_0") (str "a");
               BlockSeg (str "id_1") (str "blk_a") ∅ None None])
    as (next & H & Ht & Hb).
  - intros s Hs. repeat (apply elem_of_cons in Hs as [->|Hs]); try by vm_compute.
    by apply elem_of_nil in Hs.
  - exists next. split; [exact H|]. split; [exact Ht|exact Hb].
Defined.

(** ** Editing a segment in place *)

Lemma no_adjacent_text_kinds (l l' : list PromptSeg) :
  map is_text l = map is_text l' -> no_adjacent_text l = no_adjacent_text l'.
Proof.
  revert l'. induction l as [|a t IH]; intros [|a' t'] H; try done.
  injection H as Ha Ht. cbn [no_adjacent_text].
  destruct t as [|b u], t' as [|b' u']; try done.
  rewrite (IH (b' :: u') Ht). injection Ht as Hb _. by rewrite Ha, Hb.
Qed.

Lemma updateTextSeg_blocks (id value : jstring) (prev : list PromptSeg) :
  block_segments (updateTextSeg id value prev) = block_segments prev.
Proof.
  unfold updateTextSeg, block_segments.
  induction prev as [|s t IH]; [done|]. cbn [map List.filter]. rewrite IH.
  destruct (str_eqb (seg_id s) id); [|done]. by destruct s.
Qed.

(** X9: [updateTextSeg] sets the text of the text segments that have
    the identifier and touches nothing else: identifiers, kinds and
    order, the block segments and the invariant are kept. *)
Theorem updateTextSeg_spec (id value : jstring) (prev : list PromptSeg) :
  map seg_id (updateTextSeg id value prev) = map seg_id prev
  /\ map is_text (updateTextSeg id value prev) = map is_text prev
  /\ block_segments (updateTextSeg id value prev) = block_segments prev
  /\ (seg_inv prev -> seg_inv (updateTextSeg id value prev))
  /\ (forall i s, prev !! i = Some s ->
        updateTextSeg id value prev !! i
        = Some (match s with
                | TextSeg j _ => if bool_decide (j = id) then TextSeg j value else s
                | BlockSeg _ _ _ _ _ => s
                end)).
Proof.
  assert (Hlookup : forall i s, prev !! i = Some s ->
            updateTextSeg id value prev !! i
            = Some (match s with
                    | TextSeg j _ => if bool_decide (j = id) then TextSeg j value else s
                    | BlockSeg _ _ _ _ _ => s
                    end)).
  { intros i s Hs. unfold updateTextSeg. rewrite list_lookup_fmap, Hs. simpl.
    unfold str_eqb. destruct s as [j v|j b vs cu cd]; simpl; [done|].
    by destruct (bool_decide (j = id)). }
  assert (Hids : map seg_id (updateTextSeg id value prev) = map seg_id prev).
  { unfold updateTextSeg. rewrite map_map. apply map_ext. intros s.
    destruct (str_eqb (seg_id s) id); [|done]. by destruct s. }
  assert (Hkinds : map is_text (updateTextSeg id value prev) = map is_text prev).
  { unfold updateTextSeg. rewrite map_map. apply map_ext. intros s.
    destruct (str_eqb (seg_id s) id); [|done]. by destruct s. }
  split; [done|]. split; [done|]. split; [|split; [|done]].
  - apply updateTextSeg_blocks.
  - intros [Hlen Hadj]. split.
    + unfold len, updateTextSeg in *. by rewrite length_map.
    + by rewrite (no_adjacent_text_kinds _ prev).
Qed.

Lemma updateTextSeg_spec_witness :
  seg_inv (updateTextSeg (str "id_0") (str "new")
             [TextSeg (str "id_0") (str "old");
              BlockSeg (str "id_1") (str "blk_a") ∅ None None]).
Proof.
  apply updateTextSeg_spec. split; [unfold len; simpl; lia|reflexivity].
Defined.

Lemma saveEditingBlock_map (eb : EditingBlock.t) (prev : list PromptSeg) :
  (forall s, s ∈ prev -> seg_id s = EditingBlock.segmentId eb ->
             edit_segment s = None \/ edit_segment s = Some eb) ->
  saveEditingBlock (Some eb) prev = prev.
Proof.
  intros H. unfold saveEditingBlock.
  induction prev as [|s t IH]; [done|]. cbn [map]. rewrite IH.
  - f_equal. unfold str_eqb.
    destruct (bool_decide_reflect (seg_id s = EditingBlock.segmentId eb)) as [E|]; [|done].
    destruct (H s) as [Hs|Hs]; [by left|done| |]; destruct s; try done.
    simpl in Hs. injection Hs as <-. done.
  - intros x Hx. apply H. by right.
Qed.

(** X10: opening the editor of a block segment and saving without a
    change leaves the list as it is, when the identifiers of the
    segments are distinct. *)
Theorem saveEditingBlock_unchanged (prev : list PromptSeg) (i : nat) (s : PromptSeg) :
  NoDup (map seg_id prev) ->
  prev !! i = Some s ->
  saveEditingBlock (edit_segment s) prev = prev.
Proof.
  intros Hnodup Hs. destruct (edit_segment s) as [eb|] eqn:Heb; [|done].
  apply saveEditingBlock_map. intros x Hx Hid. right.
  assert (seg_id s = EditingBlock.segmentId eb) as Hsid.
  { destruct s; [done|]. simpl in Heb. by injection Heb as <-. }
  apply list_elem_of_lookup in Hx as [j Hj].
  assert (j = i) as ->.
  { eapply NoDup_lookup; [exact Hnodup| |].
    - rewrite list_lookup_fmap, Hj. reflexivity.
    - rewrite list_lookup_fmap, Hs. simpl. congruence. }
  congruence.
Qed.

Lemma saveEditingBlock_unchanged_witness :
  let b := BlockSeg (str "id_1") (str "blk_a") {[ str "speed" := JNum 2 ]} None None in
  saveEditingBlock (edit_segment b) [TextSeg (str "id_0") (str "a"); b]
  = [TextSeg (str "id_0") (str "a"); b].
Proof.
  intros b. apply (saveEditingBlock_unchanged _ 1 b).
  - apply (bool_decide_unpack _). vm_compute. exact I.
  - reflexivity.
Defined.

(** X11: saving the block editor sets the values and the context of
    the edited block segment and touches nothing else: identifiers,
    kinds and order, the text and the invariant are kept. *)
Theorem saveEditingBlock_spec (eb : EditingBlock.t) (prev : list PromptSeg) :
  map seg_id (saveEditingBlock (Some eb) prev) = map seg_id prev
  /\ map is_text (saveEditingBlock (Some eb) prev) = map is_text prev
  /\ segments_text (saveEditingBlock (Some eb) prev) = segments_text prev
  /\ (seg_inv prev -> seg_inv (saveEditingBlock (Some eb) prev))
  /\ (forall i id blockId values cu cd,
        prev !! i = Some (BlockSeg id blockId values cu cd) ->
        id = EditingBlock.segmentId eb ->
        saveEditingBlock (Some eb) prev !! i
        = Some (BlockSeg id blockId (EditingBlock.values eb)
                         (EditingBlock.contextUrl eb) (EditingBlock.contextData eb))).
Proof.
  assert (Hids : map seg_id (saveEditingBlock (Some eb) prev) = map seg_id prev).
  { unfold saveEditingBlock. rewrite map_map. apply map_ext. intros s.
    destruct (str_eqb (seg_id s) _); [|done]. by destruct s. }
  assert (Hkinds : map is_text (saveEditingBlock (Some eb) prev) = map is_text prev).
  { unfold saveEditingBlock. rewrite map_map. apply map_ext. intros s.
    destruct (str_eqb (seg_id s) _); [|done]. by destruct s. }
  split; [done|]. split; [done|]. split; [|split].
  - unfold saveEditingBlock, segments_text. rewrite flat_map_concat_map, map_map.
    rewrite (flat_map_concat_map seg_text prev). f_equal. apply map_ext. intros s.
    destruct (str_eqb (seg_id s) _); [|done]. by destruct s.
  - intros [Hlen Hadj]. split.
    + unfold len, saveEditingBlock in *. by rewrite length_map.
    + by rewrite (no_adjacent_text_kinds _ prev).
  - intros i id blockId values cu cd Hi ->. unfold saveEditingBlock.
    rewrite list_lookup_fmap, Hi. simpl. unfold str_eqb.
    by rewrite bool_decide_eq_true_2.
Qed.

Lemma saveEditingBlock_spec_witness :
  let eb := EditingBlock.mk (str "id_1") (str "blk_a") {[ str "speed" := JNum 3 ]}
              (Some (str "https://example.org")) None in
  seg_inv (saveEditingBlock (Some eb)
             [TextSeg (str "id_0") (str "a");
              BlockSeg (str "id_1") (str "blk_a") ∅ None None]).
Proof.
  intros eb. apply saveEditingBlock_spec. split; [unfold len; simpl; lia|reflexivity].
Defined.

(** ** The matches of the token pattern in a text *)

Lemma search_found (s : jstring) (pos : Z) (m : RegExpMatch.t) (rest : jstring) :
  search s pos = Some (m, rest) ->
  exists n : nat,
    RegExpMatch.index m = pos + Z.of_nat n
    /\ match_token (drop n s) = Some (RegExpMatch.m1 m, RegExpMatch.m2 m, rest)
    /\ RegExpMatch.m0 m = token_text (RegExpMatch.m1 m) (RegExpMatch.m2 m)
    /\ drop n s = RegExpMatch.m0 m ++ rest
    /\ forall k : nat, (k < n)%nat -> match_token (drop k s) = None.
Proof.
  revert pos. induction s as [|c s IH]; intros pos H; rewrite search_eq in H.
  - by destruct (match_token []) as [[[id params] r]|] eqn:E.
  - destruct (match_token (c :: s)) as [[[id params] r]|] eqn:E.
    + assert (Hm : m = RegExpMatch.mk pos (str "[[Block:" ++ id ++ params ++ str "]]")
                                      id params) by congruence.
      assert (Hr : rest = r) by congruence. subst m rest.
      exists 0%nat. cbn [RegExpMatch.index RegExpMatch.m0 RegExpMatch.m1 RegExpMatch.m2].
      split; [lia|]. split; [done|]. split; [done|]. split; [|lia].
      apply match_token_spec in E as [E _]. rewrite drop_0, E.
      by rewrite <- !app_assoc.
    + destruct (IH (pos + 1) H) as (n & Hi & Hmatch & Hm0 & Hdrop & Hnone).
      exists (S n). split; [lia|]. split; [done|]. split; [done|]. split; [done|].
      intros k Hk. destruct k as [|k]; [done|]. apply Hnone. lia.
Qed.

Lemma search_intro (s : jstring) (pos : Z) (n : nat) (id params rest : jstring) :
  (forall k : nat, (k < n)%nat -> match_token (drop k s) = None) ->
  match_token (drop n s) = Some (id, params, rest) ->
  search s pos
  = Some (RegExpMatch.mk (pos + Z.of_nat n) (token_text id params) id params, rest).
Proof.
  revert s pos. induction n as [|n IH]; intros s pos Hnone Hmatch; rewrite search_eq.
  - rewrite drop_0 in Hmatch. rewrite Hmatch. by rewrite Z.add_0_r.
  - pose proof (Hnone 0%nat ltac:(lia)) as H0. rewrite drop_0 in H0. rewrite H0.
    destruct s as [|c s]; [by rewrite drop_nil in Hmatch|].
    rewrite (IH s (pos + 1)).
    + do 3 f_equal. lia.
    + intros k Hk. apply (Hnone (S k)). lia.
    + exact Hmatch.
Qed.

(** The matches of a text read from position [pos] on, without a bound
    on the number of rounds. *)
Lemma exec_loop_unfold (s : jstring) (pos : Z) :
  exec_loop (length s) s pos
  = match search s pos with
    | None => []
    | Some (m, rest) => m :: exec_loop (length rest) rest (match_end m)
    end.
Proof.
  destruct s as [|c t] eqn:Es.
  - by rewrite exec_loop_nil.
  - rewrite <- Es. replace (length s) with (S (length t)) by (by subst).
    rewrite exec_loop_S.
    destruct (search s pos) as [[m rest]|] eqn:E; [|done].
    apply search_shorter in E. f_equal. apply exec_loop_fuel; subst; simpl in *; lia.
Qed.

(** Where the matches are: each one is a piece of the text, at the
    position it reports, and the pieces come one after the other. *)
Lemma exec_loop_located (n : nat) :
  forall (s pre : jstring) (ms : list RegExpMatch.t),
    length s = n ->
    exec_loop (length s) s (len pre) = ms ->
    Forall (fun m => len pre <= RegExpMatch.index m
                     /\ match_end m <= len (pre ++ s)
                     /\ slice (pre ++ s) (RegExpMatch.index m) (match_end m)
                        = RegExpMatch.m0 m
                     /\ RegExpMatch.m0 m
                        = token_text (RegExpMatch.m1 m) (RegExpMatch.m2 m)) ms
    /\ forall i j mi mj, (i < j)%nat -> ms !! i = Some mi -> ms !! j = Some mj ->
         match_end mi <= RegExpMatch.index mj.
Proof.
  induction n as [n IH] using lt_wf_ind. intros s pre ms Hn Hms.
  rewrite exec_loop_unfold in Hms.
  destruct (search s (len pre)) as [[m rest]|] eqn:E; [|subst ms; split; [done|]].
  2: { intros i j mi mj _ Hi. done. }
  pose proof (search_shorter _ _ _ _ E) as Hshort.
  destruct (search_found _ _ _ _ E) as (k & Hi & _ & Hm0 & Hdrop & _).
  assert (Hs : s = take k s ++ RegExpMatch.m0 m ++ rest)
    by (by rewrite <- Hdrop, take_drop).
  assert (Hk : (k <= length s)%nat).
  { destruct (decide (k <= length s)%nat); [done|].
    rewrite drop_ge in Hdrop by lia. rewrite Hm0 in Hdrop. done. }
  assert (Hend : match_end m = len ((pre ++ take k s) ++ RegExpMatch.m0 m)).
  { unfold match_end. rewrite Hi, !len_app. unfold len. rewrite length_take. lia. }
  destruct (IH (length rest) ltac:(lia) rest ((pre ++ take k s) ++ RegExpMatch.m0 m)
              (exec_loop (length rest) rest (match_end m)) eq_refl)
    as [Hall Hsorted]; [by rewrite Hend|].
  assert (Hwhole : ((pre ++ take k s) ++ RegExpMatch.m0 m) ++ rest = pre ++ s).
  { rewrite Hs at 2. by rewrite <- !app_assoc. }
  rewrite Hwhole in Hall. subst ms. split.
  - constructor.
    + split; [lia|]. split; [|split; [|done]].
      * rewrite Hend, <- Hwhole, (len_app _ rest). pose proof (len_nonneg rest). lia.
      * unfold slice. rewrite <- Hwhole.
        replace (Z.to_nat (RegExpMatch.index m)) with (length (pre ++ take k s))
          by (rewrite Hi, length_app, length_take; unfold len; lia).
        rewrite <- (app_assoc (pre ++ take k s)), drop_app_length.
        replace (Z.to_nat (match_end m - RegExpMatch.index m))
          with (length (RegExpMatch.m0 m)) by (unfold match_end, len; lia).
        by rewrite take_app_length.
    + eapply Forall_impl; [exact Hall|]. intros x (Hx1 & Hx2 & Hx3 & Hx4).
      split; [|done]. rewrite <- Hend in Hx1. unfold match_end in Hx1.
      pose proof (len_nonneg (RegExpMatch.m0 m)). lia.
  - intros i j mi mj Hij Hmi Hmj. destruct j as [|j]; [lia|].
    destruct i as [|i].
    + injection Hmi as <-. simpl in Hmj.
      rewrite Forall_forall in Hall.
      destruct (Hall mj) as (Hx & _); [by eapply list_elem_of_lookup_2|].
      by rewrite <- Hend in Hx.
    + simpl in Hmi, Hmj. eapply (Hsorted i j); [lia|done..].
Qed.

(** X12: the matches found in a text are pieces of the text: each one
    is the text between the positions it reports, it has the shape of a
    token, and the matches follow each other from left to right without
    overlap. *)
Theorem exec_all_located (text : jstring) :
  (forall m, m ∈ exec_all text ->
     0 <= RegExpMatch.index m
     /\ match_end m <= len text
     /\ slice text (RegExpMatch.index m) (match_end m) = RegExpMatch.m0 m
     /\ RegExpMatch.m0 m = token_text (RegExpMatch.m1 m) (RegExpMatch.m2 m)
     /\ RegExpMatch.m1 m <> []
     /\ Forall (fun c => is_id_char c = true) (RegExpMatch.m1 m)
     /\ Forall (fun c => c <> 93) (RegExpMatch.m2 m))
  /\ (forall i j mi mj, (i < j)%nat ->
        exec_all text !! i = Some mi -> exec_all text !! j = Some mj ->
        match_end mi <= RegExpMatch.index mj).
Proof.
  destruct (exec_loop_located (length text) text [] (exec_all text) eq_refl eq_refl)
    as [Hall Hsorted].
  split; [|exact Hsorted].
  intros m Hm. rewrite Forall_forall in Hall.
  destruct (Hall m Hm) as (H1 & H2 & H3 & H4).
  split; [exact H1|]. split; [exact H2|]. split; [exact H3|]. split; [exact H4|].
  (* the shape of the groups *)
  clear Hall Hsorted H1 H2 H3 H4. unfold exec_all in Hm.
  remember (length text) as n eqn:Hn. remember 0 as pos eqn:Hpos. clear Hpos.
  revert text pos Hn Hm. induction n as [n IH] using lt_wf_ind.
  intros text pos Hn Hm. subst n. rewrite exec_loop_unfold in Hm.
  destruct (search text pos) as [[m' rest]|] eqn:E; [|by apply elem_of_nil in Hm].
  apply elem_of_cons in Hm as [->|Hm].
  - destruct (search_found _ _ _ _ E) as (k & _ & Hmatch & _).
    apply match_token_sound in Hmatch as [(_ & Hne & Hid & Hparams) _].
    split; [done|]. split; [done|].
    eapply Forall_impl; [exact Hparams|]. intros c Hc ->. done.
  - apply search_shorter in E.
    by apply (IH (length rest) E rest (match_end m')).
Qed.

(** The coordinates of a token read from a match delimit the token in
    the text. *)
Lemma token_info_located (text : jstring) (m : RegExpMatch.t) :
  m ∈ exec_all text ->
  0 <= TokenInfo.start (token_info m)
  /\ TokenInfo.end_ (token_info m) <= len text
  /\ slice text (TokenInfo.start (token_info m)) (TokenInfo.end_ (token_info m))
     = token_text (TokenInfo.blockId (token_info m)) (RegExpMatch.m2 m)
  /\ TokenInfo.params (token_info m) = parse_params (RegExpMatch.m2 m).
Proof.
  intros Hm.
  destruct (exec_loop_located (length text) text [] (exec_all text) eq_refl eq_refl)
    as [Hall _].
  rewrite Forall_forall in Hall. destruct (Hall m Hm) as (H1 & H2 & H3 & H4).
  unfold token_info. cbn [TokenInfo.start TokenInfo.end_ TokenInfo.blockId TokenInfo.params].
  fold (match_end m). rewrite <- H4. done.
Qed.

Lemma findTokenAt_loop_spec (ms : list RegExpMatch.t) (pos : Z) :
  match findTokenAt_loop ms pos with
  | Some info =>
      exists (i : nat) m, ms !! i = Some m /\ info = token_info m
                          /\ match_covers pos m = true
                          /\ forall j mj, (j < i)%nat -> ms !! j = Some mj ->
                                          match_covers pos mj = false
  | None => forall m, m ∈ ms -> match_covers pos m = false
  end.
Proof.
  induction ms as [|m ms IH]; [by intros m Hm; apply elem_of_nil in Hm|].
  cbn [findTokenAt_loop]. fold (match_end m). fold (match_covers pos m).
  destruct (match_covers pos m) eqn:E.
  - exists 0%nat, m. split; [done|]. split; [done|]. split; [done|]. intros j mj Hj. lia.
  - destruct (findTokenAt_loop ms pos) as [info|].
    + destruct IH as (i & mi & Hi & -> & Hc & Hfirst).
      exists (S i), mi. split; [done|]. split; [done|]. split; [done|].
      intros j mj Hj Hmj. destruct j as [|j]; [by injection Hmj as <-|].
      apply (Hfirst j); [lia|done].
    + intros x Hx. apply elem_of_cons in Hx as [->|Hx]; [done|by apply IH].
Qed.

(** X13: the token [findTokenAt] returns surrounds the position (its
    two ends included), its coordinates delimit a token of the text
    with its identifier, and no token further left surrounds the
    position; [null] is returned only when no token does. *)
Theorem findTokenAt_surrounds (text : jstring) (pos : Z) :
  match findTokenAt text pos with
  | Some info =>
      TokenInfo.start info <= pos <= TokenInfo.end_ info
      /\ 0 <= TokenInfo.start info
      /\ TokenInfo.end_ info <= len text
      /\ (exists raw,
            slice text (TokenInfo.start info) (TokenInfo.end_ info)
            = token_text (TokenInfo.blockId info) raw
            /\ TokenInfo.params info = parse_params raw)
      /\ (forall m, m ∈ exec_all text -> match_covers pos m = true ->
                    TokenInfo.start info <= RegExpMatch.index m)
  | None => forall m, m ∈ exec_all text -> match_covers pos m = false
  end.
Proof.
  unfold findTokenAt. pose proof (findTokenAt_loop_spec (exec_all text) pos) as H.
  destruct (findTokenAt_loop (exec_all text) pos) as [info|]; [|exact H].
  destruct H as (i & m & Hi & -> & Hc & Hfirst).
  assert (Hm : m ∈ exec_all text) by (by eapply list_elem_of_lookup_2).
  destruct (token_info_located text m Hm) as (H1 & H2 & H3 & H4).
  split.
  { unfold match_covers, match_end in Hc. apply andb_true_iff in Hc as [Ha Hb].
    unfold token_info. cbn [TokenInfo.start TokenInfo.end_]. lia. }
  split; [done|]. split; [done|]. split; [by exists (RegExpMatch.m2 m)|].
  intros x Hx Hcx. apply list_elem_of_lookup in Hx as [j Hj].
  destruct (decide (j < i)%nat) as [Hlt|Hge].
  { rewrite (Hfirst j x Hlt Hj) in Hcx. done. }
  destruct (decide (j = i)) as [->|Hne].
  { assert (x = m) by congruence. subst. unfold token_info. simpl. lia. }
  destruct (exec_loop_located (length text) text [] (exec_all text) eq_refl eq_refl)
    as [_ Hsorted].
  pose proof (Hsorted i j m x ltac:(lia) Hi Hj) as Hle.
  unfold token_info, match_end in *. cbn [TokenInfo.start].
  pose proof (len_nonneg (RegExpMatch.m0 m)). lia.
Qed.

Lemma findTokenByIndex_loop_lookup (ms : list RegExpMatch.t) (i index : Z) :
  i <= index ->
  findTokenByIndex_loop ms i index = token_info <$> (ms !! Z.to_nat (index - i)).
Proof.
  revert i. induction ms as [|m ms IH]; intros i Hi; [done|].
  cbn [findTokenByIndex_loop]. destruct (Z.eqb_spec i index) as [->|Hne].
  - by rewrite Z.sub_diag.
  - rewrite IH by lia.
    replace (Z.to_nat (index - i)) with (S (Z.to_nat (index - (i + 1)))) by lia.
    done.
Qed.

(** X14: [findTokenByIndex] returns the token of the match with that
    index, counted from 0; it returns [null] for a negative index and
    for an index from the number of tokens on; the coordinates it
    returns delimit a token of the text with the identifier it
    returns. *)
Theorem findTokenByIndex_lookup (text : jstring) (index : Z) :
  findTokenByIndex text index
  = (if index <? 0 then None else token_info <$> (exec_all text !! Z.to_nat index))
  /\ (index < 0 \/ len (exec_all text) <= index -> findTokenByIndex text index = None)
  /\ (forall info, findTokenByIndex text index = Some info ->
        0 <= TokenInfo.start info
        /\ TokenInfo.end_ info <= len text
        /\ exists raw,
             slice text (TokenInfo.start info) (TokenInfo.end_ info)
             = token_text (TokenInfo.blockId info) raw
             /\ TokenInfo.params info = parse_params raw).
Proof.
  assert (Heq : findTokenByIndex text index
                = (if index <? 0 then None
                   else token_info <$> (exec_all text !! Z.to_nat index))).
  { unfold findTokenByIndex. destruct (Z.ltb_spec index 0); [done|].
    rewrite findTokenByIndex_loop_lookup by lia. by rewrite Z.sub_0_r. }
  split; [exact Heq|]. split.
  - intros H. rewrite Heq. destruct (Z.ltb_spec index 0); [done|].
    destruct H as [H|H]; [lia|].
    rewrite lookup_ge_None_2; [done|]. unfold len in H. lia.
  - intros info Hinfo. rewrite Heq in Hinfo.
    destruct (index <? 0); [done|].
    destruct (exec_all text !! Z.to_nat index) as [m|] eqn:Hm; [|done].
    injection Hinfo as <-.
    destruct (token_info_located text m) as (H1 & H2 & H3 & H4);
      [by eapply list_elem_of_lookup_2|].
    split; [done|]. split; [done|]. by exists (RegExpMatch.m2 m).
Qed.

Lemma findTokenByIndex_lookup_witness :
  findTokenByIndex (str "a [[Block:x n=1]] b") 1 = None.
Proof.
  apply findTokenByIndex_lookup. right. vm_compute. discriminate.
Defined.

(** ** Parameter decoding in the tokens of a text *)

Example set_prop_examples :
  parse_params (str " __proto__=5 a=1 constructor=2")
  = <[ str "a" := JNum 1 ]> (<[ str "constructor" := JNum 2 ]> ∅)
  /\ parse_params (str " __proto__=x") = ∅
  /\ parse_params (str " __proto__={} __proto__=7") = ∅
  /\ parse_params (str " __proto__=null __proto__=5") = {[ str "__proto__" := JNum 5 ]}
  /\ json_has_key (str "__proto__") (str "{" ++ [34] ++ str "__proto__" ++ [34] ++ str ":1}")
     = true
  /\ json_has_key (str "__proto__")
       (str "{" ++ [34] ++ str "a" ++ [34] ++ str ":{" ++ [34] ++ str "__proto__" ++ [34]
        ++ str ":1}}") = false
  /\ json_has_key (str "__proto__")
       (str "{" ++ [34] ++ str "a" ++ [34] ++ str ":" ++ [34] ++ str "__proto__" ++ [34]
        ++ str "," ++ [34] ++ str "__proto__" ++ [34] ++ str ":2}") = true
  /\ get ∅ (str "toString") = JInherited (str "toString")
  /\ get ∅ (str "speed") = JUndefined
  /\ get {[ str "toString" := JNum 1 ]} (str "toString") = JNum 1.
Proof. vm_compute. repeat split; reflexivity. Qed.





(** ** The keys of the decoded parameters *)

Lemma split_loop_no_space (s cur : jstring) (b : bool) :
  Forall (fun c => is_space c = false) cur ->
  Forall (Forall (fun c => is_space c = false)) (split_loop cur b s).
Proof.
  revert cur b. induction s as [|c t IH]; intros cur b Hcur; cbn [split_loop].
  - by constructor.
  - destruct (is_space c) eqn:Hc.
    + destruct b; [by apply IH|]. constructor; [done|]. by apply IH.
    + apply IH. apply Forall_app. split; [done|]. by constructor.
Qed.

Lemma param_pieces_no_space (raw piece : jstring) :
  piece ∈ param_pieces raw ->
  piece <> [] /\ Forall (fun c => is_space c = false) piece.
Proof.
  unfold param_pieces, filter_nonempty. intros H.
  apply list_elem_of_filter in H as [Hne H].
  split.
  - intros ->. by rewrite bool_decide_eq_true_2 in Hne.
  - pose proof (split_loop_no_space (trim raw) [] false ltac:(constructor)) as Hall.
    rewrite Forall_forall in Hall. by apply Hall.
Qed.

Lemma indexOf_from_spec (c : Z) (s : jstring) (i : Z) :
  0 <= i ->
  (indexOf_from c s i = -1 /\ c ∉ s)
  \/ exists k : nat, indexOf_from c s i = i + Z.of_nat k
                     /\ s !! k = Some c /\ c ∉ take k s.
Proof.
  revert i. induction s as [|x t IH]; intros i Hi; cbn [indexOf_from].
  - left. split; [done|]. apply not_elem_of_nil.
  - destruct (Z.eqb_spec x c) as [->|Hne].
    + right. exists 0%nat. split; [lia|]. split; [done|]. apply not_elem_of_nil.
    + destruct (IH (i + 1) ltac:(lia)) as [[H1 H2]|(k & H1 & H2 & H3)].
      * left. split; [done|]. by apply not_elem_of_cons.
      * right. exists (S k). split; [lia|]. split; [done|].
        cbn [take]. by apply not_elem_of_cons.
Qed.

Lemma piece_key_Some (kv k : jstring) :
  piece_key kv = Some k ->
  k <> [] /\ (61 ∉ k) /\ kv = k ++ [61] ++ slice_from kv (indexOf 61 kv + 1).
Proof.
  unfold piece_key, indexOf. intros H.
  destruct (indexOf_from_spec 61 kv 0 ltac:(lia)) as [[H1 _]|(n & H1 & H2 & H3)].
  - rewrite H1 in H. done.
  - rewrite H1 in H |- *. destruct (Z.ltb_spec 0 (0 + Z.of_nat n)) as [Hpos|]; [|done].
    injection H as <-. unfold slice, slice_from.
    replace (Z.to_nat (0 + Z.of_nat n - 0)) with n by lia.
    replace (Z.to_nat (0 + Z.of_nat n + 1)) with (S n) by lia.
    change (Z.to_nat 0) with 0%nat. rewrite drop_0.
    split; [|split; [done|]].
    + intros E. assert (length (take n kv) = 0%nat) by (by rewrite E).
      rewrite length_take in H. apply lookup_lt_Some in H2. lia.
    + symmetry. exact (take_drop_middle kv n 61 H2).
Qed.

Lemma assign_loop_source (l : list jstring) (params : Obj.t)
    (k : jstring) (v : jvalue) :
  Obj.own (fold_left assign_param l params) !! k = Some v ->
  Obj.own params !! k = Some v
  \/ exists kv, kv ∈ l /\ piece_key kv = Some k /\ v = piece_value kv.
Proof.
  revert params. induction l as [|kv t IH]; intros params H; [by left|].
  cbn [fold_left] in H. destruct (IH _ H) as [Hp|(kv' & Hin & Hk & Hv)].
  - apply assign_param_source in Hp as [[Hk Hv]|Hp]; [|by left].
    right. exists kv. split; [by left|done].
  - right. exists kv'. split; [by right|done].
Qed.

(** X15: every key of the decoded parameters is written in the raw
    parameters as a [key=value] piece: it is not empty and holds no
    [=] and no white space, and its value is the reading of the
    right-hand side of such a piece. *)
Theorem parse_params_keys (raw k : jstring) (v : jvalue) :
  parse_params raw !! k = Some v ->
  k <> [] /\ (61 ∉ k) /\ Forall (fun c => is_space c = false) k
  /\ exists rhs, k ++ [61] ++ rhs ∈ param_pieces raw
                 /\ v = default (JStr rhs) (JSON_parse rhs).
Proof.
  unfold parse_params. intros H.
  apply assign_loop_source in H as [H|(kv & Hin & Hk & Hv)]; [done|].
  destruct (piece_key_Some kv k Hk) as (Hne & Heq & Hkv).
  destruct (param_pieces_no_space raw kv Hin) as [_ Hsp].
  split; [done|]. split; [done|]. split.
  - rewrite Hkv in Hsp. by apply Forall_app in Hsp as [? _].
  - exists (slice_from kv (indexOf 61 kv + 1)). rewrite <- Hkv. split; [done|].
    rewrite Hv. reflexivity.
Qed.

Lemma parse_params_keys_witness :
  str "n" <> [] /\ (61 ∉ str "n") /\ Forall (fun c => is_space c = false) (str "n")
  /\ exists rhs, str "n" ++ [61] ++ rhs ∈ param_pieces (str " n=1 =x y t=a b")
                 /\ JNum 1 = default (JStr rhs) (JSON_parse rhs).
Proof.
  apply parse_params_keys. vm_compute. reflexivity.
Defined.

(** ** Replacing a token of a text by another token *)

Lemma span_rest (f : Z -> bool) (s a b : jstring) :
  span f s = (a, b) -> match b with c :: _ => f c = false | [] => True end.
Proof.
  revert a b. induction s as [|c t IH]; intros a b H; simpl in H.
  - by injection H as <- <-.
  - destruct (f c) eqn:Hc.
    + destruct (span f t) as [a' b'] eqn:E. injection H as <- <-. by apply (IH a').
    + by injection H as <- <-.
Qed.

Lemma rbracket_split (w1 r1 w2 r2 : jstring) :
  Forall (fun c => not_rbracket c = true) w1 ->
  Forall (fun c => not_rbracket c = true) w2 ->
  w1 ++ 93 :: r1 = w2 ++ 93 :: r2 -> w1 = w2 /\ r1 = r2.
Proof.
  intros H1 H2 E.
  pose proof (span_app not_rbracket w1 (93 :: r1) H1 eq_refl) as S1.
  pose proof (span_app not_rbracket w2 (93 :: r2) H2 eq_refl) as S2.
  rewrite E, S2 in S1. by injection S1 as -> ->.
Qed.

Lemma id_char_not_rbracket (id : jstring) :
  Forall (fun c => is_id_char c = true) id -> Forall (fun c => not_rbracket c = true) id.
Proof.
  intros H. eapply Forall_impl; [exact H|]. intros c Hc. unfold not_rbracket.
  destruct (Z.eqb_spec c 93) as [->|]; [done|done].
Qed.

Lemma token_body_not_rbracket (id params : jstring) :
  Forall (fun c => is_id_char c = true) id ->
  Forall (fun c => not_rbracket c = true) params ->
  Forall (fun c => not_rbracket c = true) (str "[[Block:" ++ id ++ params).
Proof.
  intros Hid Hp. apply Forall_app. split; [by repeat constructor|].
  apply Forall_app. split; [by apply id_char_not_rbracket|done].
Qed.

Lemma match_token_groups (id params rest : jstring) :
  token_groups id params ->
  match_token (token_text id params ++ rest) = Some (id, params, rest).
Proof.
  intros (Hne & Hid & Hp & Hhead). unfold token_text.
  rewrite <- !app_assoc. apply match_token_intro; [done..|].
  by destruct params.
Qed.

Lemma match_token_rest (s id params rest rest' : jstring) :
  match_token s = Some (id, params, rest) ->
  match_token (token_text id params ++ rest') = Some (id, params, rest').
Proof.
  intros H. apply match_token_sound in H as [(_ & Hne & Hid & Hp) Hhead].
  by apply match_token_groups.
Qed.

(** Where the pattern does not match before a token, it does not match
    either when the token is replaced by another one. *)
Lemma no_match_replace (u id0 p0 id1 p1 post : jstring) :
  u <> [] ->
  Forall (fun c => is_id_char c = true) id0 ->
  Forall (fun c => not_rbracket c = true) p0 ->
  Forall (fun c => is_id_char c = true) id1 ->
  Forall (fun c => not_rbracket c = true) p1 ->
  match_token (u ++ token_text id0 p0 ++ post) = None ->
  match_token (u ++ token_text id1 p1 ++ post) = None.
Proof.
  intros Hu Hid0 Hp0 Hid1 Hp1 Hold.
  destruct (match_token (u ++ token_text id1 p1 ++ post)) as [[[i p] r]|] eqn:E; [|done].
  exfalso.
  assert (Hat : exists i' p' r', token_at (u ++ token_text id0 p0 ++ post) i' p' r').
  2: { destruct Hat as (i' & p' & r' & Hat).
       destruct (match_token_complete _ _ _ _ Hat) as (a & q & _ & Hm). congruence. }
  apply match_token_sound in E as [(Heq & Hne & Hi & Hp) _].
  pose proof (token_body_not_rbracket i p Hi Hp) as Hw.
  pose proof (token_body_not_rbracket id0 p0 Hid0 Hp0) as Hb0.
  pose proof (token_body_not_rbracket id1 p1 Hid1 Hp1) as Hb1.
  unfold token_text in *.
  change (str "]]") with [93; 93] in *.
  destruct (span not_rbracket u) as [a b] eqn:Eu.
  pose proof (span_rest _ _ _ _ Eu) as Hb.
  apply span_spec in Eu as [-> Ha].
  destruct b as [|c0 b'].
  - (* no closing bracket in [u]: the match reaches into the token *)
    rewrite app_nil_r in *.
    assert (Hsplit : a ++ str "[[Block:" ++ id1 ++ p1 = str "[[Block:" ++ i ++ p
                     /\ 93 :: post = 93 :: r).
    { apply rbracket_split; [by apply Forall_app|done|].
      rewrite <- !app_assoc in Heq. rewrite <- !app_assoc. exact Heq. }
    destruct Hsplit as [Hbody _].
    destruct i as [|c i']; [done|].
    apply Forall_cons in Hi as [Hc Hi'].
    change (str "[[Block:") with [91; 91; 66; 108; 111; 99; 107; 58] in Hbody.
    destruct a as [|x1 [|x2 [|x3 [|x4 [|x5 [|x6 [|x7 [|x8 [|x9 a']]]]]]]]];
      try done; simpl in Hbody; try (injection Hbody; intros; subst; discriminate).
    injection Hbody as -> -> -> -> -> -> -> -> -> Hrest.
    exists [c], (a' ++ str "[[Block:" ++ id0 ++ p0), post.
    split; [|split; [done|split; [by constructor|]]].
    + change (str "]]") with [93; 93].
      change (str "[[Block:") with [91; 91; 66; 108; 111; 99; 107; 58].
      cbn [app]. do 9 f_equal. rewrite <- !app_assoc. f_equal.
      cbn [app]. do 8 f_equal. by rewrite <- !app_assoc.
    + apply Forall_app. split; [|done].
      do 9 (apply Forall_cons in Ha as [_ Ha]). done.
  - (* a closing bracket in [u]: the match ends before the token *)
    simpl in Hb. unfold not_rbracket in Hb. apply negb_false_iff in Hb.
    apply Z.eqb_eq in Hb as ->.
    assert (Hsplit : a = str "[[Block:" ++ i ++ p
                     /\ b' ++ (str "[[Block:" ++ id1 ++ p1 ++ [93; 93]) ++ post = 93 :: r).
    { apply rbracket_split; [done|done|].
      rewrite <- !app_assoc in Heq. rewrite <- !app_assoc. exact Heq. }
    destruct Hsplit as [-> Hr].
    destruct b' as [|y b''].
    + simpl in Hr. discriminate.
    + injection Hr as -> _.
      exists i, p, (b'' ++ (str "[[Block:" ++ id0 ++ p0 ++ [93; 93]) ++ post).
      split; [|done]. by rewrite <- !app_assoc.
Qed.

Lemma search_shift (s : jstring) (pos d : Z) :
  search s (pos + d)
  = (fun r : RegExpMatch.t * jstring => (shift_match d r.1, r.2)) <$> search s pos.
Proof.
  revert pos. induction s as [|c s IH]; intros pos; rewrite !(search_eq _ pos), search_eq.
  - by destruct (match_token []) as [[[id params] r]|].
  - destruct (match_token (c :: s)) as [[[id params] r]|]; [done|].
    replace (pos + d + 1) with (pos + 1 + d) by lia. apply IH.
Qed.

Lemma exec_loop_shift (fuel : nat) (s : jstring) (pos d : Z) :
  exec_loop fuel s (pos + d) = map (shift_match d) (exec_loop fuel s pos).
Proof.
  revert s pos. induction fuel as [|fuel IH]; intros s pos; [done|].
  rewrite !exec_loop_S, search_shift.
  destruct (search s pos) as [[m rest]|]; [|done]. cbn [fmap option_fmap option_map fst snd map].
  f_equal. cbn [shift_match RegExpMatch.index RegExpMatch.m0].
  replace (RegExpMatch.index m + d + len (RegExpMatch.m0 m))
    with (RegExpMatch.index m + len (RegExpMatch.m0 m) + d) by lia.
  apply IH.
Qed.

Lemma exec_loop_groups (fuel : nat) (s : jstring) (pos : Z) (m : RegExpMatch.t) :
  m ∈ exec_loop fuel s pos ->
  pos <= RegExpMatch.index m
  /\ token_groups (RegExpMatch.m1 m) (RegExpMatch.m2 m)
  /\ RegExpMatch.m0 m = token_text (RegExpMatch.m1 m) (RegExpMatch.m2 m).
Proof.
  revert s pos. induction fuel as [|fuel IH]; intros s pos Hm;
    [by apply elem_of_nil in Hm|].
  rewrite exec_loop_S in Hm.
  destruct (search s pos) as [[m' rest]|] eqn:E; [|by apply elem_of_nil in Hm].
  destruct (search_found _ _ _ _ E) as (k & Hi & Hmatch & Hm0 & _).
  apply elem_of_cons in Hm as [->|Hm].
  - split; [lia|]. split; [|done].
    by apply match_token_sound in Hmatch as [(_ & Hne & Hid & Hp) Hhead].
  - destruct (IH _ _ Hm) as (Hle & Hg & H0). split; [|done].
    pose proof (len_nonneg (RegExpMatch.m0 m')). lia.
Qed.

Lemma len_token_text (id params : jstring) : 10 <= len (token_text id params).
Proof.
  unfold token_text. rewrite !len_app.
  pose proof (len_nonneg id). pose proof (len_nonneg params).
  change (len (str "[[Block:")) with 8. change (len (str "]]")) with 2. lia.
Qed.

Lemma app_eq_prefix {A} (a b c d : list A) :
  a ++ b = c ++ d -> (length c <= length a)%nat ->
  a = c ++ drop (length c) a /\ d = drop (length c) a ++ b.
Proof.
  intros H Hlen.
  assert (Hc : c = take (length c) a).
  { apply (f_equal (take (length c))) in H.
    rewrite take_app_le in H by done. by rewrite take_app_length in H. }
  split.
  - rewrite Hc at 1. by rewrite take_drop.
  - apply (f_equal (drop (length c))) in H.
    rewrite drop_app_le in H by done. by rewrite drop_app_length in H.
Qed.

Lemma match_eta (m : RegExpMatch.t) (i : Z) (id params : jstring) :
  RegExpMatch.index m = i -> RegExpMatch.m1 m = id -> RegExpMatch.m2 m = params ->
  RegExpMatch.m0 m = token_text id params ->
  m = RegExpMatch.mk i (token_text id params) id params.
Proof. destruct m. simpl. by intros -> -> -> ->. Qed.

(** The matches of a text in which one matched token is replaced by
    another token: the matches before it stay, the token itself is
    matched with its new groups, the matches after it move with the
    text. *)
Lemma exec_loop_replace (n : nat) :
  forall (u : jstring) (pos : Z) (id0 p0 id1 p1 post : jstring) (m : RegExpMatch.t),
    length u = n ->
    token_groups id0 p0 -> token_groups id1 p1 ->
    m ∈ exec_loop (length (u ++ token_text id0 p0 ++ post))
                  (u ++ token_text id0 p0 ++ post) pos ->
    RegExpMatch.index m = pos + len u ->
    exists ms1 ms2,
      exec_loop (length (u ++ token_text id0 p0 ++ post))
                (u ++ token_text id0 p0 ++ post) pos
      = ms1 ++ RegExpMatch.mk (pos + len u) (token_text id0 p0) id0 p0 :: ms2
      /\ exec_loop (length (u ++ token_text id1 p1 ++ post))
                   (u ++ token_text id1 p1 ++ post) pos
         = ms1 ++ RegExpMatch.mk (pos + len u) (token_text id1 p1) id1 p1
                  :: map (shift_match (len (token_text id1 p1) - len (token_text id0 p0))) ms2
      /\ m = RegExpMatch.mk (pos + len u) (token_text id0 p0) id0 p0.
Proof.
  induction n as [n IH] using lt_wf_ind.
  intros u pos id0 p0 id1 p1 post m Hn Hg0 Hg1 Hm Hindex.
  set (old := u ++ token_text id0 p0 ++ post) in *.
  set (new := u ++ token_text id1 p1 ++ post).
  pose proof Hg0 as (Hne0 & Hid0 & Hp0 & Hh0).
  pose proof Hg1 as (Hne1 & Hid1 & Hp1 & Hh1).
  rewrite exec_loop_unfold in Hm. rewrite !exec_loop_unfold.
  destruct (search old pos) as [[m' rest]|] eqn:E; [|by apply elem_of_nil in Hm].
  destruct (search_found _ _ _ _ E) as (k & Hi & Hmatch & Hm0 & Hdrop & Hnone).
  pose proof (len_token_text id0 p0) as Hlen0.
  assert (Hlenm : 10 <= len (RegExpMatch.m0 m')) by (rewrite Hm0; apply len_token_text).
  assert (Hlater : forall x, x ∈ exec_loop (length rest) rest (match_end m') ->
                             match_end m' <= RegExpMatch.index x).
  { intros x Hx. by apply exec_loop_groups in Hx as [? _]. }
  assert (Hnone' : forall j : nat, (j < k)%nat -> (j < length u)%nat ->
                                   match_token (drop j new) = None).
  { intros j Hj Hju. unfold new. rewrite drop_app_le by lia.
    apply (no_match_replace _ id0 p0); try done.
    - intros Hnil. assert (length (drop j u) = 0%nat) by (by rewrite Hnil).
      rewrite length_drop in H. lia.
    - specialize (Hnone j Hj). unfold old in Hnone. by rewrite drop_app_le in Hnone by lia. }
  destruct (Nat.lt_trichotomy k (length u)) as [Hk|[Hk|Hk]].
  - (* a match before the token *)
    assert (Hin : m ∈ exec_loop (length rest) rest (match_end m')).
    { apply elem_of_cons in Hm as [->|Hm]; [|done]. unfold len in *. lia. }
    pose proof (Hlater m Hin) as Hle. unfold match_end in Hle.
    assert (Hfit : (length (RegExpMatch.m0 m') <= length (drop k u))%nat).
    { rewrite length_drop. unfold len in *. lia. }
    unfold old in Hdrop. rewrite drop_app_le in Hdrop by lia.
    destruct (app_eq_prefix _ _ _ _ Hdrop Hfit) as [Hu Hrest].
    set (u' := drop (length (RegExpMatch.m0 m')) (drop k u)) in *.
    assert (Hlenu : len u = Z.of_nat k + len (RegExpMatch.m0 m') + len u').
    { rewrite <- (take_drop k u) at 1. rewrite Hu, !len_app. unfold len.
      rewrite length_take. lia. }
    assert (Hsearch : search new pos = Some (m', u' ++ token_text id1 p1 ++ post)).
    { rewrite (search_intro new pos k (RegExpMatch.m1 m') (RegExpMatch.m2 m')
                 (u' ++ token_text id1 p1 ++ post)).
      - f_equal. f_equal. symmetry. by apply match_eta.
      - intros j Hj. apply Hnone'; lia.
      - unfold new. rewrite drop_app_le by lia. rewrite Hu, <- app_assoc, Hm0.
        by apply (match_token_rest _ _ _ _ _ Hmatch). }
    rewrite Hsearch. subst rest.
    destruct (IH (length u') ltac:(unfold len in *; lia) u' (match_end m')
                 id0 p0 id1 p1 post m eq_refl Hg0 Hg1 Hin)
      as (ms1 & ms2 & Hold & Hnew & Hmeq).
    { unfold match_end. lia. }
    replace (match_end m' + len u') with (pos + len u) in Hold, Hnew, Hmeq
      by (unfold match_end; lia).
    exists (m' :: ms1), ms2. by rewrite Hold, Hnew.
  - (* the token itself *)
    subst k. unfold old in Hdrop, Hmatch. rewrite drop_app_length in Hdrop, Hmatch.
    rewrite (match_token_groups id0 p0 post Hg0) in Hmatch.
    injection Hmatch as H1 H2 H3.
    assert (Hm' : m' = RegExpMatch.mk (pos + len u) (token_text id0 p0) id0 p0).
    { apply match_eta; [done..|]. by rewrite Hm0, <- H1, <- H2. }
    assert (Hsearch : search new pos
                      = Some (RegExpMatch.mk (pos + len u) (token_text id1 p1) id1 p1, post)).
    { apply (search_intro new pos (length u)).
      - intros j Hj. by apply Hnone'.
      - unfold new. rewrite drop_app_length. by apply match_token_groups. }
    rewrite Hsearch. subst rest m'.
    exists [], (exec_loop (length post) post
                  (match_end (RegExpMatch.mk (pos + len u) (token_text id0 p0) id0 p0))).
    split; [done|]. split.
    + cbn [app]. f_equal. rewrite <- exec_loop_shift. f_equal.
      unfold match_end. cbn [RegExpMatch.index RegExpMatch.m0]. lia.
    + apply elem_of_cons in Hm as [->|Hm]; [done|].
      apply Hlater in Hm. unfold match_end in Hm.
      cbn [RegExpMatch.index RegExpMatch.m0] in Hm. lia.
  - (* no match before the token and none at the token: excluded *)
    exfalso. apply elem_of_cons in Hm as [->|Hm]; [unfold len in *; lia|].
    apply Hlater in Hm. unfold match_end, len in *. lia.
Qed.

Lemma token_info_shift (d : Z) (m : RegExpMatch.t) :
  token_info (shift_match d m) = shift_info d (token_info m).
Proof.
  unfold token_info, shift_info, shift_match. simpl. f_equal. lia.
Qed.

Lemma tokenText_token_text `{JT : JsonText} (def : BlockDef.t) (values : gmap jstring jvalue) :
  tokenText def values = token_text (BlockDef.id def) (32 :: paramStr def values).
Proof. reflexivity. Qed.

(** The tokens of the text that [saveEditingToken] publishes for the
    token with the index [i]. *)
Lemma saveEditingToken_tokens `{JT : JsonText} (blocks : list Block.t) (prompt : jstring)
    (i : Z)
    (info : TokenInfo.t) (blk : Block.t) (values : gmap jstring jvalue) :
  findTokenByIndex prompt i = Some info ->
  find_block blocks (TokenInfo.blockId info) = Some blk ->
  Forall (fun c => c <> 93) (paramStr (Block.def blk) values) ->
  let et := EditingToken.mk (TokenInfo.start info) (TokenInfo.end_ info)
                            (TokenInfo.blockId info) values in
  let next := saveEditingToken blocks prompt (Some et) in
  let new_text := tokenText (Block.def blk) values in
  let d := len new_text - (TokenInfo.end_ info - TokenInfo.start info) in
  next = take (Z.to_nat (TokenInfo.start info)) prompt ++ new_text
         ++ drop (Z.to_nat (TokenInfo.end_ info)) prompt
  /\ (forall j, 0 <= j < i -> findTokenByIndex next j = findTokenByIndex prompt j)
  /\ (forall j, i < j ->
        findTokenByIndex next j = shift_info d <$> findTokenByIndex prompt j)
  /\ findTokenByIndex next i
     = Some (TokenInfo.mk (TokenInfo.start info) (TokenInfo.start info + len new_text)
                          (TokenInfo.blockId info)
                          (parse_params (32 :: paramStr (Block.def blk) values))).
Proof.
  intros Hfind Hblk Hparams et next new_text d.
  (* the match behind the token *)
  assert (Hi : 0 <= i) by (unfold findTokenByIndex in Hfind; destruct (Z.ltb_spec i 0); [done|lia]).
  assert (Hm : exists m, exec_all prompt !! Z.to_nat i = Some m /\ info = token_info m).
  { unfold findTokenByIndex in Hfind. destruct (Z.ltb_spec i 0); [lia|].
    rewrite findTokenByIndex_loop_lookup, Z.sub_0_r in Hfind by lia.
    destruct (exec_all prompt !! Z.to_nat i) as [m|]; [|done].
    exists m. split; [done|]. by injection Hfind. }
  destruct Hm as (m & Hlookup & ->).
  assert (Hin : m ∈ exec_all prompt) by (by eapply list_elem_of_lookup_2).
  destruct (exec_loop_located (length prompt) prompt [] (exec_all prompt) eq_refl eq_refl)
    as [Hall Hsorted].
  rewrite Forall_forall in Hall. destruct (Hall m Hin) as (Hstart & Hend & Hslice & Hm0).
  change ([] ++ prompt) with prompt in *. change (len []) with 0 in Hstart.
  destruct (exec_loop_groups _ _ _ _ Hin) as (_ & Hgroups & _).
  unfold token_info in *.
  cbn [TokenInfo.start TokenInfo.end_ TokenInfo.blockId TokenInfo.params] in *.
  fold (match_end m) in *.
  set (pre := take (Z.to_nat (RegExpMatch.index m)) prompt).
  set (post := drop (Z.to_nat (match_end m)) prompt).
  assert (Hlenm : 10 <= len (RegExpMatch.m0 m)) by (rewrite Hm0; apply len_token_text).
  assert (Hprompt : prompt = pre ++ token_text (RegExpMatch.m1 m) (RegExpMatch.m2 m) ++ post).
  { rewrite <- Hm0, <- Hslice. unfold slice, pre, post.
    rewrite <- (take_drop (Z.to_nat (RegExpMatch.index m)) prompt) at 1. f_equal.
    rewrite <- (take_drop (Z.to_nat (match_end m - RegExpMatch.index m))
                  (drop (Z.to_nat (RegExpMatch.index m)) prompt)) at 1.
    f_equal. rewrite drop_drop. f_equal. unfold match_end in *. lia. }
  assert (Hpre : len pre = RegExpMatch.index m).
  { unfold pre, len. rewrite length_take. unfold match_end, len in *. lia. }
  (* the text that is published *)
  assert (Hid : BlockDef.id (Block.def blk) = RegExpMatch.m1 m) by (by apply find_block_id in Hblk).
  assert (Hnext : next = pre ++ token_text (RegExpMatch.m1 m)
                                  (32 :: paramStr (Block.def blk) values) ++ post).
  { unfold next, saveEditingToken, et. cbn [EditingToken.blockId EditingToken.start
      EditingToken.end_ EditingToken.values]. rewrite Hblk.
    rewrite tokenText_token_text, Hid. unfold slice, slice_from.
    change (Z.to_nat 0) with 0%nat. rewrite drop_0, Z.sub_0_r. done. }
  assert (Hg1 : token_groups (RegExpMatch.m1 m) (32 :: paramStr (Block.def blk) values)).
  { destruct Hgroups as (Hne & Hidc & _ & _). split; [done|]. split; [done|].
    split; [|done]. constructor; [done|].
    eapply Forall_impl; [exact Hparams|]. intros c Hc. unfold not_rbracket.
    by destruct (Z.eqb_spec c 93). }
  (* the matches of the two texts *)
  destruct (exec_loop_replace (length pre) pre 0 (RegExpMatch.m1 m) (RegExpMatch.m2 m)
              (RegExpMatch.m1 m) (32 :: paramStr (Block.def blk) values) post m
              eq_refl Hgroups Hg1)
    as (ms1 & ms2 & Hold & Hnew & Hmeq).
  { rewrite <- Hprompt. exact Hin. }
  { lia. }
  rewrite <- Hprompt in Hold. rewrite <- Hnext in Hnew.
  fold (exec_all prompt) in Hold. fold (exec_all next) in Hnew.
  rewrite Z.add_0_l, Hpre in Hold, Hnew, Hmeq.
  rewrite <- Hmeq in Hold.
  assert (Hcount : length ms1 = Z.to_nat i).
  { assert (Hat : exec_all prompt !! length ms1 = Some m)
      by (rewrite Hold; apply list_lookup_middle; done).
    destruct (Nat.lt_trichotomy (length ms1) (Z.to_nat i)) as [Hlt|[Heq|Hgt]]; [|done|].
    - pose proof (Hsorted _ _ m m Hlt Hat Hlookup). unfold match_end in *. lia.
    - pose proof (Hsorted _ _ m m Hgt Hlookup Hat). unfold match_end in *. lia. }
  assert (Hby : forall text j, 0 <= j ->
            findTokenByIndex text j = token_info <$> (exec_all text !! Z.to_nat j)).
  { intros text j Hj. unfold findTokenByIndex. destruct (Z.ltb_spec j 0); [lia|].
    by rewrite findTokenByIndex_loop_lookup, Z.sub_0_r by lia. }
  assert (Hd : d = len (token_text (RegExpMatch.m1 m) (32 :: paramStr (Block.def blk) values))
                   - len (token_text (RegExpMatch.m1 m) (RegExpMatch.m2 m))).
  { unfold d, new_text. rewrite tokenText_token_text, Hid, <- Hm0. unfold match_end. lia. }
  split; [|split; [|split]].
  - rewrite Hnext. unfold new_text. by rewrite tokenText_token_text, Hid.
  - intros j Hj. rewrite !Hby by lia. rewrite Hold, Hnew.
    by rewrite !lookup_app_l by lia.
  - intros j Hj. rewrite !Hby by lia. rewrite Hold, Hnew.
    rewrite !lookup_app_r by lia.
    replace (Z.to_nat j - length ms1)%nat with (S (Z.to_nat j - length ms1 - 1)) by lia.
    rewrite <- Hd, !lookup_cons. cbv iota beta.
    change (map (shift_match d) ms2) with (shift_match d <$> ms2).
    rewrite list_lookup_fmap.
    destruct (ms2 !! _) as [x|]; [|done]. simpl. by rewrite token_info_shift.
  - rewrite Hby by lia. rewrite Hnew, <- Hcount, list_lookup_middle by done.
    unfold new_text. rewrite tokenText_token_text, Hid. reflexivity.
Qed.

Lemma openTokenEditor_Some (blocks : list Block.t) (prompt : jstring) (i : Z)
    (et : EditingToken.t) :
  openTokenEditor blocks prompt i = Some et ->
  exists info,
    findTokenByIndex prompt i = Some info
    /\ is_Some (find_block blocks (TokenInfo.blockId info))
    /\ et = EditingToken.mk (TokenInfo.start info) (TokenInfo.end_ info)
                            (TokenInfo.blockId info) (TokenInfo.params info).
Proof.
  unfold openTokenEditor. intros H.
  destruct (findTokenByIndex prompt i) as [info|]; [|done].
  cbn [mbind option_bind] in H.
  destruct (find_block blocks (TokenInfo.blockId info)) as [blk|] eqn:Hblk; [|done].
  cbn [mbind option_bind] in H. exists info. split; [done|]. split; [by eexists|].
  by injection H.
Qed.

Lemma paramStr_no_rbracket `{JT : JsonText} (def : BlockDef.t)
    (values : gmap jstring jvalue) :
  Forall (fun p => key_ok (ParamDef.key p)) (BlockDef.params def) ->
  dom values = list_to_set (map ParamDef.key (BlockDef.params def)) ->
  (forall p v, p ∈ BlockDef.params def -> values !! ParamDef.key p = Some v ->
               token_safe (nullish v (ParamDef.default p)) v) ->
  Forall (fun c => c <> 93) (paramStr def values).
Proof.
  intros Hkeys Hdom Hsafe. unfold paramStr. change (str " ") with [32].
  match goal with |- Forall _ (join _ (map ?f _)) => set (piece := f) end.
  assert (Hall : Forall (fun p => Forall (fun c => c <> 93) p)
                        (map piece (BlockDef.params def))).
  { apply Forall_fmap, Forall_forall. intros p Hp. simpl.
    destruct (piece_spec def values Hkeys Hdom Hsafe p Hp) as (v & text & _ & _ & _ & Hc & _).
    eapply Forall_impl; [exact Hc|]. intros c Hcc.
    by apply token_char_spec in Hcc as [_ Hcc]. }
  induction Hall as [|x t Hx Hall IH]; [constructor|].
  destruct t as [|y t']; [done|].
  rewrite join_cons2.
  apply Forall_app. split; [done|]. apply Forall_cons. split; [done|done].
Qed.

(** X16: saving the token edited at index [i] leaves the other tokens
    of the prompt as they were: a token before it is found with the same
    positions, block and parameters, a token after it with the same
    block and parameters, its positions moved by the change of length of
    the edited token.  (The serialized values hold no closing
    bracket.) *)
Theorem saveEditingToken_other_tokens `{JT : JsonText} (blocks : list Block.t)
    (prompt : jstring) (i j : Z)
    (et0 : EditingToken.t) (blk : Block.t) (values : gmap jstring jvalue) :
  openTokenEditor blocks prompt i = Some et0 ->
  find_block blocks (EditingToken.blockId et0) = Some blk ->
  Forall (fun c => c <> 93) (paramStr (Block.def blk) values) ->
  let et := EditingToken.mk (EditingToken.start et0) (EditingToken.end_ et0)
                            (EditingToken.blockId et0) values in
  let next := saveEditingToken blocks prompt (Some et) in
  let d := len (tokenText (Block.def blk) values)
           - (EditingToken.end_ et0 - EditingToken.start et0) in
  (0 <= j < i -> findTokenByIndex next j = findTokenByIndex prompt j)
  /\ (i < j -> findTokenByIndex next j = shift_info d <$> findTokenByIndex prompt j).
Proof.
  intros Hopen Hblk Hparams.
  apply openTokenEditor_Some in Hopen as (info & Hfind & _ & ->).
  cbn [EditingToken.start EditingToken.end_ EditingToken.blockId] in *.
  destruct (saveEditingToken_tokens blocks prompt i info blk values Hfind Hblk Hparams)
    as (_ & Hbefore & Hafter & _).
  split; intros Hj; [by apply Hbefore|by apply Hafter].
Qed.

Lemma saveEditingToken_other_tokens_witness :
  let JT : JsonText := fun text => if bool_decide (text = str "1e3") then str "1000"
                                   else text in
  let blocks := [Block.mk (BlockDef.mk (str "k") (str "K")
                             [ParamDef.mk (str "a") (str "a") number (JNum 1) None] None)
                          (Project.mk [] (str "MyComp") 1920 1080 30 180)] in
  let prompt := str "[[Block:k a=1e3]] [[Block:k a=1]]" in
  let values : gmap jstring jvalue := <[ str "a" := JOther (str "1e3") ]> ∅ in
  let next := saveEditingToken blocks prompt
                (Some (EditingToken.mk 0 17 (str "k") values)) in
  next = str "[[Block:k a=1000]] [[Block:k a=1]]"
  /\ (TokenInfo.start <$> findTokenByIndex prompt 1) = Some 18
  /\ findTokenByIndex next 1 = shift_info 1 <$> findTokenByIndex prompt 1.
Proof.
  intros JT blocks prompt values next.
  split; [by vm_compute|]. split; [by vm_compute|].
  refine (proj2 (saveEditingToken_other_tokens (JT := JT) blocks prompt 0 1
                   (EditingToken.mk 0 17 (str "k") values)
                   (Block.mk (BlockDef.mk (str "k") (str "K")
                                [ParamDef.mk (str "a") (str "a") number (JNum 1) None] None)
                             (Project.mk [] (str "MyComp") 1920 1080 30 180))
                   values _ _ _) _).
  - vm_compute. reflexivity.
  - vm_compute. reflexivity.
  - vm_compute. repeat constructor; discriminate.
  - lia.
Defined.

(** X17: opening the editor on the token with the index [i], changing
    the values and saving puts a token in the prompt that the editor
    opens again, at the same index and the same start, with exactly the
    saved values: the parameter keys are non-empty, free of white
    space, [=] and closing brackets and other than [__proto__], and the
    values are given for exactly the declared keys, each written as a
    JSON text without white space and closing bracket that [JSON.parse]
    reads back as the value. *)
Theorem saveEditingToken_reopen `{JT : JsonText} (blocks : list Block.t)
    (prompt : jstring) (i : Z)
    (et0 : EditingToken.t) (blk : Block.t) (values : gmap jstring jvalue) :
  openTokenEditor blocks prompt i = Some et0 ->
  find_block blocks (EditingToken.blockId et0) = Some blk ->
  Forall (fun p => key_ok (ParamDef.key p)) (BlockDef.params (Block.def blk)) ->
  dom values = list_to_set (map ParamDef.key (BlockDef.params (Block.def blk))) ->
  (forall p v, p ∈ BlockDef.params (Block.def blk) ->
               values !! ParamDef.key p = Some v ->
               token_safe (nullish v (ParamDef.default p)) v) ->
  let et := EditingToken.mk (EditingToken.start et0) (EditingToken.end_ et0)
                            (EditingToken.blockId et0) values in
  let next := saveEditingToken blocks prompt (Some et) in
  openTokenEditor blocks next i
  = Some (EditingToken.mk (EditingToken.start et0)
            (EditingToken.start et0 + len (tokenText (Block.def blk) values))
            (EditingToken.blockId et0) values).
Proof.
  intros Hopen Hblk Hkeys Hdom Hsafe.
  apply openTokenEditor_Some in Hopen as (info & Hfind & _ & ->).
  cbn [EditingToken.start EditingToken.end_ EditingToken.blockId] in *.
  destruct (saveEditingToken_tokens blocks prompt i info blk values Hfind Hblk
              (paramStr_no_rbracket _ _ Hkeys Hdom Hsafe))
    as (_ & _ & _ & Hat).
  cbv zeta in Hat |- *. unfold openTokenEditor.
  rewrite Hat. cbn [mbind option_bind TokenInfo.blockId TokenInfo.start
    TokenInfo.end_ TokenInfo.params]. rewrite Hblk. cbn [mbind option_bind].
  by rewrite (parse_params_paramStr _ _ Hkeys Hdom Hsafe).
Qed.

Lemma saveEditingToken_reopen_witness :
  let blocks := [Block.mk (BlockDef.mk (str "a") (str "A")
                             [ParamDef.mk (str "n") (str "n") number (JNum 1) None] None)
                          (Project.mk [] (str "MyComp") 1920 1080 30 180)] in
  let prompt := str "x [[Block:a]] then [[Block:a n=7]]" in
  let values : gmap jstring jvalue := <[ str "n" := JNum 25 ]> ∅ in
  let next := saveEditingToken (JT := json_plain) blocks prompt
                (Some (EditingToken.mk 2 13 (str "a") values)) in
  openTokenEditor blocks next 0 = Some (EditingToken.mk 2 18 (str "a") values).
Proof.
  intros blocks prompt values next.
  refine (saveEditingToken_reopen (JT := json_plain) blocks prompt 0
            (EditingToken.mk 2 13 (str "a") ∅)
            (Block.mk (BlockDef.mk (str "a") (str "A")
                         [ParamDef.mk (str "n") (str "n") number (JNum 1) None] None)
                      (Project.mk [] (str "MyComp") 1920 1080 30 180))
            values _ _ _ _ _).
  - vm_compute. reflexivity.
  - vm_compute. reflexivity.
  - repeat constructor; try done; apply (bool_decide_unpack _); vm_compute; exact I.
  - vm_compute. reflexivity.
  - intros p v Hp Hv. apply list_elem_of_singleton in Hp as ->.
    vm_compute in Hv. injection Hv as <-.
    apply token_safe_scalar; [reflexivity|done|].
    intros text [= <-]. repeat constructor.
Defined.

(** ** Texts without token *)

Lemma match_token_no_bracket (s : jstring) : 91 ∉ s -> match_token s = None.
Proof.
  intros H. unfold match_token.
  destruct (after_prefix (str "[[Block:") s) as [s1|] eqn:E; [|done].
  apply after_prefix_spec in E. subst s. exfalso. apply H. by constructor.
Qed.

Lemma exec_all_no_bracket (text : jstring) : 91 ∉ text -> exec_all text = [].
Proof.
  intros H. rewrite exec_all_eq.
  assert (Hs : forall pos, search text pos = None); [|by rewrite Hs].
  induction text as [|c t IH]; intros pos; rewrite search_eq.
  - by rewrite match_token_no_bracket.
  - rewrite match_token_no_bracket by done.
    apply not_elem_of_cons in H as [_ H]. by apply IH.
Qed.

(** X18: a text without opening bracket holds no token: it is rendered
    as its escaped self (no exception is raised), no position and no
    index finds a token in it, and it contributes no block to the
    context. *)
Theorem renderPromptHTML_no_token (blocks : list Block.t) (text : jstring) :
  91 ∉ text ->
  renderPromptHTML blocks text = Some (escapeHTML text)
  /\ (forall pos, findTokenAt text pos = None)
  /\ (forall i, findTokenByIndex text i = None)
  /\ extractBlocksFromPrompt text blocks = [].
Proof.
  intros H. pose proof (exec_all_no_bracket text H) as He.
  split; [|split; [|split]].
  - unfold renderPromptHTML. rewrite He. cbn [render_loop].
    destruct text as [|c t]; [done|].
    replace (0 <? len (c :: t)) with true
      by (symmetry; apply Z.ltb_lt; unfold len; simpl; lia).
    cbn [mbind option_bind app join]. unfold slice_from.
    change (Z.to_nat 0) with 0%nat. by rewrite drop_0.
  - intros pos. unfold findTokenAt. by rewrite He.
  - intros i. unfold findTokenByIndex. rewrite He. by destruct (i <? 0).
  - unfold extractBlocksFromPrompt. by rewrite He.
Qed.

Lemma renderPromptHTML_no_token_witness :
  renderPromptHTML [] (str "a < b & c") = Some (str "a &lt; b &amp; c").
Proof.
  refine (proj1 (renderPromptHTML_no_token [] (str "a < b & c") _)).
  vm_compute. intros H. repeat (apply elem_of_cons in H as [H|H]; [discriminate H|]).
  by apply elem_of_nil in H.
Defined.

(** ** Escaping *)

(** X19: the escaped form of a text holds no angle bracket, so it adds
    no tag to the markup it is written in, and two different texts have
    different escaped forms. *)
Theorem escapeHTML_safe (s : jstring) :
  Forall (fun c => c <> 60 /\ c <> 62) (escapeHTML s)
  /\ forall s', escapeHTML s = escapeHTML s' -> s = s'.
Proof.
  split.
  - induction s as [|c t IH]; [constructor|]. rewrite escapeHTML_cons.
    apply Forall_app. split; [|done].
    destruct (escape_html_char_cases c) as [[-> ->]|[[-> ->]|[[-> ->]|(? & ? & ? & ->)]]];
      repeat constructor; done.
  - induction s as [|c t IH]; intros [|c' t'] Heq.
    + done.
    + symmetry in Heq. by apply escapeHTML_nonempty in Heq.
    + by apply escapeHTML_nonempty in Heq.
    + rewrite !escapeHTML_cons in Heq. revert Heq.
      destruct (escape_html_char_cases c) as [[-> ->]|[[-> ->]|[[-> ->]|(? & ? & ? & ->)]]];
        destruct (escape_html_char_cases c')
          as [[-> ->]|[[-> ->]|[[-> ->]|(? & ? & ? & ->)]]];
        intros Heq;
        change (str "&amp;") with [38; 97; 109; 112; 59] in Heq;
        change (str "&lt;") with [38; 108; 116; 59] in Heq;
        change (str "&gt;") with [38; 103; 116; 59] in Heq;
        cbn [app] in Heq;
        try discriminate Heq;
        try (injection Heq as Heq; f_equal; by apply IH);
        try (injection Heq as Hc Heq; congruence).
      injection Heq as -> Heq. f_equal. by apply IH.
Qed.

(** ** The attribute encoding: alphabet and fallback *)

(** X20: what [encodeAttr] returns is made of base64 digits and [=]
    only, in groups of four: it never holds a double quote, an
    ampersand or an angle bracket. *)
Theorem encodeAttr_alphabet (s a : jstring) :
  encodeAttr s = Some a ->
  Forall (fun c => is_Some (b64_val c) \/ c = 61) a
  /\ (length a mod 4 = 0)%nat
  /\ Forall (fun c => c <> 34 /\ c <> 38 /\ c <> 60 /\ c <> 62) a.
Proof.
  unfold encodeAttr. destruct (encodeURIComponent s) as [e|]; [|done].
  cbn [mbind option_bind].
  unfold btoa. destruct (forallb _ (unescape e)) eqn:Hb; [|done].
  intros [= <-].
  assert (Hbytes : Forall is_byte (unescape e)).
  { apply Forall_forall. intros c Hc.
    rewrite forallb_forall in Hb. apply list_elem_of_In, Hb in Hc.
    unfold is_byte, in_range in *. lia. }
  assert (Halpha : Forall (fun c => is_Some (b64_val c) \/ c = 61)
                     (map b64_char (sextets (unescape e))
                      ++ padding (length (unescape e)))).
  { apply Forall_app. split.
    - apply Forall_fmap. eapply Forall_impl; [by apply sextets_range|].
      intros x Hx. left. destruct (b64_char_val x Hx) as [-> _]. by eexists.
    - unfold padding.
      destruct (mod3_cases (length (unescape e))) as [E|[E|E]]; rewrite E;
        repeat constructor; by right. }
  split; [exact Halpha|]. split.
  - rewrite length_app, length_map, sextets_length. unfold padding.
    generalize (length (unescape e) / 3)%nat. intros q.
    destruct (mod3_cases (length (unescape e))) as [E|[E|E]]; rewrite E;
      cbv beta iota fix delta [length]; zify; divlia.
  - eapply Forall_impl; [exact Halpha|]. intros c [[v Hv]| ->]; [|done].
    repeat split; intros ->; discriminate Hv.
Qed.

Lemma encodeAttr_alphabet_witness :
  (length (str "W1tCbG9jazphXV0=") mod 4 = 0)%nat.
Proof.
  refine (proj1 (proj2 (encodeAttr_alphabet (str "[[Block:a]]") (str "W1tCbG9jazphXV0=") _))).
  vm_compute. reflexivity.
Defined.

Lemma strip_padding_elem (c : Z) (s : jstring) :
  c ∈ s -> c <> 61 -> c ∈ strip_padding s.
Proof.
  intros Hc H61. unfold strip_padding.
  destruct (length s mod 4 =? 0)%nat; [|done].
  destruct (rev s) as [|a r] eqn:Er; [done|].
  assert (Hs : s = rev r ++ [a]).
  { rewrite <- (rev_involutive s), Er. reflexivity. }
  destruct (Z.eqb_spec a 61) as [->|]; [|done].
  assert (Hr : c ∈ rev r).
  { rewrite Hs in Hc. apply elem_of_app in Hc as [Hc|Hc]; [done|].
    apply list_elem_of_singleton in Hc. done. }
  destruct r as [|b r']; [done|].
  destruct (Z.eqb_spec b 61) as [->|]; [|done].
  cbn [rev] in Hr. apply elem_of_app in Hr as [Hr|Hr]; [done|].
  apply list_elem_of_singleton in Hr. done.
Qed.

(** X21: on a text that holds a code unit outside the base64 alphabet
    (white space and [=] apart), [decodeAttr] raises no error and
    returns the text as it is. *)
Theorem decodeAttr_not_base64 (s : jstring) (c : Z) :
  c ∈ s -> b64_val c = None -> c <> 61 -> is_ascii_ws c = false ->
  decodeAttr s = s.
Proof.
  intros Hc Hval H61 Hws. unfold decodeAttr.
  assert (Hatob : atob s = None); [|by rewrite Hatob].
  unfold atob.
  set (data := strip_padding _).
  assert (Hdata : c ∈ data).
  { apply strip_padding_elem; [|done].
    apply list_elem_of_In, filter_In. split; [by apply list_elem_of_In|].
    by rewrite Hws. }
  destruct (length data mod 4 =? 1)%nat; [done|].
  destruct (mapM b64_val data) as [l|] eqn:E; [|done].
  exfalso. apply mapM_Some_1 in E.
  apply list_elem_of_lookup in Hdata as [i Hi].
  destruct (Forall2_lookup_l _ _ _ _ _ E Hi) as (y & _ & Hy). congruence.
Qed.

Lemma decodeAttr_not_base64_witness :
  decodeAttr (str "[[Block:a n=1]]") = str "[[Block:a n=1]]".
Proof.
  apply (decodeAttr_not_base64 (str "[[Block:a n=1]]") 91).
  - by constructor.
  - reflexivity.
  - done.
  - reflexivity.
Defined.

(** ** Colours *)

Lemma hash_hue_fold (id : jstring) (h : Z) :
  0 <= h < 360 -> 0 <= fold_left (fun h c => (h * 31 + c) mod 360) id h < 360.
Proof.
  revert h. induction id as [|c t IH]; intros h Hh; [done|].
  cbn [fold_left]. apply IH. apply Z.mod_pos_bound. lia.
Qed.

(** X22: the hue hashed from an identifier is an integer from 0 to 359,
    whatever the identifier is; a block with a hue of its own is shown
    in that hue, whatever its identifier is. *)
Theorem tokenColor_hue (id : jstring) :
  0 <= hash_hue id < 360
  /\ forall id' h, tokenColor id (Some h) = tokenColor id' (Some h).
Proof.
  split; [|done]. apply hash_hue_fold. lia.
Qed.

(** ** The animation fallback *)





Section motion_properties.
Variable number_text : kvalue -> jstring.

Lemma mapTransformProps_cases (frame : gmap jstring kvalue) :
  let r := str "rotate(" ++ number_text (last_or_self (get_prop frame (str "rotate")))
           ++ str "deg)" in
  let s := str "scale(" ++ number_text (last_or_self (get_prop frame (str "scale")))
           ++ str ")" in
  let transform (l : list jstring) := KScalar (JStr (join (str " ") l)) in
  mapTransformProps number_text frame
  = match is_defined (get_prop frame (str "rotate")), is_defined (get_prop frame (str "scale")) with
    | true, true =>
        <[ str "transform" := transform [r; s] ]>
          (delete (str "scale") (delete (str "rotate") frame))
    | true, false => <[ str "transform" := transform [r] ]> (delete (str "rotate") frame)
    | false, true => <[ str "transform" := transform [s] ]> (delete (str "scale") frame)
    | false, false => frame
    end.
Proof.
  intros r s transform. unfold mapTransformProps.
  assert (Hscale : get_prop (delete (str "rotate") frame) (str "scale")
                   = get_prop frame (str "scale")).
  { unfold get_prop. by rewrite lookup_delete_ne. }
  destruct (is_defined (get_prop frame (str "rotate"))) eqn:Er.
  - rewrite Hscale. by destruct (is_defined (get_prop frame (str "scale"))) eqn:Es.
  - by destruct (is_defined (get_prop frame (str "scale"))) eqn:Es.
Qed.

Lemma mapTransformProps_no_transform (frame : gmap jstring kvalue) :
  is_defined (get_prop frame (str "rotate")) = false ->
  is_defined (get_prop frame (str "scale")) = false ->
  mapTransformProps number_text frame = frame.
Proof.
  intros Hr Hs. rewrite mapTransformProps_cases. cbv zeta. by rewrite Hr, Hs.
Qed.

Lemma mapTransformProps_mapped (frame : gmap jstring kvalue) :
  is_defined (get_prop (mapTransformProps number_text frame) (str "rotate")) = false
  /\ is_defined (get_prop (mapTransformProps number_text frame) (str "scale")) = false.
Proof.
  rewrite mapTransformProps_cases. cbv zeta.
  destruct (is_defined (get_prop frame (str "rotate"))) eqn:Er;
    destruct (is_defined (get_prop frame (str "scale"))) eqn:Es;
    unfold get_prop in *;
    rewrite ?lookup_insert_ne by done;
    rewrite ?lookup_delete_eq, ?(lookup_delete_ne _ (str "scale") (str "rotate")),
            ?(lookup_delete_ne _ (str "rotate") (str "scale")), ?lookup_delete_eq by done;
    done.
Qed.

Lemma mapTransformProps_other (frame : gmap jstring kvalue) (k : jstring) :
  k <> str "rotate" -> k <> str "scale" -> k <> str "transform" ->
  mapTransformProps number_text frame !! k = frame !! k.
Proof.
  intros H1 H2 H3. rewrite mapTransformProps_cases. cbv zeta.
  destruct (is_defined (get_prop frame (str "rotate")));
    destruct (is_defined (get_prop frame (str "scale")));
    rewrite ?lookup_insert_ne, ?lookup_delete_ne by done; done.
Qed.

(** X23: [mapTransformProps] leaves every property other than
    [rotate], [scale] and [transform] as it is; the frame it returns has
    no defined [rotate] and no defined [scale]; a frame without them is
    returned as it is, so that mapping a frame twice is mapping it
    once. *)
Theorem mapTransformProps_spec (frame : gmap jstring kvalue) :
  let out := mapTransformProps number_text frame in
  (forall k, k <> str "rotate" -> k <> str "scale" -> k <> str "transform" ->
             out !! k = frame !! k)
  /\ is_defined (get_prop out (str "rotate")) = false
  /\ is_defined (get_prop out (str "scale")) = false
  /\ (is_defined (get_prop frame (str "rotate")) = false ->
      is_defined (get_prop frame (str "scale")) = false -> out = frame)
  /\ mapTransformProps number_text out = out.
Proof.
  intros out. destruct (mapTransformProps_mapped frame) as [Hr Hs].
  split; [|split; [exact Hr|split; [exact Hs|split]]].
  - intros k H1 H2 H3. by apply mapTransformProps_other.
  - apply mapTransformProps_no_transform.
  - by apply mapTransformProps_no_transform.
Qed.

End motion_properties.

(** ** The context sent with the prompt, after an edit *)

Lemma extractBlocksFromSegments_omap (segments : list PromptSeg) (blocks : list Block.t) :
  extractBlocksFromSegments segments blocks = omap (seg_usage blocks) segments.
Proof.
  unfold extractBlocksFromSegments. rewrite (push_loop _ (seg_usage blocks)); [done|].
  intros used [i v|i bid vs cu cd]; simpl; [by rewrite app_nil_r|].
  destruct (find_block blocks bid); simpl; by rewrite ?app_nil_r.
Qed.

Lemma extractBlocksFromSegments_blocks (segments : list PromptSeg) (blocks : list Block.t) :
  extractBlocksFromSegments segments blocks
  = extractBlocksFromSegments (block_segments segments) blocks.
Proof.
  rewrite !extractBlocksFromSegments_omap. unfold block_segments.
  induction segments as [|[i v|i bid vs cu cd] t IH]; [done|exact IH|].
  change (List.filter is_block (BlockSeg i bid vs cu cd :: t))
    with (BlockSeg i bid vs cu cd :: List.filter is_block t).
  change (omap ?f (?x :: ?l)) with (match f x with Some y => y :: omap f l | None => omap f l end).
  by rewrite IH.
Qed.




(** X26: the context that [generate] sends depends on the block
    segments only: editing a text leaves it as it is, and removing a
    segment leaves the usages of the segments that are kept, in their
    order. *)
Theorem context_after_edit (blocks : list Block.t) (id value fresh : jstring)
    (prev : list PromptSeg) :
  extractBlocksFromSegments (updateTextSeg id value prev) blocks
  = extractBlocksFromSegments prev blocks
  /\ extractBlocksFromSegments (removeSeg id fresh prev) blocks
     = extractBlocksFromSegments
         (filter (fun s => negb (str_eqb (seg_id s) id)) prev) blocks.
Proof.
  split.
  - rewrite extractBlocksFromSegments_blocks, updateTextSeg_blocks.
    by rewrite <- extractBlocksFromSegments_blocks.
  - rewrite extractBlocksFromSegments_blocks.
    rewrite (extractBlocksFromSegments_blocks (filter _ prev)). f_equal.
    unfold removeSeg. set (kept := filter _ prev).
    destruct (merge_loop_content kept []) as (_ & Hb & _). simpl in Hb.
    destruct (len (fold_left merge_step kept []) =? 0); [|done].
    rewrite block_segments_app, Hb. simpl. by rewrite app_nil_r.
Qed.

(** ** Explain templates: the first placeholder *)

Lemma find_sub_unfold (pat s : jstring) :
  find_sub pat s
  = match after_prefix pat s with
    | Some _ => Some O
    | None => match s with [] => None | _ :: t => S <$> find_sub pat t end
    end.
Proof. by destruct s. Qed.

Lemma find_sub_occurrence (pat a c : jstring) :
  is_Some (find_sub pat (a ++ pat ++ c)).
Proof.
  induction a as [|x a IH].
  - cbn [app]. rewrite find_sub_unfold, after_prefix_app. by eexists.
  - change ((x :: a) ++ pat ++ c) with (x :: (a ++ pat ++ c)).
    rewrite find_sub_unfold.
    destruct (after_prefix pat (x :: a ++ pat ++ c)); [by eexists|].
    destruct IH as [n ->]. by eexists.
Qed.

Lemma find_sub_None (pat s : jstring) :
  find_sub pat s = None -> forall a c, s <> a ++ pat ++ c.
Proof.
  intros H a c ->. destruct (find_sub_occurrence pat a c) as [n Hn]. congruence.
Qed.

(** The position of the first occurrence: [q ++ [z]] is the pattern,
    and no occurrence of it starts before the end of [pre]. *)
Lemma find_sub_first (q : jstring) (z : Z) (pre post : jstring) :
  (forall a c, pre ++ q <> a ++ (q ++ [z]) ++ c) ->
  find_sub (q ++ [z]) (pre ++ (q ++ [z]) ++ post) = Some (length pre).
Proof.
  induction pre as [|x t IH]; intros H.
  - cbn [app length]. by rewrite find_sub_unfold, after_prefix_app.
  - change ((x :: t) ++ (q ++ [z]) ++ post) with (x :: (t ++ (q ++ [z]) ++ post)).
    rewrite find_sub_unfold.
    destruct (after_prefix (q ++ [z]) (x :: t ++ (q ++ [z]) ++ post)) as [r|] eqn:E.
    + exfalso. apply after_prefix_spec in E.
      apply (H [] (drop (length (q ++ [z])) ((x :: t) ++ q))). cbn [app].
      rewrite <- (take_drop (length (q ++ [z])) ((x :: t) ++ q)) at 1. f_equal.
      assert (Hlen : (length (q ++ [z]) <= length ((x :: t) ++ q))%nat)
        by (rewrite !length_app; simpl; lia).
      assert (E' : take (length (q ++ [z])) (((x :: t) ++ q) ++ [z] ++ post)
                   = take (length (q ++ [z])) ((q ++ [z]) ++ r)).
      { f_equal. rewrite <- E. cbn [app]. by rewrite <- !app_assoc. }
      rewrite take_app_le in E' by done. rewrite E'. by rewrite take_app_length.
    + rewrite IH; [done|]. intros a c E'. apply (H (x :: a) c). cbn [app]. by rewrite E'.
Qed.

(** X27: the sentence of a parameter is its template with the first
    placeholder replaced by the JSON text of the value, the text before
    and after it left as it is (a later placeholder stays), when that
    JSON text holds no dollar sign; the template is the one of the
    parameter or, in its absence, [set <key> to {value}].  ([pre] is
    the text before the first placeholder: the placeholder does not
    occur in [pre] followed by the placeholder without its last
    character.) *)
Theorem explain_sentence_first `{JT : JsonText} (b : Usage.t) (defParam : ParamDef.t)
    (pre post : jstring) :
  explain_template defParam = pre ++ str "{value}" ++ post ->
  (forall a c, pre ++ str "{value" <> a ++ str "{value}" ++ c) ->
  36 ∉ to_String (JSON_stringify (explain_value b defParam)) ->
  explain_sentence b defParam
  = pre ++ to_String (JSON_stringify (explain_value b defParam)) ++ post.
Proof.
  intros Htpl Hpre Hjson. unfold explain_sentence, replace. rewrite Htpl.
  change (str "{value}") with (str "{value" ++ [125]) in *.
  rewrite find_sub_first by done.
  rewrite get_substitution_plain by done.
  rewrite take_app_length. f_equal. f_equal.
  rewrite <- drop_drop, drop_app_length. apply drop_app_length.
Qed.

Lemma explain_sentence_first_witness :
  let p := ParamDef.mk (str "speed") (str "speed") number (JNum 1)
             (Some (str "use {x} at {value}, not {value}!")) in
  let b := Usage.mk (str "blk_a") (str "Spin") [p]
                    [UsageParam.mk (str "speed") (JNum 1) (JNum 2)]
                    (Project.mk [] (str "MyComp") 1920 1080 30 180) None in
  explain_sentence (JT := json_plain) b p = str "use {x} at 2, not {value}!".
Proof.
  intros p b.
  refine (explain_sentence_first (JT := json_plain) b p (str "use {x} at ")
            (str ", not {value}!") _ _ _).
  - vm_compute. reflexivity.
  - apply find_sub_None. vm_compute. reflexivity.
  - vm_compute. intros H. repeat (apply elem_of_cons in H as [H|H]; [discriminate H|]).
    by apply elem_of_nil in H.
Defined.
